(** * agentic-anysite-scraper: page distillation and the scraping loop

    A shallow embedding of [PageSnapshot] (extractor.ts) and of
    [ScrapingEngine] (ScrapingEngine.ts), and the properties of the
    repository's specification that are about them.

    Conventions.
    - JavaScript strings are [string]; a character code is the code of the
      [ascii] (the embedding is exact on strings of code units below 256).
    - A JavaScript number that the code uses as a count, an index or a limit
      is a [Z]; pixel geometry is a [Q].
    - [undefined], [null] and a missing property are [None]; truthiness of a
      string-or-missing value is [truthy].
    - What the browser answers (the DOM, the rows a [$$eval] returns, whether
      a navigation throws) is data handed to the model.
    - The platform's [URL] class is a parameter of the engine ([Url.Api]);
      what the proofs need of it is stated once ([Url.Laws]). The examples
      run on a small URL class ([PlainUrl]). *)

From Stdlib Require Import ZArith QArith Qround Ascii String Lia.
From stdpp Require Import gmap strings list fin_maps sorting.

#[local] Set Warnings "-register-all".
#[local] Open Scope string_scope.
#[local] Open Scope list_scope.
#[local] Open Scope Z_scope.

(** ** JavaScript primitives *)

Module JS.

(** [s || ''] on an optional string. *)
Definition orEmpty (o : option string) : string :=
  match o with Some s => s | None => "" end.

(** Truthiness of an optional string: present and not empty. *)
Definition truthy (o : option string) : bool :=
  match o with Some s => negb (String.eqb s "") | None => false end.

(** [x | 0]: ToInt32, the wrap-around to a signed 32-bit integer. *)
Definition toInt32 (z : Z) : Z := (z + 2 ^ 31) mod 2 ^ 32 - 2 ^ 31.

(** The first [n] elements, for an integral [n]. *)
Fixpoint takeZ {A} (n : Z) (l : list A) : list A :=
  match l with
  | [] => []
  | a :: r => if n <=? 0 then [] else a :: takeZ (n - 1) r
  end.

(** [arr.slice(0, n)] for an integral [n]: a negative [n] counts from the end. *)
Definition slice0 {A} (n : Z) (l : list A) : list A :=
  if n <? 0 then takeZ (Z.of_nat (length l) + n) l else takeZ n l.

Definition digit36 (d : Z) : ascii :=
  if d <? 10 then ascii_of_nat (Z.to_nat (48 + d))
  else ascii_of_nat (Z.to_nat (87 + d)).

Fixpoint toString36_go (fuel : nat) (n : Z) (acc : string) : string :=
  match fuel with
  | O => acc
  | S fuel' =>
      let acc' := String (digit36 (n mod 36)) acc in
      if n / 36 =? 0 then acc' else toString36_go fuel' (n / 36) acc'
  end.

(** [n.toString(36)] for a non-negative integer [n]. *)
Definition toString36 (n : Z) : string :=
  toString36_go (S (Z.to_nat (Z.log2 n))) n "".

Fixpoint decimal_go (fuel : nat) (n : nat) (acc : string) : string :=
  match fuel with
  | O => acc
  | S fuel' =>
      let acc' := String (ascii_of_nat (48 + n mod 10)) acc in
      match (n / 10)%nat with
      | O => acc'
      | q => decimal_go fuel' q acc'
      end
  end.

(** [`${n}`] for a natural number. *)
Definition decimal (n : nat) : string := decimal_go (S n) n "".

(** [Array.from(new Set(arr))]: first occurrences, in order. *)
Fixpoint dedupe (seen : list string) (l : list string) : list string :=
  match l with
  | [] => []
  | x :: r =>
      if bool_decide (x ∈ seen) then dedupe seen r
      else x :: dedupe (x :: seen) r
  end.

(** [arr.sort((a, b) => key(b) - key(a))] for an integral key: descending,
    and stable (an element stays before the later ones of the same key). *)
Fixpoint insertDesc {A} (key : A → Z) (x : A) (l : list A) : list A :=
  match l with
  | [] => [x]
  | y :: r =>
      if key x <? key y then y :: insertDesc key x r
      else x :: y :: r
  end.

Definition sortDesc {A} (key : A → Z) (l : list A) : list A :=
  foldr (insertDesc key) [] l.

End JS.

(** ** Text helpers: the regular expressions of the source, as functions *)

Module Text.

(** The lower case of one code unit below 256: the ASCII capitals and the
    Latin-1 capitals (U+00C0 to U+00DE, the multiplication sign U+00D7
    apart) move up by 32. *)
Definition lowerUnit (c : ascii) : ascii :=
  let n := nat_of_ascii c in
  if ((65 <=? n) && (n <=? 90)
      || (192 <=? n) && (n <=? 222) && negb (n =? 215))%nat
  then ascii_of_nat (n + 32) else c.

(** [s.toLowerCase()]. A regular expression with the flag [i] and a pattern
    of ASCII letters is tested on the lower-cased text: among the code units
    below 256 only the ASCII capitals fold to ASCII letters. *)
Fixpoint toLowerCase (s : string) : string :=
  match s with
  | EmptyString => EmptyString
  | String c r => String (lowerUnit c) (toLowerCase r)
  end.

(** [s.startsWith(p)]. *)
Fixpoint startsWith (p s : string) : bool :=
  match p, s with
  | EmptyString, _ => true
  | String a p', String b s' => Ascii.eqb a b && startsWith p' s'
  | String _ _, EmptyString => false
  end.

(** [s.includes(p)]. *)
Fixpoint includes (p s : string) : bool :=
  startsWith p s ||
  match s with
  | EmptyString => false
  | String _ s' => includes p s'
  end.

(** JavaScript's [\s] on code units below 256. *)
Definition isSpace (c : ascii) : bool :=
  let n := nat_of_ascii c in
  ((9 <=? n) && (n <=? 13) || (n =? 32) || (n =? 160))%nat.

Definition isDigit (c : ascii) : bool :=
  let n := nat_of_ascii c in ((48 <=? n) && (n <=? 57))%nat.

(** [s.replace(/\s+/g, ' ')] followed by dropping a leading blank: the
    flag says whether the previous character was white space. *)
Fixpoint squeeze (prevSpace : bool) (s : string) : string :=
  match s with
  | EmptyString => EmptyString
  | String c r =>
      if isSpace c then
        if prevSpace then squeeze true r else String " "%char (squeeze true r)
      else String c (squeeze false r)
  end.

Fixpoint dropTrailingSpace (s : string) : string :=
  match s with
  | EmptyString => EmptyString
  | String c r =>
      match dropTrailingSpace r with
      | EmptyString => if isSpace c then EmptyString else String c EmptyString
      | r' => String c r'
      end
  end.

Fixpoint sliceTo (n : nat) (s : string) : string :=
  match n, s with
  | O, _ => EmptyString
  | S n', String c r => String c (sliceTo n' r)
  | S _, EmptyString => EmptyString
  end.

(** [clip]: [s.replace(/\s+/g, ' ').trim().slice(0, n)], [n] defaulting
    to 80 in extractor.ts. *)
Definition clip (s : string) (n : nat) : string :=
  sliceTo n (dropTrailingSpace (squeeze true s)).

(** The right-pointing double angle quotation mark, U+00BB: one code unit,
    187. *)
Definition raquo : string := String (ascii_of_nat 187) EmptyString.

(** [/(next|older|more|›|»)/i.test(s)]. The pattern's other glyph, the
    single right-pointing angle quotation mark U+203A, is the code unit
    8250: no string of code units below 256 contains it, so that
    alternative never matches here. *)
Definition isNextText (s : string) : bool :=
  let t := toLowerCase s in
  includes "next" t || includes "older" t || includes "more" t
  || includes raquo s.

(** One of [page], [p], [offset], [start], then [=] and a digit, at the
    head of [s] (already lower-cased). *)
Definition pageParamHere (s : string) : bool :=
  existsb
    (fun k =>
       startsWith k s &&
       match String.substring (String.length k) 2 s with
       | String e (String d EmptyString) => Ascii.eqb e "="%char && isDigit d
       | _ => false
       end)
    ["page"; "p"; "offset"; "start"].

(** [/([?&](page|p|offset|start)=\d+)/i.test(href)]. *)
Fixpoint hasPageParam (s : string) : bool :=
  match s with
  | EmptyString => false
  | String c r =>
      ((Ascii.eqb c "?"%char || Ascii.eqb c "&"%char) && pageParamHere (toLowerCase r))
      || hasPageParam r
  end.

Fixpoint dropLeadingSpace (s : string) : string :=
  match s with
  | EmptyString => EmptyString
  | String c r => if isSpace c then dropLeadingSpace r else s
  end.

(** [s.trim()]. *)
Definition trim (s : string) : string := dropTrailingSpace (dropLeadingSpace s).

(** [s.indexOf(p, from)], as the text from the match on, if there is one
    at a position not before [from]. *)
Fixpoint sliceAtIndexOf (p : string) (from : nat) (s : string) : option string :=
  match from, s with
  | O, EmptyString => if startsWith p s then Some s else None
  | O, String _ r => if startsWith p s then Some s else sliceAtIndexOf p O r
  | S _, EmptyString => None
  | S n, String _ r => sliceAtIndexOf p n r
  end.

(** [/^data:/i.test(s)]. *)
Definition isDataUrl (s : string) : bool := startsWith "data:" (toLowerCase s).

(** [/\.svg(\?|#|$)/i.test(s)], on a lower-cased [s]. *)
Fixpoint svgIn (s : string) : bool :=
  (startsWith ".svg" s &&
   match String.get 4 s with
   | None => true
   | Some c => Ascii.eqb c "?"%char || Ascii.eqb c "#"%char
   end)
  || match s with
     | EmptyString => false
     | String _ r => svgIn r
     end.

Definition isSvgUrl (s : string) : bool := svgIn (toLowerCase s).

(** [/^https?:/i.test(s)]. *)
Definition isHttpUrl (s : string) : bool :=
  startsWith "http:" (toLowerCase s) || startsWith "https:" (toLowerCase s).

(** [/^https?:\/\//i.test(s)]. *)
Definition isHttpAbsolute (s : string) : bool :=
  startsWith "http://" (toLowerCase s) || startsWith "https://" (toLowerCase s).
End Text.

(** ** The rendered document, as the analyzers of extractor.ts read it *)

Module Dom.

Record Rect := { x : Q; y : Q; width : Q; height : Q }.

(** One element. [hrefProp] is the resolved [a.href], [hrefAttr] the raw
    attribute; [cssPath] is what [cssFor] answers for the element in its
    document (it depends on the ancestors and on id uniqueness, which a
    subtree does not show). *)
Inductive Element := mkElement {
  tagName : string;
  classList : list string;
  roleAttr : option string;
  relAttr : option string;
  hrefAttr : option string;
  hrefProp : string;
  innerText : string;
  ariaLabel : option string;
  rect : Rect;
  cssPath : string;
  children : list Element
}.

(** [el.querySelectorAll('*')]: the proper descendants, in document order. *)
Fixpoint descendants (e : Element) : list Element :=
  match e with
  | mkElement _ _ _ _ _ _ _ _ _ _ ch =>
      (fix go (l : list Element) : list Element :=
         match l with
         | [] => []
         | c :: r => c :: descendants c ++ go r
         end) ch
  end.

(** [document.querySelectorAll('*')] for the document whose root is [e]. *)
Definition allElements (e : Element) : list Element := e :: descendants e.

Definition area (e : Element) : Q := (width (rect e) * height (rect e))%Q.

(** [Math.round]. *)
Definition round (q : Q) : Z := Qfloor (q + (1 # 2))%Q.

(** The selector [main, .content, body]. *)
Definition isContainer (e : Element) : bool :=
  String.eqb (tagName e) "MAIN"
  || bool_decide ("content" ∈ classList e)
  || String.eqb (tagName e) "BODY".

(** The selector [a, [role=link]]. *)
Definition isLink (e : Element) : bool :=
  String.eqb (tagName e) "A"
  || match roleAttr e with Some r => String.eqb r "link" | None => false end.

Definition isAnchor (e : Element) : bool := String.eqb (tagName e) "A".

End Dom.

(** ** extractor.ts: the snapshot types *)

Module Snap.
Import Dom.

Record BBox := { bx : Z; by_ : Z; bw : Z; bh : Z }.

(** What an analyzer returns for an element: a [NodeRef] still without
    [refId] and [frameId]. *)
Record RawRef := {
  selector : string;
  role : option string;
  name : option string;
  href : option string;
  visible : option bool;
  bbox : option BBox
}.

(** [{ ...r, refId, frameId }]. *)
Record NodeRef := { refId : string; frameId : string; node : RawRef }.

Record ListBlock (R : Type) := {
  root : R;
  itemCount : Z;
  itemLinkSelector : option string;
  samples : list string
}.
Arguments root {R}. Arguments itemCount {R}.
Arguments itemLinkSelector {R}. Arguments samples {R}.

Record FormField (R : Type) := { label : option string; input : R }.
Arguments label {R}. Arguments input {R}.

Record FormBlock (R : Type) := {
  form : R;
  fields : list (FormField R);
  submit : option R
}.
Arguments form {R}. Arguments fields {R}. Arguments submit {R}.

Record Limits := {
  maxControls : Z;
  maxLists : Z;
  maxForms : Z;
  maxFormFields : Z
}.

Definition DEFAULT_LIMITS : Limits :=
  {| maxControls := 30; maxLists := 2; maxForms := 3; maxFormFields := 12 |}.

(** A frame: its document and viewport height, and the answers of the
    analyzers that are not modelled in detail ([getHeadings],
    [getClickables frame limit], [getForms frame maxForms maxFields]). *)
Record Frame := {
  document : Element;
  innerHeight : Q;
  evalHeadings : list string;
  evalClickables : Z → list RawRef;
  evalForms : Z → Z → list (FormBlock RawRef)
}.

(** [page.frames()] without the main frame; [None] is a frame whose
    evaluation throws (cross-origin). *)
Record Page := {
  mainFrame : Frame;
  childFrames : list (option Frame);
  url : string;
  title : string;
  evalHints : Q * Q
}.

Record RefTarget := { t_selector : string; t_frameId : string }.

Record Compact := {
  c_url : string;
  c_title : string;
  headings : list string;
  lists : list (ListBlock NodeRef);
  controls : list NodeRef;
  pagination : list NodeRef;
  forms : list (FormBlock NodeRef);
  hints : Q * Q
}.

Record LLMSnapshot := {
  compact : Compact;
  refMap : gmap string RefTarget;
  frameCount : nat
}.

End Snap.

(** ** extractor.ts: [PageSnapshot] *)

Module PageSnapshot.
Import Dom Snap.

(** *** Repetition-based list detection *)

(** [signature]: the child count and the tag names of the first six
    children. The source keys its [Map] by the JSON text of this pair. *)
Definition Sig : Type := nat * list string.

Definition signature (el : Element) : Sig :=
  (length (children el), tagName <$> take 6 (children el)).

(** [arr = groups.get(s) || []; arr.push(k); groups.set(s, arr)] on a [Map]
    that keeps insertion order. *)
Fixpoint groupPush (s : Sig) (k : Element) (groups : list (Sig * list Element))
  : list (Sig * list Element) :=
  match groups with
  | [] => [(s, [k])]
  | (s', arr) :: rest =>
      if decide (s = s') then (s', arr ++ [k]) :: rest
      else (s', arr) :: groupPush s k rest
  end.

Definition groupsOf (kids : list Element) : list (Sig * list Element) :=
  foldl (fun groups k => groupPush (signature k) k groups) [] kids.

Definition MIN_REPEAT : nat := 8.
Definition MIN_AREA : Q := 200.

Definition rawRef (sel : string) : RawRef :=
  {| selector := sel; role := None; name := None; href := None;
     visible := None; bbox := None |}.

Definition sampleText (el : Element) : string :=
  Text.clip
    (if negb (String.eqb (innerText el) "") then innerText el
     else JS.orEmpty (ariaLabel el)) 80.

(** The block pushed for one group, if any. *)
Definition blockOfGroup (arr : list Element) : option (ListBlock RawRef) :=
  match arr with
  | [] => None
  | first :: _ =>
      if (MIN_REPEAT <=? length arr)%nat then
        if Qlt_le_dec (area first) MIN_AREA then None
        else
          let items := filter (fun e => isLink e = true) (descendants first) in
          Some {| root := rawRef (cssPath first);
                  itemCount := Z.of_nat (length arr);
                  itemLinkSelector :=
                    match items with [] => None | _ => Some "a, [role=link]" end;
                  samples := sampleText <$> take 3 items |}
      else None
  end.

Definition blocksOfContainer (c : Element) : list (ListBlock RawRef) :=
  omap (fun g => blockOfGroup g.2) (groupsOf (children c)).

Definition containers (doc : Element) : list Element :=
  filter (fun e => isContainer e = true) (allElements doc).

Definition listResults (doc : Element) : list (ListBlock RawRef) :=
  containers doc ≫= blocksOfContainer.

Definition getListBlocks (f : Frame) (maxLists : Z) : list (ListBlock RawRef) :=
  JS.slice0 maxLists
    (JS.sortDesc itemCount (listResults (document f))).

(** *** Pagination candidates *)

Definition relOf (a : Element) : string := Text.toLowerCase (JS.orEmpty (relAttr a)).

Definition relNext (a : Element) : bool := String.eqb (relOf a) "next".
Definition nextText (a : Element) : bool := Text.isNextText (innerText a).
Definition pageParam (a : Element) : bool := Text.hasPageParam (JS.orEmpty (hrefAttr a)).

(** [(r.y + r.height) > window.innerHeight * 0.6]. *)
Definition nearBottom (vh : Q) (a : Element) : bool :=
  if Qlt_le_dec (vh * (6 # 10)) (y (rect a) + height (rect a)) then true else false.

(** [rel === 'next' || isNextText || hasPageParam]. *)
Definition qualifies (a : Element) : bool := relNext a || nextText a || pageParam a.

Definition b2z (b : bool) (w : Z) : Z := if b then w else 0.

(** [_score]. *)
Definition score (vh : Q) (a : Element) : Z :=
  b2z (relNext a) 3 + b2z (nextText a) 2 + b2z (pageParam a) 2 + b2z (nearBottom vh a) 1.

Definition bboxOf (a : Element) : BBox :=
  {| bx := round (x (rect a)); by_ := round (y (rect a));
     bw := round (width (rect a)); bh := round (height (rect a)) |}.

(** The object pushed for an anchor, without its [_score]. *)
Definition candidateRef (a : Element) : RawRef :=
  {| selector := cssPath a;
     role := Some "link";
     name := Some (Text.clip
                     (if negb (String.eqb (innerText a) "") then innerText a
                      else JS.orEmpty (ariaLabel a)) 80);
     href := Some (hrefProp a);
     visible := Some true;
     bbox := Some (bboxOf a) |}.

(** The anchors that qualify, in document order. *)
Definition scanned (f : Frame) : list Element :=
  filter (fun a => qualifies a = true)
    (filter (fun e => isAnchor e = true) (allElements (document f))).

(** [candidates.sort((a, b) => b._score - a._score).slice(0, 4)], still
    as elements. *)
Definition rankedAnchors (f : Frame) : list Element :=
  JS.slice0 4 (JS.sortDesc (score (innerHeight f)) (scanned f)).

Definition getPaginationCandidates (f : Frame) : list RawRef :=
  candidateRef <$> rankedAnchors f.

(** [(c.href || '') + '|' + c.selector + '|' + c.frameId]. *)
Definition paginationKey (c : NodeRef) : string :=
  JS.orEmpty (href (node c)) +:+ "|" +:+ selector (node c) +:+ "|" +:+ frameId c.

Fixpoint rankPagination_go (seen : list string) (cands : list NodeRef) : list NodeRef :=
  match cands with
  | [] => []
  | c :: rest =>
      if bool_decide (paginationKey c ∈ seen) then rankPagination_go seen rest
      else c :: rankPagination_go (paginationKey c :: seen) rest
  end.

Definition rankPagination (cands : list NodeRef) : list NodeRef :=
  rankPagination_go [] cands.

(** *** Reference ids and the reference map *)

Fixpoint hashFrom (hash : Z) (base : string) : Z :=
  match base with
  | EmptyString => hash
  | String c rest => hashFrom (JS.toInt32 (hash * 31 + Z.of_nat (nat_of_ascii c))) rest
  end.

Definition refBase (frameId selector : string) (href name : option string) : string :=
  frameId +:+ "|" +:+ selector +:+ "|" +:+ JS.orEmpty href +:+ "|" +:+ JS.orEmpty name.

Definition makeRefId (frameId selector : string) (href name : option string) : string :=
  "r" +:+ frameId +:+ "-"
      +:+ JS.toString36 (Z.abs (hashFrom 0 (refBase frameId selector href name))).

(** Code that writes to [refMap] while it builds a value. *)
Definition Reg (A : Type) : Type := gmap string RefTarget → A * gmap string RefTarget.

Definition ret {A} (a : A) : Reg A := fun m => (a, m).
Definition bind {A B} (c : Reg A) (k : A → Reg B) : Reg B :=
  fun m => let '(a, m') := c m in k a m'.

Notation "'let*' x ':=' c 'in' k" := (bind c (fun x => k))
  (at level 10, x name, c at level 100, k at level 200).

(** [arr.map(f)] for an [f] that writes to [refMap], left to right. *)
Fixpoint mapReg {A B} (f : A → Reg B) (l : list A) : Reg (list B) :=
  match l with
  | [] => ret []
  | a :: rest => let* b := f a in let* bs := mapReg f rest in ret (b :: bs)
  end.

(** [addRef], for the frame [fid]. *)
Definition addRef (fid : string) (r : RawRef) : Reg NodeRef :=
  fun m =>
    let id := makeRefId fid (selector r) (href r) (name r) in
    ({| refId := id; frameId := fid; node := r |},
     <[ id := {| t_selector := selector r; t_frameId := fid |} ]> m).

Definition addList (fid : string) (lb : ListBlock RawRef) : Reg (ListBlock NodeRef) :=
  let* r := addRef fid (root lb) in
  ret {| root := r; itemCount := itemCount lb;
         itemLinkSelector := itemLinkSelector lb; samples := samples lb |}.

Definition addField (fid : string) (ff : FormField RawRef) : Reg (FormField NodeRef) :=
  let* i := addRef fid (input ff) in ret {| label := label ff; input := i |}.

Definition addSubmit (fid : string) (s : option RawRef) : Reg (option NodeRef) :=
  match s with
  | Some r => let* n := addRef fid r in ret (Some n)
  | None => ret None
  end.

Definition addForm (fid : string) (fb : FormBlock RawRef) : Reg (FormBlock NodeRef) :=
  let* f := addRef fid (form fb) in
  let* fs := mapReg (addField fid) (fields fb) in
  let* s := addSubmit fid (submit fb) in
  ret {| form := f; fields := fs; submit := s |}.

(** *** [build] *)

(** The frames [build] collects: the main frame as [main], then the child
    frames that can be evaluated, labelled [f1], [f2], ... by the number of
    frames collected so far. *)
Fixpoint collectChildren (n : nat) (fs : list (option Frame)) : list (Frame * string) :=
  match fs with
  | [] => []
  | Some f :: rest => (f, "f" +:+ JS.decimal n) :: collectChildren (S n) rest
  | None :: rest => collectChildren n rest
  end.

Definition collectFrames (includeSameOriginIframes : bool) (p : Page)
  : list (Frame * string) :=
  (mainFrame p, "main")
    :: (if includeSameOriginIframes then collectChildren 1 (childFrames p) else []).

(** The five accumulators of [build]. *)
Record Acc := {
  a_headings : list string;
  a_controls : list NodeRef;
  a_lists : list (ListBlock NodeRef);
  a_pagination : list NodeRef;
  a_forms : list (FormBlock NodeRef)
}.

Definition emptyAcc : Acc :=
  {| a_headings := []; a_controls := []; a_lists := [];
     a_pagination := []; a_forms := [] |}.

(** One turn of the loop over the frames. *)
Definition addFrame (limits : Limits) (acc : Acc) (ff : Frame * string) : Reg Acc :=
  let '(f, fid) := ff in
  let* cs := mapReg (addRef fid) (evalClickables f (maxControls limits)) in
  let* ls := mapReg (addList fid) (getListBlocks f (maxLists limits)) in
  let* ps := mapReg (addRef fid) (getPaginationCandidates f) in
  let* fs := mapReg (addForm fid) (evalForms f (maxForms limits) (maxFormFields limits)) in
  ret {| a_headings := a_headings acc ++ evalHeadings f;
         a_controls := a_controls acc ++ cs;
         a_lists := a_lists acc ++ ls;
         a_pagination := a_pagination acc ++ ps;
         a_forms := a_forms acc ++ fs |}.

Fixpoint addFrames (limits : Limits) (acc : Acc) (fs : list (Frame * string)) : Reg Acc :=
  match fs with
  | [] => ret acc
  | ff :: rest => let* acc' := addFrame limits acc ff in addFrames limits acc' rest
  end.

Definition build (limits : Limits) (includeSameOriginIframes : bool) (p : Page)
  : LLMSnapshot :=
  let frames := collectFrames includeSameOriginIframes p in
  let '(acc, refMap) := addFrames limits emptyAcc frames ∅ in
  {| compact :=
       {| c_url := url p;
          c_title := title p;
          headings := JS.slice0 6 (JS.dedupe [] (a_headings acc));
          lists := JS.slice0 (maxLists limits) (a_lists acc);
          controls := JS.slice0 (maxControls limits) (a_controls acc);
          pagination := JS.slice0 2 (rankPagination (a_pagination acc));
          forms := JS.slice0 (maxForms limits) (a_forms acc);
          hints := evalHints p |};
     refMap := refMap;
     frameCount := length frames |}.

(** *** Views used to state the properties of [build] *)

(** The entry [addRef] writes for a [NodeRef]. *)
Definition targetOf (nr : NodeRef) : RefTarget :=
  {| t_selector := selector (node nr); t_frameId := frameId nr |}.

(** The id [makeRefId] gives to the tuple of a [NodeRef]. *)
Definition idOf (nr : NodeRef) : string :=
  makeRefId (frameId nr) (selector (node nr)) (href (node nr)) (name (node nr)).

Definition refsOfForm (fb : FormBlock NodeRef) : list NodeRef :=
  form fb :: (input <$> fields fb) ++ option_list (submit fb).

(** Every [NodeRef] of the compact summary: controls, list roots,
    pagination candidates, forms, form-field inputs and submit controls. *)
Definition compactRefs (c : Compact) : list NodeRef :=
  controls c ++ (root <$> lists c) ++ pagination c ++ (forms c ≫= refsOfForm).

(** Every [NodeRef] the accumulators hold. *)
Definition accRefs (acc : Acc) : list NodeRef :=
  a_controls acc ++ (root <$> a_lists acc) ++ a_pagination acc
    ++ (a_forms acc ≫= refsOfForm).

(** The accumulators and the reference map at the end of the loop over
    the frames. *)
Definition collected (limits : Limits) (iframes : bool) (p : Page)
  : Acc * gmap string RefTarget :=
  addFrames limits emptyAcc (collectFrames iframes p) ∅.

(** Sibling elements with the same tag and the same sequence of child
    tags. *)
Definition structurallyIdentical (kids : list Element) : Prop :=
  ∃ tag kidTags, ∀ k, k ∈ kids → tagName k = tag ∧ tagName <$> children k = kidTags.

(** What [addRef] returns for [r] in the frame [fid]. *)
Definition nodeRefOf (fid : string) (r : RawRef) : NodeRef :=
  {| refId := makeRefId fid (selector r) (href r) (name r); frameId := fid; node := r |}.

(** The pagination candidates of all collected frames, frame after frame. *)
Definition allCandidates (iframes : bool) (p : Page) : list NodeRef :=
  collectFrames iframes p ≫=
    (fun ff => nodeRefOf ff.2 <$> getPaginationCandidates ff.1).

(** The [NodeRef]s that [addRef] returns for one frame, in the order of the
    calls: the controls, the list roots, the pagination candidates, then
    form by form the form, its field inputs and its submit control. *)
Definition frameRegistrations (limits : Limits) (ff : Frame * string) : list NodeRef :=
  accRefs (addFrame limits emptyAcc ff ∅).1.

(** All calls of [addRef] in a [build], in order: frame after frame. *)
Definition registrations (limits : Limits) (iframes : bool) (p : Page)
  : list NodeRef :=
  collectFrames iframes p ≫= frameRegistrations limits.

End PageSnapshot.

(** ** The platform's [URL] class

    [URL] and [URLSearchParams] belong to the JavaScript platform (the URL
    Standard), not to the repository. They are a parameter of the
    embedding: [Api] lists the operations the engine calls, as functions of
    the state of a URL object, and [Laws] the facts about them that the
    proofs rely on. *)

Module Url.

Class Api := {
  (** The state of a URL object. *)
  URL : Type;
  (** [new URL(u)] and [new URL(u, base)]; [None] is the [TypeError]. *)
  parse : string → option string → option URL;
  (** [url.toString()]. *)
  toString : URL → string;
  (** The getters [url.protocol], [url.host] and [url.hostname]. *)
  protocol : URL → string;
  host : URL → string;
  hostname : URL → string;
  (** The setters [url.hash = v], [url.search = v], [url.protocol = v] and
      [url.hostname = v]. *)
  setHash : string → URL → URL;
  setSearch : string → URL → URL;
  setProtocol : string → URL → URL;
  setHostname : string → URL → URL;
  (** [url.searchParams.delete(k)] and [[...url.searchParams.keys()]]. *)
  searchParamsDelete : string → URL → URL;
  searchParamsKeys : URL → list string
}.

(** The URL objects the engine can hold: what the constructor returns, and
    what the assignments and calls of [canonicalForDedupe] make of it. *)
Inductive Reach `{U : Api} : URL → Prop :=
  | Reach_parse u base r : parse u base = Some r → Reach r
  | Reach_setHash r : Reach r → Reach (setHash "" r)
  | Reach_delete k r : Reach r → Reach (searchParamsDelete k r)
  | Reach_setSearch r : Reach r → Reach (setSearch "" r)
  | Reach_setProtocol v r : Reach r → Reach (setProtocol v r)
  | Reach_setHostname v r : Reach r → Reach (setHostname v r).

(** What the URL Standard guarantees of these operations.

    - The serializer writes the scheme and a colon first, so a serialized
      URL is not empty.
    - Parser, serializer and API are idempotent (a goal of the Standard):
      the serialization of a URL object parses back to the same URL,
      whatever valid base is given with it.
    - The scheme of a URL is in lower case, and setting the scheme a URL
      has changes nothing.
    - Setting the host name to its lower case a second time changes
      nothing. (The first time can: a host that is not a domain keeps the
      case it was written in.)
    - Emptying the fragment, emptying the query and deleting a parameter
      are each idempotent.
    - Fragment, query and host are separate components of a URL: a change
      of one commutes with a change of another, two deletions commute, and
      the host name does not depend on fragment or query, nor the
      parameter names on the host. *)
Class Laws (U : Api) : Prop := {
  toString_nonempty r : Reach r → toString r ≠ "";
  parse_toString u base r0 r :
    parse u (Some base) = Some r0 → Reach r →
    parse (toString r) (Some base) = Some r;
  setProtocol_lower r :
    Reach r → setProtocol (Text.toLowerCase (protocol r)) r = r;
  setHostname_lower r :
    Reach r →
    let r' := setHostname (Text.toLowerCase (hostname r)) r in
    setHostname (Text.toLowerCase (hostname r')) r' = r';
  setHash_idem r : Reach r → setHash "" (setHash "" r) = setHash "" r;
  setSearch_idem r : Reach r → setSearch "" (setSearch "" r) = setSearch "" r;
  delete_idem k r :
    Reach r → searchParamsDelete k (searchParamsDelete k r) = searchParamsDelete k r;
  setHash_delete k r :
    Reach r →
    setHash "" (searchParamsDelete k r) = searchParamsDelete k (setHash "" r);
  setHash_setSearch r :
    Reach r → setHash "" (setSearch "" r) = setSearch "" (setHash "" r);
  setHash_setHostname v r :
    Reach r → setHash "" (setHostname v r) = setHostname v (setHash "" r);
  delete_delete j k r :
    Reach r →
    searchParamsDelete j (searchParamsDelete k r)
    = searchParamsDelete k (searchParamsDelete j r);
  delete_setSearch k r :
    Reach r →
    searchParamsDelete k (setSearch "" r) = setSearch "" (searchParamsDelete k r);
  delete_setHostname k v r :
    Reach r →
    searchParamsDelete k (setHostname v r) = setHostname v (searchParamsDelete k r);
  setSearch_setHostname v r :
    Reach r → setSearch "" (setHostname v r) = setHostname v (setSearch "" r);
  hostname_setHash r : Reach r → hostname (setHash "" r) = hostname r;
  hostname_delete k r : Reach r → hostname (searchParamsDelete k r) = hostname r;
  hostname_setSearch r : Reach r → hostname (setSearch "" r) = hostname r;
  searchParamsKeys_setHostname v r :
    Reach r → searchParamsKeys (setHostname v r) = searchParamsKeys r
}.

End Url.

(** ** A small URL class

    One implementation of [Url.Api], for the examples and to show that
    [Url.Laws] can be met. It covers the URLs
    [scheme://host[:port]/path?query#fragment] and the references relative
    to them. It does what the platform does on an http or https URL with a
    domain name for host, no user information, no default or zero-padded
    port, no dot segment in the path, and nothing that the platform would
    percent-encode or decode (in the query: names and values of letters,
    digits and [*-._]); the inputs of the examples are of this kind. Scheme
    and host are lower-cased by the parser. A string with a scheme that is
    not of this form counts as one the constructor rejects, and so does any
    string when the base is not of this form. *)

Module PlainUrl.

Record URL := {
  scheme : string;
  hostname : string;
  port : string;
  pathname : string;
  query : option string;
  fragment : option string
}.

(** The text before the first character that satisfies [p], and what
    follows that character, if there is one. *)
Fixpoint splitFirst (p : ascii → bool) (s : string) : string * option string :=
  match s with
  | EmptyString => (EmptyString, None)
  | String c r =>
      if p c then (EmptyString, Some r)
      else let '(a, b) := splitFirst p r in (String c a, b)
  end.

Fixpoint allChars (p : ascii → bool) (s : string) : bool :=
  match s with
  | EmptyString => true
  | String c r => p c && allChars p r
  end.

Definition isCh (d : ascii) (c : ascii) : bool := Ascii.eqb c d.

Definition isAlpha (c : ascii) : bool :=
  let n := nat_of_ascii c in
  ((65 <=? n) && (n <=? 90) || (97 <=? n) && (n <=? 122))%nat.

Definition isSchemeChar (c : ascii) : bool :=
  isAlpha c || Text.isDigit c || isCh "+" c || isCh "-" c || isCh "." c.

Definition validScheme (s : string) : bool :=
  match s with
  | EmptyString => false
  | String c _ => isAlpha c && allChars isSchemeChar s
  end.

Definition isHostChar (c : ascii) : bool :=
  negb (isCh "/" c || isCh "?" c || isCh "#" c || isCh ":" c || isCh "@" c || isCh "[" c).

Definition validHost (s : string) : bool :=
  negb (String.eqb s "") && allChars isHostChar s.

(** [host[:port]]. *)
Definition parseAuthority (auth : string) : option (string * string) :=
  let '(h, p) := splitFirst (isCh ":") auth in
  let pt := JS.orEmpty p in
  if validHost h && allChars Text.isDigit pt then Some (Text.toLowerCase h, pt)
  else None.

(** A string of the form [scheme://authority path ?query #fragment]. *)
Definition parseAbsolute (s : string) : option URL :=
  let '(s1, frag) := splitFirst (isCh "#") s in
  let '(s2, qry) := splitFirst (isCh "?") s1 in
  let '(sch, rest) := splitFirst (isCh ":") s2 in
  match rest with
  | Some (String "/" (String "/" r)) =>
      if validScheme sch then
        let '(auth, path) := splitFirst (isCh "/") r in
        match parseAuthority auth with
        | Some (h, pt) =>
            Some {| scheme := Text.toLowerCase sch; hostname := h; port := pt;
                    pathname := String "/" (JS.orEmpty path);
                    query := qry; fragment := frag |}
        | None => None
        end
      else None
  | _ => None
  end.

(** Whether the string starts with a scheme and a colon. *)
Definition hasScheme (s : string) : bool :=
  let '(sch, rest) := splitFirst (fun c => negb (isSchemeChar c)) s in
  validScheme sch &&
  match String.get (String.length sch) s with
  | Some c => isCh ":" c
  | None => false
  end.

(** The path up to and including its last slash. *)
Fixpoint dirname (path : string) : string :=
  match path with
  | EmptyString => EmptyString
  | String c r =>
      if Text.includes "/" r then String c (dirname r)
      else if isCh "/" c then String c EmptyString else EmptyString
  end.

(** A reference without a scheme, resolved against the parsed base. *)
Definition resolve (u : string) (b : URL) : option URL :=
  if Text.startsWith "//" u then parseAbsolute (scheme b +:+ ":" +:+ u)
  else
    let '(s1, frag) := splitFirst (isCh "#") u in
    let '(path, qry) := splitFirst (isCh "?") s1 in
    Some {| scheme := scheme b; hostname := hostname b; port := port b;
            pathname :=
              if String.eqb path "" then pathname b
              else if Text.startsWith "/" path then path
              else dirname (pathname b) +:+ path;
            query :=
              if String.eqb path "" then
                match qry with Some q => Some q | None => query b end
              else qry;
            fragment := frag |}.

(** [new URL(u)] and [new URL(u, base)]: the base is parsed first. *)
Definition parse (u : string) (base : option string) : option URL :=
  match base with
  | None => if hasScheme u then parseAbsolute u else None
  | Some b =>
      match parseAbsolute b with
      | Some pb => if hasScheme u then parseAbsolute u else resolve u pb
      | None => None
      end
  end.

(** [url.toString()]. *)
Definition toString (r : URL) : string :=
  scheme r +:+ "://" +:+ hostname r
    +:+ (if String.eqb (port r) "" then "" else ":" +:+ port r)
    +:+ pathname r
    +:+ (match query r with Some q => "?" +:+ q | None => "" end)
    +:+ (match fragment r with Some f => "#" +:+ f | None => "" end).

(** *** [URLSearchParams] over the query, and the setters the engine uses *)

Fixpoint splitOn (p : ascii → bool) (s : string) : list string :=
  match s with
  | EmptyString => [EmptyString]
  | String c r =>
      if p c then EmptyString :: splitOn p r
      else
        match splitOn p r with
        | [] => [String c EmptyString]
        | h :: t => String c h :: t
        end
  end.

Definition parsePair (piece : string) : option (string * string) :=
  if String.eqb piece "" then None
  else let '(n, v) := splitFirst (isCh "=") piece in Some (n, JS.orEmpty v).

(** The list of name-value pairs of a query string. *)
Definition parseQuery (q : string) : list (string * string) :=
  omap parsePair (splitOn (isCh "&") q).

Fixpoint serializeQuery (l : list (string * string)) : string :=
  match l with
  | [] => ""
  | [(n, v)] => n +:+ "=" +:+ v
  | (n, v) :: rest => n +:+ "=" +:+ v +:+ "&" +:+ serializeQuery rest
  end.

Definition searchParams (r : URL) : list (string * string) :=
  parseQuery (JS.orEmpty (query r)).

(** The update steps of [URLSearchParams]: the list is written back as the
    query, an empty serialization as no query. *)
Definition updateQuery (l : list (string * string)) (r : URL) : URL :=
  {| scheme := scheme r; hostname := hostname r; port := port r;
     pathname := pathname r;
     query := if String.eqb (serializeQuery l) "" then None
              else Some (serializeQuery l);
     fragment := fragment r |}.

(** [url.searchParams.delete(k)]. *)
Definition searchParamsDelete (k : string) (r : URL) : URL :=
  updateQuery (filter (fun nv => nv.1 ≠ k) (searchParams r)) r.

(** [[...url.searchParams.keys()]]. *)
Definition searchParamsKeys (r : URL) : list string := (searchParams r).*1.

(** [url.hash = v]. *)
Definition setHash (v : string) (r : URL) : URL :=
  {| scheme := scheme r; hostname := hostname r; port := port r;
     pathname := pathname r; query := query r;
     fragment :=
       match v with
       | EmptyString => None
       | String c rest => Some (if isCh "#" c then rest else v)
       end |}.

(** [url.search = v]. *)
Definition setSearch (v : string) (r : URL) : URL :=
  {| scheme := scheme r; hostname := hostname r; port := port r;
     pathname := pathname r;
     query :=
       match v with
       | EmptyString => None
       | String c rest => Some (if isCh "?" c then rest else v)
       end;
     fragment := fragment r |}.

(** [url.protocol]. *)
Definition protocol (r : URL) : string := scheme r +:+ ":".

(** [url.protocol = v]: a value that is not a scheme is ignored. *)
Definition setProtocol (v : string) (r : URL) : URL :=
  let sch := (splitFirst (isCh ":") v).1 in
  if validScheme sch then
    {| scheme := Text.toLowerCase sch; hostname := hostname r; port := port r;
       pathname := pathname r; query := query r; fragment := fragment r |}
  else r.

(** [url.hostname = v]: a value that is not a host is ignored. *)
Definition setHostname (v : string) (r : URL) : URL :=
  if validHost v then
    {| scheme := scheme r; hostname := Text.toLowerCase v; port := port r;
       pathname := pathname r; query := query r; fragment := fragment r |}
  else r.

(** [url.host]: the host name, and the port when there is one. *)
Definition host (r : URL) : string :=
  hostname r +:+ (if String.eqb (port r) "" then "" else ":" +:+ port r).

Definition api : Url.Api :=
  {| Url.URL := URL;
     Url.parse := parse;
     Url.toString := toString;
     Url.protocol := protocol;
     Url.host := host;
     Url.hostname := hostname;
     Url.setHash := setHash;
     Url.setSearch := setSearch;
     Url.setProtocol := setProtocol;
     Url.setHostname := setHostname;
     Url.searchParamsDelete := searchParamsDelete;
     Url.searchParamsKeys := searchParamsKeys |}.
End PlainUrl.

(** ** ScrapingEngine.ts: the data *)

Module Engine.

(** A row as the extraction tiers return it; the fields the engine never
    reads (actions, selectors, container, signals) are left out. *)
Record Row := {
  href : option string;
  url : option string;
  title : option string;
  snippet : option string;
  image : option string;
  tags : option (list string)
}.

Record ExtractedItem := { data : Row; itemUrl : string }.

Record ScrapingError := { message : string; errorUrl : string }.

Record ScrapingState := {
  currentUrl : string;
  visitedUrls : gset string;
  extractedItems : list ExtractedItem;
  currentPage : Z;
  errors : list ScrapingError
}.

(** [schema.target] and the parts of the schema and of the configuration
    that the loop reads. *)
Record Settings := {
  baseUrl : string;
  maxPages : option Z;
  maxItems : option Z;
  followLinks : bool;
  schemaPagination : bool;
  retryAttempts : option Z;
  retryDelay : option Z;
  startPath : option string;
  snapshotLimits : Snap.Limits;
  includeSameOriginIframes : bool
}.

Definition MAX_SAFE_INTEGER : Z := 2 ^ 53 - 1.

(** *** URL utilities *)

Section Urls.
Context `{U : Url.Api}.

(** [toAbsoluteUrl], with [this.state.currentUrl] as [base]. *)
Definition toAbsoluteUrl (base u : string) : string :=
  match Url.parse u (Some base) with
  | Some r => Url.toString r
  | None => u
  end.

Definition remove : list string :=
  [ "utm_source"; "utm_medium"; "utm_campaign"; "utm_term"; "utm_content";
    "gclid"; "fbclid"; "mc_cid"; "mc_eid"; "msclkid"; "_hsenc"; "_hsmi";
    "ref"; "ref_src"; "ref_url"; "igshid" ].

(** The body of the [try] of [canonicalForDedupe], after the parse. *)
Definition canonicalize (r0 : Url.URL) : Url.URL :=
  let r1 := Url.setHash "" r0 in
  let r2 := foldl (fun r k => Url.searchParamsDelete k r) r1 remove in
  let r3 := match Url.searchParamsKeys r2 with
            | [] => Url.setSearch "" r2
            | _ => r2
            end in
  let r4 := Url.setProtocol (Text.toLowerCase (Url.protocol r3)) r3 in
  Url.setHostname (Text.toLowerCase (Url.hostname r4)) r4.

(** [canonicalForDedupe], with [this.state.currentUrl] as [base]. *)
Definition canonicalForDedupe (base u : string) : string :=
  match Url.parse u (Some base) with
  | Some r => Url.toString (canonicalize r)
  | None => u
  end.

(** A URL object on which the steps of [canonicalForDedupe] change nothing:
    no fragment to strip, no tracking parameter to delete, no empty query
    to drop, protocol and host name in lower case. *)
Definition Canonical (c : Url.URL) : Prop :=
  Url.setHash "" c = c
  ∧ (∀ k, k ∈ remove → Url.searchParamsDelete k c = c)
  ∧ (Url.searchParamsKeys c = [] → Url.setSearch "" c = c)
  ∧ Url.setProtocol (Text.toLowerCase (Url.protocol c)) c = c
  ∧ Url.setHostname (Text.toLowerCase (Url.hostname c)) c = c.

Definition fixDoubledAbsolute (u : string) : string :=
  match Text.sliceAtIndexOf "https://" 1 u with
  | Some rest => rest
  | None =>
      match Text.sliceAtIndexOf "http://" 1 u with
      | Some rest => rest
      | None => u
      end
  end.

Definition absolutize (u base : string) : string :=
  let v := Text.trim u in
  if String.eqb v "" then v
  else if Text.isHttpAbsolute v then v
  else if Text.startsWith "//" v then
    match Url.parse base None with
    | Some b => Url.protocol b +:+ v
    | None => "https:" +:+ v
    end
  else
    match Url.parse v (Some base) with
    | Some r => Url.toString r
    | None => v
    end.

Definition cleanImageUrl (raw : option string) (pageUrl : string) : option string :=
  if JS.truthy raw then
    let u := Text.trim (JS.orEmpty raw) in
    if String.eqb u "" then None
    else if Text.isDataUrl u || Text.isSvgUrl u then None
    else
      let u' := absolutize (fixDoubledAbsolute u) pageUrl in
      if String.eqb u' "" || negb (Text.isHttpUrl u') then None else Some u'
  else None.

Fixpoint promoteFromTags_go (tags : list string) (pageUrl : string) : option string :=
  match tags with
  | [] => None
  | t :: rest =>
      match cleanImageUrl (Some t) pageUrl with
      | Some c => Some c
      | None => promoteFromTags_go rest pageUrl
      end
  end.

Definition promoteFromTags (tags : option (list string)) (pageUrl : string)
  : option string :=
  match tags with
  | Some ts => promoteFromTags_go ts pageUrl
  | None => None
  end.

(** *** Cleaning and de-duplication of a batch *)

(** [(x.data.href || x.data.url) || '']. *)
Definition hrefOrUrl (r : Row) : string :=
  if JS.truthy (href r) then JS.orEmpty (href r)
  else if JS.truthy (url r) then JS.orEmpty (url r)
  else "".

(** The members of [existingGlobal]. *)
Definition existingGlobal (st : ScrapingState) : list string :=
  filter (fun k => k ≠ "")
    ((fun x => canonicalForDedupe (currentUrl st) (hrefOrUrl (data x)))
       <$> extractedItems st).

(** The first [map] of [cleanAndDedupeResults]. *)
Definition normalizeRow (base : string) (r : Row) : Row :=
  {| href := if JS.truthy (href r)
             then Some (toAbsoluteUrl base (JS.orEmpty (href r))) else None;
     url := url r;
     title := if JS.truthy (title r)
              then Some (Text.trim (JS.orEmpty (title r))) else None;
     snippet := snippet r;
     image := match cleanImageUrl (image r) base with
              | Some i => Some i
              | None => promoteFromTags (tags r) base
              end;
     tags := tags r |}.

(** [r.title || r.href || r.snippet]. *)
Definition hasContent (r : Row) : bool :=
  JS.truthy (title r) || JS.truthy (href r) || JS.truthy (snippet r).

(** [`${r.title}`]. *)
Definition titleText (r : Row) : string :=
  match title r with Some t => t | None => "null" end.

(** [key]. *)
Definition dedupeKey (base : string) (r : Row) : string :=
  let c := if JS.truthy (href r)
           then canonicalForDedupe base (JS.orEmpty (href r)) else "" in
  if String.eqb c "" then titleText r +:+ "|" +:+ JS.orEmpty (snippet r) else c.

(** The second [filter], with [localSeen] as it grows. *)
Fixpoint dedupeFilter (base : string) (global localSeen : list string)
    (rows : list Row) : list Row :=
  match rows with
  | [] => []
  | r :: rest =>
      let key := dedupeKey base r in
      if String.eqb key "" then dedupeFilter base global localSeen rest
      else if JS.truthy (href r)
              && bool_decide (canonicalForDedupe base (JS.orEmpty (href r)) ∈ global)
      then dedupeFilter base global localSeen rest
      else if bool_decide (key ∈ localSeen)
      then dedupeFilter base global localSeen rest
      else r :: dedupeFilter base global (key :: localSeen) rest
  end.

(** [counts[r.image] = (counts[r.image] || 0) + 1]; the keys are http(s)
    URLs, so the object lists them in insertion order. *)
Fixpoint countImage (img : string) (counts : list (string * Z)) : list (string * Z) :=
  match counts with
  | [] => [(img, 1)]
  | (k, c) :: rest =>
      if String.eqb k img then (k, c + 1) :: rest
      else (k, c) :: countImage img rest
  end.

Definition imageCounts (rows : list Row) : list (string * Z) :=
  foldl (fun counts r =>
           if JS.truthy (image r) then countImage (JS.orEmpty (image r)) counts
           else counts) [] rows.

Definition dropImage (bad : string) (r : Row) : Row :=
  if bool_decide (image r = Some bad) then
    {| href := href r; url := url r; title := title r; snippet := snippet r;
       image := None; tags := tags r |}
  else r.

Definition removeCommonImages (rows : list Row) : list Row :=
  match List.find (fun kc => 5 <=? kc.2) (imageCounts rows) with
  | Some (bad, _) => dropImage bad <$> rows
  | None => rows
  end.

(** The rows that pass the [map] and the two [filter]s: the qualifying
    rows. *)
Definition qualifying (st : ScrapingState) (results : list Row) : list Row :=
  dedupeFilter (currentUrl st) (existingGlobal st) []
    (filter (fun r => hasContent r = true)
       (normalizeRow (currentUrl st) <$> results)).

(** The batch before [removeCommonImages]. *)
Definition cleaned (st : ScrapingState) (results : list Row) (maxNeeded : Z)
  : list Row :=
  JS.slice0 maxNeeded (qualifying st results).

Definition cleanAndDedupeResults (st : ScrapingState) (results : list Row)
    (maxNeeded : Z) : list Row :=
  removeCommonImages (cleaned st results maxNeeded).

End Urls.

(** *** What the browser answers *)

Inductive Answer (A : Type) := Returns (a : A) | Throws (msg : string).
Arguments Returns {A}. Arguments Throws {A}.

(** One page as the engine sees it: the page [takeSnapshot] distils (or the
    error it throws), the rows of the schema tier ([None] when the schema has
    no item root or fields, or when its [$$eval] throws: the tier then returns
    the empty list), the rows of the list tier and of the anchor tier. *)
Record PageEnv := {
  snapshotOf : Answer Snap.Page;
  schemaRows : option (list Row);
  listRows : Answer (list Row);
  anchorRows : Answer (list Row)
}.

(** One turn of the loop: the page it starts on, the pages behind the
    links it follows and whether going there succeeds, and the answers of
    the two ways to paginate. *)
Record CycleEnv := {
  rootPage : PageEnv;
  childGoto : string → Answer ();
  childPage : string → PageEnv;
  nextGoto : Answer ();
  flowHasNext : Answer bool;
  flowGoto : Answer ()
}.

(** Code that changes the state and may throw; the state changed so far
    survives the throw. *)
Definition Eff (A : Type) : Type := ScrapingState → ScrapingState * Answer A.

Definition pure {A} (a : A) : Eff A := fun st => (st, Returns a).
Definition throw {A} (msg : string) : Eff A := fun st => (st, Throws msg).
Definition andThen {A B} (c : Eff A) (k : A → Eff B) : Eff B :=
  fun st =>
    match c st with
    | (st', Returns a) => k a st'
    | (st', Throws msg) => (st', Throws msg)
    end.
Definition await {A} (a : Answer A) : Eff A := fun st => (st, a).
Definition get : Eff ScrapingState := fun st => (st, Returns st).
Definition modify (f : ScrapingState → ScrapingState) : Eff () :=
  fun st => (f st, Returns ()).

Notation "'let!' x ':=' c 'in' k" := (andThen c (fun x => k))
  (at level 10, x name, c at level 100, k at level 200).
Notation "c ';;' k" := (andThen c (fun _ => k))
  (at level 100, k at level 200, right associativity).

(** *** State updates *)

Definition initializeState (s : Settings) : ScrapingState :=
  {| currentUrl := baseUrl s; visitedUrls := ∅; extractedItems := [];
     currentPage := 1; errors := [] |}.

Definition setCurrentUrl (u : string) (st : ScrapingState) : ScrapingState :=
  {| currentUrl := u; visitedUrls := visitedUrls st;
     extractedItems := extractedItems st; currentPage := currentPage st;
     errors := errors st |}.

Definition pushItems (rows : list Row) (st : ScrapingState) : ScrapingState :=
  {| currentUrl := currentUrl st; visitedUrls := visitedUrls st;
     extractedItems :=
       extractedItems st
         ++ ((fun d => {| data := d; itemUrl := currentUrl st |}) <$> rows);
     currentPage := currentPage st; errors := errors st |}.

Definition markVisited (u : string) (st : ScrapingState) : ScrapingState :=
  {| currentUrl := currentUrl st; visitedUrls := {[ u ]} ∪ visitedUrls st;
     extractedItems := extractedItems st; currentPage := currentPage st;
     errors := errors st |}.

Definition nextPage (st : ScrapingState) : ScrapingState :=
  {| currentUrl := currentUrl st; visitedUrls := visitedUrls st;
     extractedItems := extractedItems st; currentPage := currentPage st + 1;
     errors := errors st |}.

Definition isVisited (u : string) (st : ScrapingState) : bool :=
  bool_decide (u ∈ visitedUrls st).

Definition handleError (msg : string) (st : ScrapingState) : ScrapingState :=
  {| currentUrl := currentUrl st; visitedUrls := visitedUrls st;
     extractedItems := extractedItems st; currentPage := currentPage st;
     errors := errors st ++ [{| message := msg; errorUrl := currentUrl st |}] |}.

(** A limit that is [undefined] or [0] is falsy and does not apply. *)
Definition limitReached (limit : option Z) (value : Z) : bool :=
  match limit with
  | Some l => negb (l =? 0) && (l <=? value)
  | None => false
  end.

Definition shouldContinue (s : Settings) (st : ScrapingState) : bool :=
  if limitReached (maxPages s) (currentPage st) then false
  else if limitReached (maxItems s) (Z.of_nat (length (extractedItems st))) then false
  else true.

(** *** Extraction from a snapshot *)

Section Turns.
Context `{U : Url.Api}.

Definition maxNeeded (s : Settings) (st : ScrapingState) : Z :=
  Z.max (default MAX_SAFE_INTEGER (maxItems s)
         - Z.of_nat (length (extractedItems st))) 0.

(** [extractFromSchema]: whatever goes wrong inside is caught. *)
Definition extractFromSchema (p : PageEnv) (needed : Z) : Eff (list Row) :=
  let! st := get in
  match schemaRows p with
  | Some rows => pure (cleanAndDedupeResults st rows needed)
  | None => pure []
  end.

Definition extractFromSnapshot (p : PageEnv) (snap : Snap.LLMSnapshot)
    (needed : Z) : Eff (list Row) :=
  match Snap.lists (Snap.compact snap) with
  | [] => pure []
  | lb :: _ =>
      if String.eqb (Snap.selector (Snap.node (Snap.root lb))) "" then pure []
      else
        let! rows := await (listRows p) in
        let! st := get in
        pure (cleanAndDedupeResults st rows needed)
  end.

Definition extractFromPageAnchors (p : PageEnv) (needed : Z) : Eff (list Row) :=
  let! rows := await (anchorRows p) in
  let! st := get in
  pure (cleanAndDedupeResults st rows needed).

Definition extractItemsFromSnapshot (s : Settings) (p : PageEnv)
    (snap : Snap.LLMSnapshot) : Eff (list Row) :=
  let! st := get in
  let needed := maxNeeded s st in
  if needed <=? 0 then pure []
  else
    let! schemaResults := extractFromSchema p needed in
    match schemaResults with
    | _ :: _ => pure schemaResults
    | [] =>
        let! snapshotResults := extractFromSnapshot p snap needed in
        match snapshotResults with
        | _ :: _ => pure snapshotResults
        | [] => extractFromPageAnchors p needed
        end
    end.

Definition takeSnapshot (s : Settings) (p : PageEnv) : Eff Snap.LLMSnapshot :=
  let! page := await (snapshotOf p) in
  pure (PageSnapshot.build (snapshotLimits s) (includeSameOriginIframes s) page).

(** [if (items.length) this.state.extractedItems.push(...)]. *)
Definition extractAndPush (s : Settings) (p : PageEnv) (snap : Snap.LLMSnapshot)
  : Eff () :=
  let! items := extractItemsFromSnapshot s p snap in
  match items with
  | [] => pure ()
  | _ => modify (pushItems items)
  end.

(** *** Links, pagination and the loop *)

Definition isSameSite (st : ScrapingState) (h : string) : bool :=
  match Url.parse (currentUrl st) None, Url.parse h None with
  | Some a, Some b =>
      String.eqb (Url.host a) (Url.host b) || String.eqb (Url.host b) ""
  | _, _ => true
  end.

Definition discoverLinksFromSnapshot (st : ScrapingState) (snap : Snap.LLMSnapshot)
  : list string :=
  filter (fun h => isSameSite st h = true)
    (JS.dedupe []
       (omap (fun ctl => if JS.truthy (Snap.href (Snap.node ctl))
                         then Snap.href (Snap.node ctl) else None)
          (JS.slice0 10 (Snap.controls (Snap.compact snap))))).

Definition chooseNextPageHref (st : ScrapingState) (snap : Snap.LLMSnapshot)
  : option string :=
  head
    (omap (fun c => if JS.truthy (Snap.href (Snap.node c))
                       && negb (isVisited (JS.orEmpty (Snap.href (Snap.node c))) st)
                    then Snap.href (Snap.node c) else None)
       (Snap.pagination (Snap.compact snap))).

(** The body of [for (const href of links)]. *)
Fixpoint followLinksFrom (s : Settings) (env : CycleEnv) (links : list string)
  : Eff () :=
  match links with
  | [] => pure ()
  | h :: rest =>
      let! st := get in
      if negb (shouldContinue s st) then pure ()
      else if isVisited h st then followLinksFrom s env rest
      else
        await (childGoto env h) ;;
        modify (markVisited h) ;;
        let! childSnap := takeSnapshot s (childPage env h) in
        extractAndPush s (childPage env h) childSnap ;;
        followLinksFrom s env rest
  end.

(** Step 3 of the loop body; the answer is [advanced]. *)
Definition paginate (s : Settings) (env : CycleEnv) (snap : Snap.LLMSnapshot)
  : Eff bool :=
  let! st := get in
  match chooseNextPageHref st snap with
  | Some nextHref =>
      await (nextGoto env) ;;
      modify nextPage ;;
      modify (markVisited nextHref) ;;
      pure true
  | None =>
      if schemaPagination s then
        let! hasNext := await (flowHasNext env) in
        if hasNext : bool then
          await (flowGoto env) ;; modify nextPage ;; pure true
        else pure false
      else pure false
  end.

(** The [try] block of one turn of [scrapingLoop]. *)
Definition cycle (s : Settings) (env : CycleEnv) : Eff bool :=
  let! snap := takeSnapshot s (rootPage env) in
  modify (setCurrentUrl (Snap.c_url (Snap.compact snap))) ;;
  extractAndPush s (rootPage env) snap ;;
  (if followLinks s then
     let! st := get in
     followLinksFrom s env (discoverLinksFromSnapshot st snap)
   else pure ()) ;;
  paginate s env snap.

(** What an observer of the loop sees: a turn begins (with the errors
    recorded so far), or the loop waits before the next turn. *)
Inductive Event := CycleBegins (errorsSoFar : nat) | Waits (delayMs : Z).

Record LoopResult := {
  finished : bool;
  final : ScrapingState;
  trace : list Event
}.

Definition attempts (s : Settings) : Z := default 3 (retryAttempts s).
Definition delay (s : Settings) : Z := default 1000 (retryDelay s).

Definition after (evs : list Event) (r : LoopResult) : LoopResult :=
  {| finished := finished r; final := final r; trace := evs ++ trace r |}.

(** [scrapingLoop], one [CycleEnv] for each turn the browser is asked to
    take; [finished] is false when the loop would go on but the script of
    answers has ended. *)
Fixpoint scrapingLoop (s : Settings) (envs : list CycleEnv) (st : ScrapingState)
  : LoopResult :=
  if shouldContinue s st then
    match envs with
    | [] => {| finished := false; final := st; trace := [] |}
    | env :: rest =>
        let begins := CycleBegins (length (errors st)) in
        match cycle s env st with
        | (st', Returns true) => after [begins] (scrapingLoop s rest st')
        | (st', Returns false) =>
            {| finished := true; final := st'; trace := [begins] |}
        | (st', Throws msg) =>
            let st'' := handleError msg st' in
            if attempts s <=? Z.of_nat (length (errors st'')) then
              {| finished := true; final := st''; trace := [begins] |}
            else after [begins; Waits (delay s)] (scrapingLoop s rest st'')
        end
    end
  else {| finished := true; final := st; trace := [] |}.

Record ScrapingResult := {
  resultUrl : string;
  resultData : list Row;
  pageCount : Z;
  itemCount : nat;
  resultErrors : list ScrapingError
}.

Definition buildResult (s : Settings) (st : ScrapingState) : ScrapingResult :=
  {| resultUrl := baseUrl s;
     resultData := data <$> extractedItems st;
     pageCount := currentPage st;
     itemCount := length (extractedItems st);
     resultErrors := errors st |}.

Definition buildStartUrl (s : Settings) : string :=
  baseUrl s +:+ JS.orEmpty (startPath s).

(** [run], from the point where the start page has loaded. *)
Definition run (s : Settings) (envs : list CycleEnv) : LoopResult :=
  scrapingLoop s envs (setCurrentUrl (buildStartUrl s) (initializeState s)).

End Turns.

(** The number of turns in a trace. *)
Fixpoint countCycles (tr : list Event) : nat :=
  match tr with
  | [] => 0
  | CycleBegins _ :: rest => S (countCycles rest)
  | Waits _ :: rest => countCycles rest
  end.

(** By how much a turn moves [currentPage]. *)
Definition pageStep (ans : Answer bool) : Z :=
  match ans with Returns true => 1 | _ => 0 end.

End Engine.

(** ** Concrete pages and runs, used by the examples below *)

Module Samples.
Import Dom Snap.

Definition box (w h : Z) : Rect :=
  {| x := 0; y := 0; width := inject_Z w; height := inject_Z h |}.

Definition el (tag path : string) (r : Rect) (kids : list Element) : Element :=
  {| tagName := tag; classList := []; roleAttr := None; relAttr := None;
     hrefAttr := None; hrefProp := ""; innerText := ""; ariaLabel := None;
     rect := r; cssPath := path; children := kids |}.

(** A card: a [div] with a link and a paragraph. *)
Definition card (path : string) : Element :=
  el "DIV" path (box 300 100)
    [ {| tagName := "A"; classList := []; roleAttr := None; relAttr := None;
         hrefAttr := Some "/item"; hrefProp := "https://x.com/item";
         innerText := "An item"; ariaLabel := None; rect := box 100 20;
         cssPath := path +:+ " > a"; children := [] |};
      el "P" (path +:+ " > p") (box 300 60) [] ].

Definition cards (n : nat) : list Element :=
  (fun i => card ("body > div:nth-of-type(" +:+ JS.decimal (S i) +:+ ")")) <$> seq 0 n.





Definition docOf (kids : list Element) : Element :=
  el "HTML" "html" (box 1000 2000)
    [ el "HEAD" "html > head" (box 0 0) [];
      el "BODY" "html > body" (box 1000 2000) kids ].

Definition frameOf (doc : Element) : Frame :=
  {| document := doc; innerHeight := 1000;
     evalHeadings := ["Title"; "Title"; "Sub"];
     evalClickables := fun _ => [];
     evalForms := fun _ _ => [] |}.

Definition pageOf (doc : Element) : Page :=
  {| mainFrame := frameOf doc; childFrames := []; url := "https://x.com/list";
     title := "List"; evalHints := (0, 0)%Q |}.

Definition control (i : nat) : RawRef :=
  {| selector := "a:nth-of-type(" +:+ JS.decimal i +:+ ")"; role := Some "link";
     name := Some "go"; href := None; visible := Some true; bbox := None |}.

Definition loginForm : FormBlock RawRef :=
  {| form := PageSnapshot.rawRef "form";
     fields := [ {| label := Some "User"; input := PageSnapshot.rawRef "form > input" |} ];
     submit := Some (PageSnapshot.rawRef "form > button") |}.

(** A frame that answers with 8 headings, as many controls as asked for
    and four forms, over a document of ten cards. *)
Definition busyFrame (tag : string) : Frame :=
  {| document := docOf (cards 10); innerHeight := 1000;
     evalHeadings := (fun i => tag +:+ JS.decimal i) <$> seq 0 8;
     evalClickables := fun limit => control <$> seq 0 (Z.to_nat limit);
     evalForms := fun _ _ => replicate 4 loginForm |}.

Definition busyPage : Page :=
  {| mainFrame := busyFrame "m";
     childFrames := [Some (busyFrame "a"); None; Some (busyFrame "b")];
     url := "https://x.com/list"; title := "List"; evalHints := (0, 0)%Q |}.

(** Two controls with unique ids [Aa] and [BB]. *)
Definition idControl (id : string) : RawRef :=
  {| selector := "#" +:+ id; role := Some "button"; name := None; href := None;
     visible := Some true; bbox := None |}.

Definition twinPage : Page :=
  {| mainFrame :=
       {| document := docOf []; innerHeight := 1000; evalHeadings := [];
          evalClickables := fun _ => [idControl "Aa"; idControl "BB"];
          evalForms := fun _ _ => [] |};
     childFrames := []; url := "https://x.com/"; title := "";
     evalHints := (0, 0)%Q |}.

Definition anchor (path text : string) (rel : option string) (hrefA : string)
    (top : Z) : Element :=
  {| tagName := "A"; classList := []; roleAttr := None; relAttr := rel;
     hrefAttr := Some hrefA; hrefProp := "https://x.com" +:+ hrefA;
     innerText := text; ariaLabel := None;
     rect := {| x := 0; y := inject_Z top; width := 80; height := 20 |};
     cssPath := path; children := [] |}.

Definition plainFrame (doc : Element) : Frame :=
  {| document := doc; innerHeight := 1000; evalHeadings := [];
     evalClickables := fun _ => []; evalForms := fun _ _ => [] |}.

Definition plainPage (main : Frame) (kids : list (option Frame)) : Page :=
  {| mainFrame := main; childFrames := kids; url := "https://x.com/";
     title := ""; evalHints := (0, 0)%Q |}.

(** A "Next" link at the bottom of the viewport, followed in the document
    by a [rel=next] link without text at the top. *)
Definition textLink : Element := anchor "#more" "Next" None "/b" 900.
Definition relLink : Element := anchor "#rel" "" (Some "next") "/c" 0.
Definition tiePage : Page := plainPage (plainFrame (docOf [textLink; relLink])) [].

(** Two "more" links at the top of the main frame, and a child frame with
    a [rel=next] link that also says "Next", at the bottom. *)
Definition more1 : Element := anchor "#m1" "more" None "/m1" 0.
Definition more2 : Element := anchor "#m2" "more" None "/m2" 30.
Definition best : Element := anchor "#best" "Next" (Some "next") "/n" 900.
Definition crossPage : Page :=
  plainPage (plainFrame (docOf [more1; more2]))
    [Some (plainFrame (docOf [best]))].

(** A link whose text is the guillemet, low in the viewport, before the
    [rel=next] link at the top and a "more" link. *)
Definition guillemetLink : Element := anchor "#g" Text.raquo None "/g" 900.
Definition guillemetPage : Page :=
  plainPage (plainFrame (docOf [guillemetLink; relLink; more1])) [].

(** The [rel=next] link first in the document, the text link after it. *)
Definition orderedPage : Page :=
  plainPage (plainFrame (docOf [relLink; textLink])) [].

(** *** Rows and runs of the engine *)

Definition row (n : nat) (img : string) : Engine.Row :=
  {| Engine.href := Some ("https://x.com/item/" +:+ JS.decimal n);
     Engine.url := None;
     Engine.title := Some ("Item " +:+ JS.decimal n);
     Engine.snippet := None;
     Engine.image := Some img;
     Engine.tags := None |}.

Definition logo : string := "https://x.com/logo.png".
Definition banner : string := "https://x.com/banner.png".

(** Ten rows: the first five carry the logo, the last five the banner. *)
Definition tenRows : list Engine.Row :=
  ((fun n => row n logo) <$> seq 0 5) ++ ((fun n => row n banner) <$> seq 5 5).

Definition settings (pages items : option Z) : Engine.Settings :=
  {| Engine.baseUrl := "https://x.com"; Engine.maxPages := pages;
     Engine.maxItems := items; Engine.followLinks := false;
     Engine.schemaPagination := false; Engine.retryAttempts := None;
     Engine.retryDelay := None; Engine.startPath := Some "/list";
     Engine.snapshotLimits := DEFAULT_LIMITS;
     Engine.includeSameOriginIframes := true |}.

Definition start (s : Engine.Settings) : Engine.ScrapingState :=
  Engine.setCurrentUrl (Engine.buildStartUrl s) (Engine.initializeState s).

(** A row without a link. *)
Definition textRow : Engine.Row :=
  {| Engine.href := None; Engine.url := None; Engine.title := Some "Hello";
     Engine.snippet := Some "World"; Engine.image := None; Engine.tags := None |}.

Definition pageEnv (page : Page) (schema : option (list Engine.Row))
    (anchors : list Engine.Row) : Engine.PageEnv :=
  {| Engine.snapshotOf := Engine.Returns page;
     Engine.schemaRows := schema;
     Engine.listRows := Engine.Returns [];
     Engine.anchorRows := Engine.Returns anchors |}.

Definition noPage : Engine.PageEnv :=
  {| Engine.snapshotOf := Engine.Throws "no page";
     Engine.schemaRows := None;
     Engine.listRows := Engine.Returns [];
     Engine.anchorRows := Engine.Returns [] |}.

(** A turn on [root] where every navigation succeeds, but for the one to
    the next page when [nextFails]. *)
Definition turn (root : Engine.PageEnv) (nextFails : bool) : Engine.CycleEnv :=
  {| Engine.rootPage := root;
     Engine.childGoto := fun _ => Engine.Returns ();
     Engine.childPage := fun _ => noPage;
     Engine.nextGoto := if nextFails then Engine.Throws "net::ERR" else Engine.Returns ();
     Engine.flowHasNext := Engine.Returns false;
     Engine.flowGoto := Engine.Returns () |}.

Definition lastPage : Page := plainPage (plainFrame (docOf [])) [].

(** Two turns: the schema tier finds [textRow] on a page with a next link,
    and finds it again on the next page, the last. *)
Definition twoTurns : list Engine.CycleEnv :=
  [ turn (pageEnv orderedPage (Some [textRow]) []) false;
    turn (pageEnv lastPage (Some [textRow]) []) false ].

(** A page whose snapshot shows a list of ten cards and whose list tier
    returns ten rows. *)
Definition listPage : Engine.PageEnv :=
  {| Engine.snapshotOf := Engine.Returns (pageOf (docOf (cards 10)));
     Engine.schemaRows := None;
     Engine.listRows := Engine.Returns tenRows;
     Engine.anchorRows := Engine.Returns [] |}.

Definition oneListTurn : list Engine.CycleEnv := [turn listPage false].

(** A page with ten rows for the schema tier, on which the list tier and
    the anchor tier throw. *)
Definition throwingPage : Engine.PageEnv :=
  {| Engine.snapshotOf := Engine.Returns (pageOf (docOf (cards 10)));
     Engine.schemaRows := Some tenRows;
     Engine.listRows := Engine.Throws "list tier";
     Engine.anchorRows := Engine.Throws "anchor tier" |}.

(** The state after the five logo rows have been extracted. *)
Definition fiveDone (s : Engine.Settings) : Engine.ScrapingState :=
  Engine.pushItems ((fun n => row n logo) <$> seq 0 5) (start s).

(** Turns on a page with a next link that cannot be reached. *)
Definition failingTurns (n : nat) : list Engine.CycleEnv :=
  replicate n (turn (pageEnv orderedPage None []) true).

(** With [maxPages = 2]: the first turn fails to reach the next page, the
    second turn, on the same page, reaches it. *)
Definition retriedTurns : list Engine.CycleEnv :=
  [ turn (pageEnv orderedPage None []) true;
    turn (pageEnv orderedPage None []) false ].
End Samples.

(** * Properties *)

(** ** JavaScript primitives *)

Lemma takeZ_take {A} (n : Z) (l : list A) : JS.takeZ n l = take (Z.to_nat n) l.
Proof.
  revert n. induction l as [|a l IH]; intros n; cbn [JS.takeZ].
  - by rewrite take_nil.
  - destruct (Z.leb_spec n 0) as [Hn|Hn].
    + replace (Z.to_nat n) with 0%nat by lia. done.
    + replace (Z.to_nat n) with (S (Z.to_nat (n - 1))) by lia.
      cbn [take]. by rewrite IH.
Qed.

Lemma slice0_take {A} (n : Z) (l : list A) :
  0 ≤ n → JS.slice0 n l = take (Z.to_nat n) l.
Proof.
  intros Hn. unfold JS.slice0.
  destruct (Z.ltb_spec n 0); [lia|]. apply takeZ_take.
Qed.

Lemma slice0_length_le {A} (n : Z) (l : list A) :
  0 ≤ n → Z.of_nat (length (JS.slice0 n l)) ≤ n.
Proof. intros Hn. rewrite slice0_take, length_take by done. lia. Qed.

Lemma slice0_length {A} (n : Z) (l : list A) :
  0 ≤ n → Z.of_nat (length (JS.slice0 n l)) = Z.min n (Z.of_nat (length l)).
Proof. intros Hn. rewrite slice0_take, length_take by done. lia. Qed.

Lemma slice0_prefix {A} (n : Z) (l : list A) : JS.slice0 n l `prefix_of` l.
Proof.
  unfold JS.slice0. destruct (n <? 0); rewrite takeZ_take;
    (eexists; symmetry; apply take_drop).
Qed.

Lemma slice0_elem_of {A} (n : Z) (l : list A) (a : A) :
  a ∈ JS.slice0 n l → a ∈ l.
Proof.
  intros H. destruct (slice0_prefix n l) as [k ->]. apply elem_of_app. by left.
Qed.

(** ** C6: the size caps of the compact snapshot *)

(** C6. Whatever the page contains and however many frames it has, the
    snapshot that [build] assembles under non-negative limits has at most 6
    headings, [maxLists] lists, [maxControls] controls, 2 pagination
    candidates and [maxForms] forms. *)
Theorem build_size_caps (limits : Snap.Limits) (iframes : bool) (p : Snap.Page) :
  0 ≤ Snap.maxLists limits →
  0 ≤ Snap.maxControls limits →
  0 ≤ Snap.maxForms limits →
  let c := Snap.compact (PageSnapshot.build limits iframes p) in
  (length (Snap.headings c) ≤ 6)%nat
  ∧ Z.of_nat (length (Snap.lists c)) ≤ Snap.maxLists limits
  ∧ Z.of_nat (length (Snap.controls c)) ≤ Snap.maxControls limits
  ∧ (length (Snap.pagination c) ≤ 2)%nat
  ∧ Z.of_nat (length (Snap.forms c)) ≤ Snap.maxForms limits.
Proof.
  intros Hl Hc Hf. unfold PageSnapshot.build.
  destruct (PageSnapshot.addFrames _ _ _ _) as [acc m].
  cbv [Snap.compact Snap.headings Snap.lists Snap.controls Snap.pagination Snap.forms].
  repeat split; try (by apply slice0_length_le).
  - apply Nat2Z.inj_le. by apply slice0_length_le.
  - apply Nat2Z.inj_le. by apply slice0_length_le.
Qed.

Lemma build_size_caps_witness :
  let c := Snap.compact (PageSnapshot.build Snap.DEFAULT_LIMITS true Samples.busyPage) in
  (length (Snap.headings c) ≤ 6)%nat
  ∧ Z.of_nat (length (Snap.lists c)) ≤ 2
  ∧ Z.of_nat (length (Snap.controls c)) ≤ 30
  ∧ (length (Snap.pagination c) ≤ 2)%nat
  ∧ Z.of_nat (length (Snap.forms c)) ≤ 3.
Proof.
  apply (build_size_caps Snap.DEFAULT_LIMITS true Samples.busyPage);
    simpl; lia.
Defined.

(** ** C10: the reference map *)

Section RefMap.
Import Snap PageSnapshot.

(** What holds of the reference map with respect to the [NodeRef]s
    registered so far (those that satisfy [P]). *)
Definition Registered (P : NodeRef → Prop) (m : gmap string RefTarget) : Prop :=
  (∀ nr, P nr → is_Some (m !! refId nr))
  ∧ (∀ id t, m !! id = Some t → ∃ nr, P nr ∧ refId nr = id ∧ t = targetOf nr)
  ∧ (∀ nr, P nr → refId nr = idOf nr).

(** A registering computation keeps [Registered], adding the
    [NodeRef]s of its result. *)
Definition Tracks {A} (refs : A → list NodeRef) (c : Reg A) : Prop :=
  ∀ P m, Registered P m →
    Registered (fun nr => P nr ∨ nr ∈ refs (c m).1) (c m).2.

Lemma Registered_ext (P Q : NodeRef → Prop) m :
  (∀ nr, P nr ↔ Q nr) → Registered P m → Registered Q m.
Proof.
  intros E (H1 & H2 & H3). split; [|split].
  - intros nr Hq. apply H1, E, Hq.
  - intros id t Hm. destruct (H2 id t Hm) as (nr & Hp & ? & ?).
    exists nr. split; [by apply E|done].
  - intros nr Hq. apply H3, E, Hq.
Qed.

Lemma addRef_tracks fid r : Tracks (fun nr => [nr]) (addRef fid r).
Proof.
  intros P m (H1 & H2 & H3). unfold addRef. cbn [fst snd].
  set (id := makeRefId fid (selector r) (href r) (name r)).
  set (nr0 := {| refId := id; frameId := fid; node := r |}).
  split; [|split].
  - intros nr [Hp | Hin].
    + destruct (decide (id = refId nr)) as [->|Hne].
      * rewrite lookup_insert_eq. eauto.
      * rewrite lookup_insert_ne; [by apply H1|done].
    + apply list_elem_of_singleton in Hin as ->. cbn. rewrite lookup_insert_eq. eauto.
  - intros i t Hm. destruct (decide (id = i)) as [<-|Hne].
    + rewrite lookup_insert_eq in Hm. injection Hm as <-.
      exists nr0. split; [right; by apply list_elem_of_singleton|done].
    + rewrite lookup_insert_ne in Hm; [|done].
      destruct (H2 i t Hm) as (nr & ? & ? & ?). exists nr. eauto.
  - intros nr [Hp | Hin]; [by apply H3|].
    apply list_elem_of_singleton in Hin as ->. reflexivity.
Qed.

Lemma mapReg_tracks {A B} (refs : B → list NodeRef) (f : A → Reg B) l :
  (∀ a, Tracks refs (f a)) → Tracks (fun bs => bs ≫= refs) (mapReg f l).
Proof.
  intros Hf. induction l as [|a l IH]; intros P m HR.
  - cbn. eapply Registered_ext; [|exact HR].
    intros nr. split; [by left|]. intros [?|Hin]; [done|]. by apply elem_of_nil in Hin.
  - cbn [mapReg]. unfold bind, ret.
    pose proof (Hf a P m HR) as H1.
    destruct (f a m) as [b m1] eqn:E1. cbn [fst snd] in H1.
    pose proof (IH _ m1 H1) as H2.
    destruct (mapReg f l m1) as [bs m2] eqn:E2. cbn [fst snd] in H2 |- *.
    eapply Registered_ext; [|exact H2].
    intros nr. rewrite bind_cons, elem_of_app. tauto.
Qed.

Lemma addList_tracks fid lb : Tracks (fun l => [root l]) (addList fid lb).
Proof.
  intros P m HR. unfold addList, bind, ret.
  pose proof (addRef_tracks fid (root lb) P m HR) as H1.
  destruct (addRef fid (root lb) m) as [r m1]. exact H1.
Qed.

Lemma addField_tracks fid ff : Tracks (fun f => [input f]) (addField fid ff).
Proof.
  intros P m HR. unfold addField, bind, ret.
  pose proof (addRef_tracks fid (input ff) P m HR) as H1.
  destruct (addRef fid (input ff) m) as [r m1]. exact H1.
Qed.

Lemma addSubmit_tracks fid s : Tracks option_list (addSubmit fid s).
Proof.
  intros P m HR. destruct s as [r|]; unfold addSubmit, bind, ret.
  - pose proof (addRef_tracks fid r P m HR) as H1.
    destruct (addRef fid r m) as [n m1]. exact H1.
  - cbn. eapply Registered_ext; [|exact HR].
    intros nr. split; [by left|]. intros [?|Hin]; [done|]. by apply elem_of_nil in Hin.
Qed.

Lemma fields_refs (fs : list (FormField NodeRef)) :
  fs ≫= (fun f => [input f]) = input <$> fs.
Proof. induction fs as [|f fs IH]; [done|]. rewrite bind_cons, fmap_cons, IH. done. Qed.

Lemma addForm_tracks fid fb : Tracks refsOfForm (addForm fid fb).
Proof.
  intros P m HR. unfold addForm, bind, ret.
  pose proof (addRef_tracks fid (form fb) P m HR) as H1.
  destruct (addRef fid (form fb) m) as [f m1]. cbn [fst snd] in H1.
  pose proof (mapReg_tracks _ _ (fields fb) (addField_tracks fid) _ m1 H1) as H2.
  destruct (mapReg (addField fid) (fields fb) m1) as [fs m2]. cbn [fst snd] in H2.
  pose proof (addSubmit_tracks fid (submit fb) _ m2 H2) as H3.
  destruct (addSubmit fid (submit fb) m2) as [s m3]. cbn [fst snd] in H3 |- *.
  eapply Registered_ext; [|exact H3].
  intros nr. unfold refsOfForm. cbn [form fields submit].
  rewrite fields_refs, !elem_of_cons, !elem_of_app, elem_of_nil. tauto.
Qed.

Lemma lists_refs (ls : list (ListBlock NodeRef)) :
  ls ≫= (fun l => [root l]) = root <$> ls.
Proof. induction ls as [|l ls IH]; [done|]. rewrite bind_cons, fmap_cons, IH. done. Qed.

Lemma refs_refs (rs : list NodeRef) : rs ≫= (fun nr => [nr]) = rs.
Proof. induction rs as [|r rs IH]; [done|]. rewrite bind_cons, IH. done. Qed.

Lemma addFrame_registered limits acc ff m :
  Registered (fun nr => nr ∈ accRefs acc) m →
  Registered (fun nr => nr ∈ accRefs (addFrame limits acc ff m).1)
    (addFrame limits acc ff m).2.
Proof.
  intros HR. destruct ff as [f fid]. unfold addFrame, bind, ret.
  pose proof (mapReg_tracks _ _ (evalClickables f (maxControls limits))
                (addRef_tracks fid) _ m HR) as H1.
  destruct (mapReg (addRef fid) _ m) as [cs m1]. cbn [fst snd] in H1.
  pose proof (mapReg_tracks _ _ (getListBlocks f (maxLists limits))
                (addList_tracks fid) _ m1 H1) as H2.
  destruct (mapReg (addList fid) _ m1) as [ls m2]. cbn [fst snd] in H2.
  pose proof (mapReg_tracks _ _ (getPaginationCandidates f)
                (addRef_tracks fid) _ m2 H2) as H3.
  destruct (mapReg (addRef fid) _ m2) as [ps m3]. cbn [fst snd] in H3.
  pose proof (mapReg_tracks _ _ (evalForms f (maxForms limits) (maxFormFields limits))
                (addForm_tracks fid) _ m3 H3) as H4.
  destruct (mapReg (addForm fid) _ m3) as [fs m4]. cbn [fst snd] in H4 |- *.
  eapply Registered_ext; [|exact H4].
  intros nr. unfold accRefs. cbn [a_controls a_lists a_pagination a_forms].
  rewrite refs_refs, lists_refs, refs_refs.
  rewrite !fmap_app, !bind_app, !elem_of_app. tauto.
Qed.

Lemma addFrames_registered limits fs acc m :
  Registered (fun nr => nr ∈ accRefs acc) m →
  Registered (fun nr => nr ∈ accRefs (addFrames limits acc fs m).1)
    (addFrames limits acc fs m).2.
Proof.
  revert acc m. induction fs as [|ff fs IH]; intros acc m HR; [exact HR|].
  cbn [addFrames]. unfold bind.
  pose proof (addFrame_registered limits acc ff m HR) as H1.
  destruct (addFrame limits acc ff m) as [acc1 m1]. cbn [fst snd] in H1.
  by apply IH.
Qed.

Lemma collected_registered limits iframes p :
  Registered (fun nr => nr ∈ accRefs (collected limits iframes p).1)
    (collected limits iframes p).2.
Proof.
  apply addFrames_registered. split; [|split].
  - intros nr Hin. by apply elem_of_nil in Hin.
  - intros id t Hm. by rewrite lookup_empty in Hm.
  - intros nr Hin. by apply elem_of_nil in Hin.
Qed.

Lemma rankPagination_go_elem_of seen cands nr :
  nr ∈ rankPagination_go seen cands → nr ∈ cands.
Proof.
  revert seen. induction cands as [|c cands IH]; intros seen; cbn; [done|].
  case_bool_decide.
  - intros Hin. right. by eapply IH.
  - intros [->|Hin]%elem_of_cons; [left|right; by eapply IH].
Qed.

Lemma bind_elem_of_mono {A B} (f : A → list B) (l k : list A) b :
  (∀ a, a ∈ l → a ∈ k) → b ∈ l ≫= f → b ∈ k ≫= f.
Proof.
  intros Hs (a & Hb & Ha)%list_elem_of_bind.
  apply list_elem_of_bind. exists a. eauto.
Qed.

Lemma compactRefs_collected limits iframes p nr :
  nr ∈ compactRefs (compact (build limits iframes p)) →
  nr ∈ accRefs (collected limits iframes p).1.
Proof.
  unfold build. fold (collected limits iframes p).
  destruct (collected limits iframes p) as [acc m].
  unfold compactRefs, accRefs.
  cbn [compact controls lists pagination forms fst].
  rewrite !elem_of_app. intros [H|[H|[H|H]]].
  - left. by eapply slice0_elem_of.
  - right; left. apply list_elem_of_fmap in H as (lb & -> & H).
    apply list_elem_of_fmap. exists lb. split; [done|]. by eapply slice0_elem_of.
  - right; right; left. apply slice0_elem_of in H.
    by eapply rankPagination_go_elem_of.
  - right; right; right. revert H. apply bind_elem_of_mono.
    intros fb. apply slice0_elem_of.
Qed.

(** *** The order of the registrations *)

(** [refMap[id] = { selector, frameId }] for each of [refs], in order. *)
Definition register (refs : list NodeRef) (m : gmap string RefTarget)
  : gmap string RefTarget :=
  foldl (fun m nr => <[refId nr := targetOf nr]> m) m refs.

Lemma register_app a b m : register (a ++ b) m = register b (register a m).
Proof. unfold register. by rewrite foldl_app. Qed.

(** After a sequence of registrations the entry of an id is that of the
    last [NodeRef] registered under it. *)
Lemma register_lookup refs m id :
  register refs m !! id
  = match last (filter (fun nr => refId nr = id) refs) with
    | Some nr => Some (targetOf nr)
    | None => m !! id
    end.
Proof.
  revert m. induction refs as [|x refs IH]; intros m; [done|].
  cbn [register foldl]. fold (register refs (<[refId x := targetOf x]> m)).
  rewrite IH, filter_cons.
  destruct (decide (refId x = id)) as [E|E].
  - destruct (filter _ refs) as [|y l] eqn:Ef.
    + cbn. rewrite E. by rewrite lookup_insert_eq.
    + rewrite last_cons_cons. destruct (last (y :: l)) eqn:El; [done|].
      by apply last_None in El.
  - destruct (last _); [done|]. by rewrite lookup_insert_ne.
Qed.

(** What the registering functions compute, without the map. *)
Definition listOf (fid : string) (lb : ListBlock RawRef) : ListBlock NodeRef :=
  {| root := nodeRefOf fid (root lb); itemCount := itemCount lb;
     itemLinkSelector := itemLinkSelector lb; samples := samples lb |}.

Definition fieldOf (fid : string) (ff : FormField RawRef) : FormField NodeRef :=
  {| label := label ff; input := nodeRefOf fid (input ff) |}.

Definition formOf (fid : string) (fb : FormBlock RawRef) : FormBlock NodeRef :=
  {| form := nodeRefOf fid (form fb);
     fields := fieldOf fid <$> fields fb;
     submit := nodeRefOf fid <$> submit fb |}.

(** [f] returns [g a] and registers [refs (g a)], in this order. *)
Definition Writes {A B} (g : A → B) (refs : B → list NodeRef) (f : A → Reg B) : Prop :=
  ∀ a m, f a m = (g a, register (refs (g a)) m).

Lemma addRef_writes fid : Writes (nodeRefOf fid) (fun nr => [nr]) (addRef fid).
Proof. intros r m. reflexivity. Qed.

Lemma mapReg_writes {A B} (g : A → B) refs (f : A → Reg B) :
  Writes g refs f → Writes (fmap g) (fun bs => bs ≫= refs) (mapReg f).
Proof.
  intros Hf l. induction l as [|a l IH]; intros m; [done|].
  cbn [mapReg]. unfold bind, ret. rewrite Hf, IH.
  by rewrite fmap_cons, bind_cons, register_app.
Qed.

Lemma addList_writes fid : Writes (listOf fid) (fun l => [root l]) (addList fid).
Proof. intros lb m. reflexivity. Qed.

Lemma addField_writes fid : Writes (fieldOf fid) (fun f => [input f]) (addField fid).
Proof. intros ff m. reflexivity. Qed.

Lemma addSubmit_writes fid : Writes (fmap (nodeRefOf fid)) option_list (addSubmit fid).
Proof. intros [r|] m; reflexivity. Qed.

Lemma addForm_writes fid : Writes (formOf fid) refsOfForm (addForm fid).
Proof.
  intros fb m. unfold addForm, bind, ret.
  rewrite addRef_writes, (mapReg_writes _ _ _ (addField_writes fid)), addSubmit_writes.
  unfold refsOfForm, formOf. cbn [form fields submit].
  rewrite fields_refs.
  change (nodeRefOf fid (form fb) :: ?l) with ([nodeRefOf fid (form fb)] ++ l).
  by rewrite !register_app.
Qed.

(** What one frame adds to the accumulators. *)
Definition frameAcc (limits : Limits) (ff : Frame * string) : Acc :=
  (addFrame limits emptyAcc ff ∅).1.

Definition appAcc (a b : Acc) : Acc :=
  {| a_headings := a_headings a ++ a_headings b;
     a_controls := a_controls a ++ a_controls b;
     a_lists := a_lists a ++ a_lists b;
     a_pagination := a_pagination a ++ a_pagination b;
     a_forms := a_forms a ++ a_forms b |}.

Lemma addFrame_writes limits acc ff m :
  addFrame limits acc ff m
  = (appAcc acc (frameAcc limits ff), register (frameRegistrations limits ff) m).
Proof.
  destruct ff as [f fid]. unfold frameRegistrations, frameAcc, addFrame, bind, ret.
  rewrite !(mapReg_writes _ _ _ (addRef_writes fid)).
  rewrite !(mapReg_writes _ _ _ (addList_writes fid)).
  rewrite !(mapReg_writes _ _ _ (addRef_writes fid)).
  rewrite !(mapReg_writes _ _ _ (addForm_writes fid)).
  unfold appAcc, accRefs, emptyAcc.
  cbn [fst a_headings a_controls a_lists a_pagination a_forms app].
  by rewrite !register_app, !refs_refs, lists_refs.
Qed.

Lemma addFrames_writes limits fs acc m :
  addFrames limits acc fs m
  = (foldl appAcc acc (frameAcc limits <$> fs),
     register (fs ≫= frameRegistrations limits) m).
Proof.
  revert acc m. induction fs as [|ff fs IH]; intros acc m; [done|].
  cbn [addFrames]. unfold bind. rewrite addFrame_writes, IH.
  by rewrite fmap_cons, bind_cons, register_app.
Qed.

Lemma accRefs_appAcc a b nr :
  nr ∈ accRefs (appAcc a b) ↔ nr ∈ accRefs a ∨ nr ∈ accRefs b.
Proof.
  unfold accRefs, appAcc. cbn [a_controls a_lists a_pagination a_forms].
  rewrite fmap_app, bind_app, !elem_of_app. tauto.
Qed.

Lemma accRefs_foldl accs acc nr :
  nr ∈ accRefs (foldl appAcc acc accs)
  ↔ nr ∈ accRefs acc ∨ ∃ a, a ∈ accs ∧ nr ∈ accRefs a.
Proof.
  revert acc. induction accs as [|a accs IH]; intros acc; cbn [foldl].
  - split; [by left|]. intros [?|(a & Ha & _)]; [done|]. by apply elem_of_nil in Ha.
  - rewrite IH, accRefs_appAcc. split.
    + intros [[?|?]|(a' & Ha' & ?)]; [by left|right; exists a; split; [left|done]|].
      right. exists a'. split; [by right|done].
    + intros [?|(a' & [->|Ha']%elem_of_cons & ?)]; [by left; left|by left; right|].
      right. by exists a'.
Qed.

(** The reference map of a snapshot: the registrations, in order, on an
    empty map. *)
Lemma build_refMap limits iframes p :
  refMap (build limits iframes p) = register (registrations limits iframes p) ∅.
Proof.
  unfold build, registrations. rewrite addFrames_writes. reflexivity.
Qed.

Lemma compactRefs_registrations limits iframes p nr :
  nr ∈ compactRefs (compact (build limits iframes p)) →
  nr ∈ registrations limits iframes p.
Proof.
  intros Hin%compactRefs_collected. unfold collected in Hin.
  rewrite addFrames_writes in Hin. cbn [fst] in Hin.
  apply accRefs_foldl in Hin as [Hin|(a & Ha & Hin)].
  - by apply elem_of_nil in Hin.
  - apply list_elem_of_fmap in Ha as (ff & -> & Hff).
    unfold registrations. apply list_elem_of_bind. exists ff. done.
Qed.
End RefMap.

(** C10, as the claim states it, fails: two controls of one frame whose
    selectors [#Aa] and [#BB] hash alike receive the same [refId], and the
    reference map keeps the selector of the one registered last, [#BB]. *)
Lemma refMap_exact_counterexample :
  let snap := PageSnapshot.build Snap.DEFAULT_LIMITS true Samples.twinPage in
  ∃ nr, nr ∈ PageSnapshot.compactRefs (Snap.compact snap)
        ∧ Snap.refMap snap !! Snap.refId nr ≠ Some (PageSnapshot.targetOf nr)
        ∧ Snap.refMap snap !! Snap.refId nr
          = Some {| Snap.t_selector := "#BB"; Snap.t_frameId := "main" |}.
Proof.
  exists {| Snap.refId := "rmain-pu8yg0"; Snap.frameId := "main";
            Snap.node := Samples.idControl "Aa" |}.
  split; [|split].
  - apply list_elem_of_In. vm_compute. left. reflexivity.
  - vm_compute. intros H. discriminate H.
  - vm_compute. reflexivity.
Qed.

(** C10 (amended). For every snapshot [build] produces and every [NodeRef]
    of its compact summary (controls, list roots, pagination candidates,
    forms, form-field inputs, submit controls): its [refId] is the value of
    [makeRefId] at its (frameId, selector, href, name), so equal tuples
    receive equal ids; it is one of the [NodeRef]s registered by [addRef];
    the entry of [refMap] under any id is the selector and frame of the
    [NodeRef] registered last under that id, so the [refId] is a key of
    [refMap]; and its entry is this [NodeRef]'s own selector and frame
    whenever every [NodeRef] registered under the same id has the same
    selector and frame. *)
Theorem refMap_registered (limits : Snap.Limits) (iframes : bool) (p : Snap.Page)
    (nr : Snap.NodeRef) :
  let snap := PageSnapshot.build limits iframes p in
  let registered := PageSnapshot.registrations limits iframes p in
  nr ∈ PageSnapshot.compactRefs (Snap.compact snap) →
  Snap.refId nr
    = PageSnapshot.makeRefId (Snap.frameId nr) (Snap.selector (Snap.node nr))
        (Snap.href (Snap.node nr)) (Snap.name (Snap.node nr))
  ∧ nr ∈ registered
  ∧ (∀ id, Snap.refMap snap !! id
           = PageSnapshot.targetOf
               <$> last (filter (fun nr' => Snap.refId nr' = id) registered))
  ∧ (∃ nr', last (filter (fun nr' => Snap.refId nr' = Snap.refId nr) registered)
            = Some nr'
            ∧ nr' ∈ registered ∧ Snap.refId nr' = Snap.refId nr
            ∧ Snap.refMap snap !! Snap.refId nr = Some (PageSnapshot.targetOf nr'))
  ∧ ((∀ nr', nr' ∈ registered → Snap.refId nr' = Snap.refId nr →
             PageSnapshot.targetOf nr' = PageSnapshot.targetOf nr) →
     Snap.refMap snap !! Snap.refId nr = Some (PageSnapshot.targetOf nr)).
Proof.
  intros snap registered Hin.
  pose proof (compactRefs_registrations limits iframes p nr Hin) as Hreg.
  fold registered in Hreg.
  assert (∀ id, Snap.refMap snap !! id
                = PageSnapshot.targetOf
                    <$> last (filter (fun nr' => Snap.refId nr' = id) registered))
    as Hlast.
  { intros id. unfold snap. rewrite build_refMap, register_lookup.
    fold registered. destruct (last _); [done|]. by rewrite lookup_empty. }
  assert (∃ nr', last (filter (fun nr' => Snap.refId nr' = Snap.refId nr) registered)
                 = Some nr') as [nr' Hnr'].
  { apply last_is_Some. intros E.
    assert (nr ∈ filter (fun nr' => Snap.refId nr' = Snap.refId nr) registered) as H
      by (by apply list_elem_of_filter).
    rewrite E in H. by apply elem_of_nil in H. }
  pose proof (last_Some_elem_of _ _ Hnr') as [Hid Hin']%list_elem_of_filter.
  split.
  { apply compactRefs_collected in Hin.
    destruct (collected_registered limits iframes p) as (_ & _ & H3). by apply H3. }
  split; [exact Hreg|]. split; [exact Hlast|]. split.
  - exists nr'. rewrite Hlast, Hnr'. done.
  - intros Hsame. rewrite Hlast, Hnr'. cbn. f_equal. by apply Hsame.
Qed.

Lemma refMap_registered_witness :
  let snap := PageSnapshot.build Snap.DEFAULT_LIMITS true Samples.busyPage in
  let nr := {| Snap.refId := "rmain-rlgtq8"; Snap.frameId := "main";
               Snap.node := Samples.control 0 |} in
  nr ∈ PageSnapshot.compactRefs (Snap.compact snap)
  ∧ is_Some (Snap.refMap snap !! Snap.refId nr).
Proof.
  intros snap nr.
  assert (nr ∈ PageSnapshot.compactRefs (Snap.compact snap)) as Hin.
  { apply list_elem_of_In. vm_compute. left. reflexivity. }
  split; [exact Hin|].
  destruct (refMap_registered Snap.DEFAULT_LIMITS true Samples.busyPage nr Hin)
    as (_ & _ & _ & (nr' & _ & _ & _ & Hm) & _).
  exists (PageSnapshot.targetOf nr'). exact Hm.
Defined.

(** ** Sorting *)

Lemma insertDesc_perm {A} (key : A → Z) x l : JS.insertDesc key x l ≡ₚ x :: l.
Proof.
  induction l as [|y l IH]; cbn; [done|].
  destruct (key x <? key y); [|done].
  rewrite IH. apply Permutation_swap.
Qed.

Lemma sortDesc_perm {A} (key : A → Z) l : JS.sortDesc key l ≡ₚ l.
Proof.
  induction l as [|x l IH]; cbn; [done|].
  fold (JS.sortDesc key l). by rewrite insertDesc_perm, IH.
Qed.

Lemma sortDesc_elem_of {A} (key : A → Z) l x : x ∈ JS.sortDesc key l ↔ x ∈ l.
Proof. by rewrite sortDesc_perm. Qed.

Lemma insertDesc_sorted {A} (key : A → Z) x l :
  StronglySorted (fun a b => key b ≤ key a) l →
  StronglySorted (fun a b => key b ≤ key a) (JS.insertDesc key x l).
Proof.
  induction 1 as [|y l Hs IH Hall]; cbn.
  - by repeat constructor.
  - destruct (Z.ltb_spec (key x) (key y)) as [Hlt|Hge].
    + constructor; [exact IH|].
      rewrite insertDesc_perm. constructor; [lia|exact Hall].
    + constructor; [by constructor|].
      constructor; [lia|].
      eapply Forall_impl; [exact Hall|]. cbn. intros z Hz. lia.
Qed.

Lemma sortDesc_sorted {A} (key : A → Z) l :
  StronglySorted (fun a b => key b ≤ key a) (JS.sortDesc key l).
Proof.
  induction l as [|x l IH]; cbn; [constructor|].
  by apply insertDesc_sorted.
Qed.

Lemma insertDesc_stable {A} (key : A → Z) (v : Z) x l :
  filter (fun a => key a = v) (JS.insertDesc key x l)
  = filter (fun a => key a = v) (x :: l).
Proof.
  induction l as [|y l IH]; cbn [JS.insertDesc]; [done|].
  destruct (Z.ltb_spec (key x) (key y)) as [Hlt|Hge]; [|done].
  rewrite (filter_cons _ y), IH, !(filter_cons _ x), (filter_cons _ y).
  destruct (decide (key y = v)) as [Hy|Hy]; [|done].
  destruct (decide (key x = v)) as [Hx|Hx]; [lia|done].
Qed.

(** Stability: among the elements of one key the order is kept. *)
Lemma sortDesc_stable {A} (key : A → Z) (v : Z) l :
  filter (fun a => key a = v) (JS.sortDesc key l) = filter (fun a => key a = v) l.
Proof.
  induction l as [|x l IH]; cbn [JS.sortDesc foldr]; [done|].
  fold (JS.sortDesc key l).
  by rewrite insertDesc_stable, !filter_cons, IH.
Qed.

(** ** C4: list detection *)

Section ListDetection.
Import Dom Snap PageSnapshot.

Definition groupTotal (groups : list (Sig * list Element)) : nat :=
  sum_list (length <$> groups.*2).

Lemma groupPush_total s k groups :
  groupTotal (groupPush s k groups) = S (groupTotal groups).
Proof.
  unfold groupTotal. induction groups as [|[s' arr] groups IH]; cbn; [done|].
  case_decide; cbn.
  - rewrite length_app. cbn. lia.
  - rewrite IH. lia.
Qed.

Lemma groupsOf_total_from groups kids :
  groupTotal (foldl (fun g k => groupPush (signature k) k g) groups kids)
  = (groupTotal groups + length kids)%nat.
Proof.
  revert groups. induction kids as [|k kids IH]; intros groups;
    cbn [foldl length]; [lia|].
  rewrite IH, groupPush_total. lia.
Qed.

Lemma group_length_le groups g :
  g ∈ groups → (length g.2 ≤ groupTotal groups)%nat.
Proof.
  unfold groupTotal. induction groups as [|h groups IH]; [by intros ?%elem_of_nil|].
  rewrite !fmap_cons. cbn [sum_list_with]. unfold id at 1.
  intros [->|Hin]%elem_of_cons; [lia|]. specialize (IH Hin). lia.
Qed.

Lemma groupsOf_length_le kids g :
  g ∈ groupsOf kids → (length g.2 ≤ length kids)%nat.
Proof.
  intros Hin. apply group_length_le in Hin.
  unfold groupsOf in Hin. rewrite groupsOf_total_from in Hin. exact Hin.
Qed.

Lemma blockOfGroup_Some arr lb :
  blockOfGroup arr = Some lb →
  ∃ first rest, arr = first :: rest
    ∧ (MIN_REPEAT ≤ length arr)%nat
    ∧ itemCount lb = Z.of_nat (length arr)
    ∧ selector (root lb) = cssPath first
    ∧ (MIN_AREA <= area first)%Q.
Proof.
  unfold blockOfGroup. destruct arr as [|first rest]; [done|].
  destruct (Nat.leb_spec MIN_REPEAT (length (first :: rest))) as [Hn|]; [|done].
  destruct (Qlt_le_dec (area first) MIN_AREA) as [|Ha]; [done|].
  intros [= <-]. exists first, rest. done.
Qed.

Lemma getListBlocks_elem_of f n lb :
  lb ∈ getListBlocks f n →
  ∃ c g, c ∈ containers (document f) ∧ g ∈ groupsOf (children c)
         ∧ blockOfGroup g.2 = Some lb.
Proof.
  unfold getListBlocks, listResults.
  intros Hin%slice0_elem_of%sortDesc_elem_of.
  apply list_elem_of_bind in Hin as (c & Hlb & Hc).
  apply list_elem_of_omap in Hlb as (g & Hg & Hb).
  exists c, g. done.
Qed.

Lemma omap_all_None {A B} (f : A → option B) l :
  (∀ a, a ∈ l → f a = None) → omap f l = [].
Proof.
  induction l as [|a l IH]; intros H; [done|]. cbn.
  rewrite (H a) by left. apply IH. intros b Hb. apply H. by right.
Qed.

Lemma blocksOfContainer_few c :
  (length (children c) < MIN_REPEAT)%nat → blocksOfContainer c = [].
Proof.
  intros Hlen. apply omap_all_None. intros g Hg.
  apply groupsOf_length_le in Hg.
  unfold blockOfGroup. destruct g.2 as [|first rest] eqn:E; [done|].
  destruct (Nat.leb_spec MIN_REPEAT (length (first :: rest))); [lia|done].
Qed.


Lemma groupsOf_same_from s arr kids :
  (∀ k, k ∈ kids → signature k = s) →
  foldl (fun g k => groupPush (signature k) k g) [(s, arr)] kids
  = [(s, arr ++ kids)].
Proof.
  revert arr. induction kids as [|k kids IH]; intros arr H; cbn [foldl].
  - by rewrite app_nil_r.
  - rewrite (H k) by left. cbn [groupPush]. rewrite decide_True by done.
    rewrite IH by (intros; apply H; by right).
    by rewrite <- app_assoc.
Qed.

Lemma groupsOf_same s k kids :
  (∀ k', k' ∈ k :: kids → signature k' = s) →
  groupsOf (k :: kids) = [(s, k :: kids)].
Proof.
  intros H. unfold groupsOf. cbn [foldl groupPush].
  rewrite (H k) by left.
  apply (groupsOf_same_from s [k] kids). intros; apply H; by right.
Qed.

Lemma structurallyIdentical_signature kids :
  structurallyIdentical kids → ∃ s, ∀ k, k ∈ kids → signature k = s.
Proof.
  intros (tag & kidTags & H). exists (length kidTags, take 6 kidTags).
  intros k Hk. destruct (H k Hk) as [_ <-].
  unfold signature. by rewrite length_fmap, fmap_take.
Qed.

(** *** Groups and signatures *)

Definition Grouped (groups : list (Sig * list Element)) (kids : list Element) : Prop :=
  NoDup groups.*1
  ∧ (∀ s arr, (s, arr) ∈ groups →
              arr ≠ [] ∧ arr = filter (fun k => signature k = s) kids)
  ∧ (∀ k, k ∈ kids → signature k ∈ groups.*1).

Lemma groupPush_keys s k groups :
  (groupPush s k groups).*1
  = if decide (s ∈ groups.*1) then groups.*1 else groups.*1 ++ [s].
Proof.
  induction groups as [|[s0 arr] groups IH]; cbn [groupPush].
  - rewrite decide_False by (by intros ?%elem_of_nil). done.
  - destruct (decide (s = s0)) as [->|Hne].
    + rewrite decide_True by (cbn; left). done.
    + rewrite !fmap_cons, IH. cbn [fst].
      destruct (decide (s ∈ groups.*1)) as [Hin|Hin].
      * rewrite decide_True by (by right). done.
      * rewrite decide_False; [done|]. intros [?|?]%elem_of_cons; done.
Qed.

Lemma groupPush_elem_of s0 k groups s arr :
  NoDup groups.*1 →
  (s, arr) ∈ groupPush s0 k groups →
  (s ≠ s0 ∧ (s, arr) ∈ groups)
  ∨ (s = s0 ∧ ((∃ arr0, (s0, arr0) ∈ groups ∧ arr = arr0 ++ [k])
               ∨ ((s0 ∉ groups.*1) ∧ arr = [k]))).
Proof.
  induction groups as [|[s1 arr1] groups IH]; cbn [groupPush].
  - intros _ [= -> ->]%list_elem_of_singleton. right. split; [done|]. right.
    split; [by intros ?%elem_of_nil|done].
  - rewrite fmap_cons. cbn [fst]. intros [Hs1 Hnd]%NoDup_cons.
    destruct (decide (s0 = s1)) as [->|Hne].
    + intros [[= -> ->]|Hin]%elem_of_cons.
      * right. split; [done|]. left. exists arr1. split; [left|done].
      * left. split; [|by right]. intros ->. apply Hs1.
        apply list_elem_of_fmap. by exists (s1, arr).
    + intros [[= -> ->]|Hin]%elem_of_cons.
      * left. split; [done|left].
      * destruct (IH Hnd Hin) as [[? ?]|[-> [(a0 & ? & ->)|[? ->]]]].
        -- left. split; [done|by right].
        -- right. split; [done|]. left. exists a0. split; [by right|done].
        -- right. split; [done|]. right. split; [|done].
           intros [?|?]%elem_of_cons; done.
Qed.

Lemma Grouped_step groups kids k :
  Grouped groups kids → Grouped (groupPush (signature k) k groups) (kids ++ [k]).
Proof.
  intros (Hnd & Hval & Hcov). split; [|split].
  - rewrite groupPush_keys. destruct (decide (signature k ∈ groups.*1)); [done|].
    apply NoDup_app. split; [done|]. split; [|apply NoDup_singleton].
    intros s Hs ->%list_elem_of_singleton. done.
  - intros s arr Hin. rewrite filter_app, filter_cons, filter_nil.
    apply (groupPush_elem_of _ _ _ _ _ Hnd) in Hin
      as [[Hs Hin]|[-> [(arr0 & Hin & ->)|[Hnew ->]]]].
    + destruct (Hval s arr Hin) as [? ->]. split; [done|].
      rewrite decide_False by done. by rewrite app_nil_r.
    + destruct (Hval _ arr0 Hin) as [? ->]. split; [by destruct (filter _ kids)|].
      by rewrite decide_True.
    + split; [done|]. rewrite decide_True by done.
      destruct (filter (fun k0 => signature k0 = signature k) kids) as [|k1 l] eqn:E;
        [done|].
      exfalso. apply Hnew.
      assert (k1 ∈ filter (fun k0 => signature k0 = signature k) kids) as Hk1
        by (rewrite E; left).
      apply list_elem_of_filter in Hk1 as [<- Hk1]. by apply Hcov.
  - intros k0 [Hk0| ->%list_elem_of_singleton]%elem_of_app; rewrite groupPush_keys.
    + specialize (Hcov k0 Hk0).
      destruct (decide (signature k ∈ groups.*1)); [done|]. apply elem_of_app. by left.
    + destruct (decide (signature k ∈ groups.*1)); [done|]. apply elem_of_app.
      right. left.
Qed.

Lemma Grouped_foldl kids groups done :
  Grouped groups done →
  Grouped (foldl (fun g k => groupPush (signature k) k g) groups kids) (done ++ kids).
Proof.
  revert groups done. induction kids as [|k kids IH]; intros groups done H.
  - by rewrite app_nil_r.
  - cbn [foldl]. replace (done ++ k :: kids) with ((done ++ [k]) ++ kids)
      by (by rewrite <- app_assoc).
    by apply IH, Grouped_step.
Qed.

Lemma groupsOf_Grouped kids : Grouped (groupsOf kids) kids.
Proof.
  apply (Grouped_foldl kids [] []). split; [constructor|]. split.
  - intros s arr Hin. by apply elem_of_nil in Hin.
  - intros k Hk. by apply elem_of_nil in Hk.
Qed.

(** A group is the non-empty list of the children of one signature. *)
Lemma groupsOf_elem_of kids s arr :
  (s, arr) ∈ groupsOf kids
  ↔ arr ≠ [] ∧ arr = filter (fun k => signature k = s) kids.
Proof.
  destruct (groupsOf_Grouped kids) as (Hnd & Hval & Hcov).
  split; [apply Hval|]. intros [Hne ->].
  destruct (filter (fun k => signature k = s) kids) as [|k l] eqn:E; [done|].
  assert (k ∈ filter (fun k => signature k = s) kids) as Hk by (rewrite E; left).
  apply list_elem_of_filter in Hk as [<- Hk].
  specialize (Hcov k Hk). apply list_elem_of_fmap in Hcov as ([s' arr'] & Hs & Hin).
  cbn [fst] in Hs. subst s'. destruct (Hval _ _ Hin) as [_ Harr].
  rewrite E in Harr. by subst arr'.
Qed.






End ListDetection.




(** ** C5: pagination candidates *)

Section Pagination.
Import Dom Snap PageSnapshot.

Lemma mapReg_addRef_fst fid l m :
  (mapReg (addRef fid) l m).1 = nodeRefOf fid <$> l.
Proof.
  revert m. induction l as [|r l IH]; intros m; [done|].
  cbn [mapReg]. unfold bind, ret, addRef at 1.
  specialize (IH (<[makeRefId fid (selector r) (href r) (name r) :=
                     {| t_selector := selector r; t_frameId := fid |}]> m)).
  destruct (mapReg (addRef fid) l _) as [bs m2]. cbn [fst] in IH |- *.
  by rewrite IH.
Qed.

Lemma addFrame_pagination limits acc ff m :
  a_pagination (addFrame limits acc ff m).1
  = a_pagination acc ++ (nodeRefOf ff.2 <$> getPaginationCandidates ff.1).
Proof.
  destruct ff as [f fid]. unfold addFrame, bind, ret.
  destruct (mapReg (addRef fid) (evalClickables f _) m) as [cs m1].
  destruct (mapReg (addList fid) _ m1) as [ls m2].
  pose proof (mapReg_addRef_fst fid (getPaginationCandidates f) m2) as Hps.
  destruct (mapReg (addRef fid) (getPaginationCandidates f) m2) as [ps m3].
  destruct (mapReg (addForm fid) _ m3) as [fs m4].
  cbn [fst snd a_pagination] in *. by rewrite Hps.
Qed.

Lemma addFrames_pagination limits fs acc m :
  a_pagination (addFrames limits acc fs m).1
  = a_pagination acc
      ++ (fs ≫= (fun ff => nodeRefOf ff.2 <$> getPaginationCandidates ff.1)).
Proof.
  revert acc m. induction fs as [|ff fs IH]; intros acc m.
  - cbn. by rewrite app_nil_r.
  - cbn [addFrames]. unfold bind.
    pose proof (addFrame_pagination limits acc ff m) as H1.
    destruct (addFrame limits acc ff m) as [acc1 m1]. cbn [fst] in H1.
    rewrite IH, H1, bind_cons. by rewrite <- app_assoc.
Qed.

(** The pagination list of a snapshot: the candidates of all frames,
    de-duplicated, the first two. *)
Lemma build_pagination limits iframes p :
  pagination (compact (build limits iframes p))
  = JS.slice0 2 (rankPagination (allCandidates iframes p)).
Proof.
  unfold build.
  pose proof (addFrames_pagination limits (collectFrames iframes p) emptyAcc ∅) as H.
  destruct (addFrames limits emptyAcc (collectFrames iframes p) ∅) as [acc m].
  cbn [fst] in H. cbn [compact pagination]. by rewrite H.
Qed.

Lemma rankPagination_go_keys seen cands :
  NoDup (paginationKey <$> rankPagination_go seen cands)
  ∧ (∀ c, c ∈ rankPagination_go seen cands → paginationKey c ∉ seen)
  ∧ (∀ c, c ∈ cands → paginationKey c ∉ seen →
          ∃ c', c' ∈ rankPagination_go seen cands
                ∧ paginationKey c' = paginationKey c).
Proof.
  revert seen. induction cands as [|c cands IH]; intros seen; cbn [rankPagination_go].
  - split; [constructor|]. split; intros c; by intros ?%elem_of_nil.
  - case_bool_decide as Hseen.
    + destruct (IH seen) as (Hnd & Hfresh & Hcover). split; [exact Hnd|].
      split; [exact Hfresh|].
      intros c0 [->|Hin]%elem_of_cons Hk; [done|]. by apply Hcover.
    + destruct (IH (paginationKey c :: seen)) as (Hnd & Hfresh & Hcover).
      split; [|split].
      * rewrite fmap_cons. constructor; [|exact Hnd].
        intros (c' & Hk & Hin)%list_elem_of_fmap.
        apply (Hfresh c' Hin). rewrite <- Hk. left.
      * intros c0 [->|Hin]%elem_of_cons; [done|].
        intros Hs. apply (Hfresh c0 Hin). by right.
      * intros c0 [->|Hin]%elem_of_cons Hk.
        -- exists c. split; [left|done].
        -- destruct (decide (paginationKey c0 = paginationKey c)) as [E|E].
           ++ exists c. split; [left|done].
           ++ destruct (Hcover c0 Hin) as (c' & Hin' & Hk').
              { intros [?|?]%elem_of_cons; done. }
              exists c'. split; [by right|done].
Qed.

Lemma rankPagination_go_sublist seen cands :
  rankPagination_go seen cands `sublist_of` cands.
Proof.
  revert seen. induction cands as [|c cands IH]; intros seen; cbn; [done|].
  case_bool_decide; [by apply sublist_cons|by apply sublist_skip].
Qed.

Lemma score_relNext vh a :
  relNext a = true → 3 + b2z (nearBottom vh a) 1 ≤ score vh a.
Proof.
  intros H. unfold score. rewrite H. cbn [b2z].
  destruct (nextText a), (pageParam a); cbn [b2z]; lia.
Qed.

Lemma score_textOnly vh b :
  relNext b = false → nextText b = true → pageParam b = false →
  score vh b = 2 + b2z (nearBottom vh b) 1.
Proof. intros H1 H2 H3. unfold score. rewrite H1, H2, H3. cbn [b2z]. lia. Qed.

(** A [rel=next] anchor and a text-only anchor alone in a single-frame
    page: which comes first. *)
Lemma relNext_first limits iframes p a b :
  childFrames p = [] →
  scanned (mainFrame p) = [a; b] ∨ scanned (mainFrame p) = [b; a] →
  relNext a = true →
  relNext b = false → nextText b = true → pageParam b = false →
  (nearBottom (innerHeight (mainFrame p)) b = true →
   nearBottom (innerHeight (mainFrame p)) a = true)
  ∨ scanned (mainFrame p) = [a; b] →
  head (pagination (compact (build limits iframes p)))
  = Some (nodeRefOf "main" (candidateRef a)).
Proof.
  intros Hframes Hscan Ha Hb1 Hb2 Hb3 Hpos.
  set (vh := innerHeight (mainFrame p)) in *.
  pose proof (score_relNext vh a Ha) as Hsa.
  pose proof (score_textOnly vh b Hb1 Hb2 Hb3) as Hsb.
  assert (rankedAnchors (mainFrame p) = [a; b]) as Hranked.
  { unfold rankedAnchors. fold vh.
    destruct Hpos as [Hpos|Hab].
    - assert (score vh b < score vh a) as Hlt.
      { destruct (nearBottom vh b); [rewrite Hpos in Hsa by done|];
          cbn [b2z] in *; [lia|]. destruct (nearBottom vh a); cbn [b2z] in *; lia. }
      destruct Hscan as [->| ->]; cbn [JS.sortDesc foldr JS.insertDesc].
      + destruct (Z.ltb_spec (score vh a) (score vh b)); [lia|done].
      + destruct (Z.ltb_spec (score vh b) (score vh a)); [done|lia].
    - rewrite Hab. cbn [JS.sortDesc foldr JS.insertDesc].
      assert (score vh b ≤ score vh a) as Hle.
      { destruct (nearBottom vh b), (nearBottom vh a); cbn [b2z] in *; lia. }
      destruct (Z.ltb_spec (score vh a) (score vh b)); [lia|done]. }
  rewrite build_pagination. unfold allCandidates, collectFrames.
  rewrite Hframes. cbn [collectChildren].
  replace (if iframes then [] else []) with (@nil (Frame * string))
    by (by destruct iframes).
  rewrite bind_cons. cbn [fst snd]. unfold getPaginationCandidates.
  rewrite Hranked. cbn [fmap list_fmap mbind list_bind app].
  unfold rankPagination. cbn [rankPagination_go].
  rewrite bool_decide_eq_false_2 by (by intros ?%elem_of_nil).
  reflexivity.
Qed.
End Pagination.

(** C5, as the claim states it, fails twice. In [tiePage] a "Next" link
    low in the viewport and a later [rel=next] link at the top both score 3,
    and the stable sort keeps the text link first. In [crossPage] the list
    keeps the two candidates of the main frame, of score 2, and not the
    candidate of score 6 of the child frame: the frames' lists are
    concatenated, not merged by score. *)
Lemma pagination_top2_counterexample :
  (PageSnapshot.relNext Samples.relLink = true
   ∧ PageSnapshot.relNext Samples.textLink = false
   ∧ PageSnapshot.pageParam Samples.textLink = false
   ∧ (Snap.selector ∘ Snap.node)
       <$> Snap.pagination
             (Snap.compact (PageSnapshot.build Snap.DEFAULT_LIMITS true Samples.tiePage))
     = [Dom.cssPath Samples.textLink; Dom.cssPath Samples.relLink])
  ∧ (PageSnapshot.score 1000 Samples.more1 < PageSnapshot.score 1000 Samples.best
     ∧ PageSnapshot.score 1000 Samples.more2 < PageSnapshot.score 1000 Samples.best
     ∧ PageSnapshot.nodeRefOf "f1" (PageSnapshot.candidateRef Samples.best)
         ∈ PageSnapshot.allCandidates true Samples.crossPage
     ∧ (Snap.selector ∘ Snap.node)
         <$> Snap.pagination
               (Snap.compact (PageSnapshot.build Snap.DEFAULT_LIMITS true Samples.crossPage))
       = [Dom.cssPath Samples.more1; Dom.cssPath Samples.more2]).
Proof.
  split.
  - repeat split; vm_compute; reflexivity.
  - split; [vm_compute; reflexivity|]. split; [vm_compute; reflexivity|].
    split; [|vm_compute; reflexivity].
    apply list_elem_of_In. vm_compute. right. right. left. reflexivity.
Qed.

(** C5 (amended). A candidate's score is the sum of 3 for [rel=next], 2 for
    next-like text, 2 for a page, p, offset or start query parameter and 1
    for a bottom edge below 60% of the viewport height. Within a frame the
    candidates are ordered by descending score, candidates of equal score
    in document scan order, and at most the first four are kept. The
    snapshot's pagination list is made of the frames' lists, concatenated in
    frame discovery order and de-duplicated by the key
    [href|selector|frameId] (the first of each key is kept, in order), cut
    to its first two entries. In a single-frame page whose only candidates
    are a [rel=next] anchor and an anchor with only next-like text, the
    [rel=next] anchor is first in the pagination list when it is in the
    lower part of the viewport whenever the other is, or when it comes
    first in the document. *)
Theorem pagination_ranking (limits : Snap.Limits) (iframes : bool) (p : Snap.Page) :
  (∀ vh a,
     PageSnapshot.score vh a
     = (if PageSnapshot.relNext a then 3 else 0)
       + (if PageSnapshot.nextText a then 2 else 0)
       + (if PageSnapshot.pageParam a then 2 else 0)
       + (if PageSnapshot.nearBottom vh a then 1 else 0))
  ∧ (∀ f,
       let key := PageSnapshot.score (Snap.innerHeight f) in
       let sorted := JS.sortDesc key (PageSnapshot.scanned f) in
       PageSnapshot.rankedAnchors f = take 4 sorted
       ∧ sorted ≡ₚ PageSnapshot.scanned f
       ∧ StronglySorted (fun a b => key b ≤ key a) sorted
       ∧ ∀ v, filter (fun a => key a = v) sorted
              = filter (fun a => key a = v) (PageSnapshot.scanned f))
  ∧ (let cands := PageSnapshot.allCandidates iframes p in
     let ranked := PageSnapshot.rankPagination cands in
     Snap.pagination (Snap.compact (PageSnapshot.build limits iframes p))
     = take 2 ranked
     ∧ ranked `sublist_of` cands
     ∧ NoDup (PageSnapshot.paginationKey <$> ranked)
     ∧ ∀ c, c ∈ cands →
            ∃ c', c' ∈ ranked
                  ∧ PageSnapshot.paginationKey c' = PageSnapshot.paginationKey c)
  ∧ (∀ a b,
       Snap.childFrames p = [] →
       PageSnapshot.scanned (Snap.mainFrame p) = [a; b]
       ∨ PageSnapshot.scanned (Snap.mainFrame p) = [b; a] →
       PageSnapshot.relNext a = true →
       PageSnapshot.relNext b = false →
       PageSnapshot.nextText b = true →
       PageSnapshot.pageParam b = false →
       (PageSnapshot.nearBottom (Snap.innerHeight (Snap.mainFrame p)) b = true →
        PageSnapshot.nearBottom (Snap.innerHeight (Snap.mainFrame p)) a = true)
       ∨ PageSnapshot.scanned (Snap.mainFrame p) = [a; b] →
       head (Snap.pagination (Snap.compact (PageSnapshot.build limits iframes p)))
       = Some (PageSnapshot.nodeRefOf "main" (PageSnapshot.candidateRef a))).
Proof.
  split; [|split; [|split]].
  - intros vh a. reflexivity.
  - intros f key sorted. split; [by apply slice0_take|]. split; [apply sortDesc_perm|].
    split; [apply sortDesc_sorted|]. intros v. apply sortDesc_stable.
  - intros cands ranked. split; [by rewrite build_pagination, slice0_take|].
    destruct (rankPagination_go_keys [] cands) as (Hnd & _ & Hcover).
    split; [apply rankPagination_go_sublist|]. split; [exact Hnd|].
    intros c Hc. apply Hcover; [exact Hc|]. by intros ?%elem_of_nil.
  - intros a b. apply relNext_first.
Qed.

Lemma pagination_ranking_witness :
  head (Snap.pagination
          (Snap.compact (PageSnapshot.build Snap.DEFAULT_LIMITS true Samples.orderedPage)))
  = Some (PageSnapshot.nodeRefOf "main" (PageSnapshot.candidateRef Samples.relLink)).
Proof.
  destruct (pagination_ranking Snap.DEFAULT_LIMITS true Samples.orderedPage)
    as (_ & _ & _ & Hfirst).
  apply (Hfirst Samples.relLink Samples.textLink); try reflexivity.
  - left. reflexivity.
  - right. reflexivity.
Defined.

(** A link whose text is the guillemet is a candidate. In
    [guillemetPage] it is low in the viewport and scores 3, as the [rel=next]
    link at the top does; first in the document, it stays first, and the
    "more" link, of score 2, is cut. The three bytes that encode U+203A in
    UTF-8, read as three code units, are not next-like text. *)
Lemma guillemet_candidate :
  Text.isNextText Text.raquo = true
  ∧ Text.isNextText
      (String (ascii_of_nat 226) (String (ascii_of_nat 128)
         (String (ascii_of_nat 186) EmptyString))) = false
  ∧ PageSnapshot.score 1000 Samples.guillemetLink = 3
  ∧ (Snap.selector ∘ Snap.node)
      <$> Snap.pagination
            (Snap.compact
               (PageSnapshot.build Snap.DEFAULT_LIMITS true Samples.guillemetPage))
    = ["#g"; "#rel"].
Proof. repeat split; vm_compute; reflexivity. Qed.

(** ** C7: images that recur in a batch *)

(** C7 (the code at a failing input). A batch of ten rows in which the
    logo and the banner each occur five times: [removeCommonImages] nulls the
    logo, the first image it finds with a count of 5, and leaves the banner
    on the five rows that carry it. The batch is cleaned on the small URL
    class; [removeCommonImages] itself does not depend on the platform. *)
Theorem removeCommonImages_first_only :
  let st := Samples.start (Samples.settings None None) in
  let before := Engine.cleaned (U := PlainUrl.api) st Samples.tenRows 100 in
  let batch := Engine.cleanAndDedupeResults (U := PlainUrl.api) st Samples.tenRows 100 in
  length (filter (fun r => Engine.image r = Some Samples.logo) before) = 5%nat
  ∧ length (filter (fun r => Engine.image r = Some Samples.banner) before) = 5%nat
  ∧ length (filter (fun r => Engine.image r = Some Samples.logo) batch) = 0%nat
  ∧ length (filter (fun r => Engine.image r = Some Samples.banner) batch) = 5%nat
  ∧ length (filter (fun r => Engine.image r = Some Samples.banner)
              (Engine.removeCommonImages Samples.tenRows)) = 5%nat.
Proof. vm_compute. repeat split. Qed.

(** ** The small URL class meets the laws *)

(** *** Strings *)

#[local] Arguments String.append !_ _ / : simpl nomatch.

Section Strings.
Import PlainUrl.

Lemma append_assoc (a b c : string) : (a +:+ b) +:+ c = a +:+ (b +:+ c).
Proof. induction a as [|x a IH]; simpl; [done|]. by rewrite IH. Qed.

Lemma append_empty_r (a : string) : a +:+ "" = a.
Proof. induction a as [|x a IH]; simpl; [done|]. by rewrite IH. Qed.

Lemma allChars_app p a b : allChars p (a +:+ b) = allChars p a && allChars p b.
Proof.
  induction a as [|x a IH]; cbn; [done|]. rewrite IH. by rewrite andb_assoc.
Qed.

Lemma allChars_impl (p q : ascii → bool) s :
  (∀ c, p c = true → q c = true) → allChars p s = true → allChars q s = true.
Proof.
  intros Hpq. induction s as [|x s IH]; cbn; [done|].
  intros [Hx Hs]%andb_true_iff. rewrite (Hpq x Hx). by apply IH.
Qed.

(** Splitting at the first [p]: a prefix without [p], then the rest. *)
Lemma splitFirst_app p a c b :
  allChars (fun x => negb (p x)) a = true → p c = true →
  splitFirst p (a +:+ String c b) = (a, Some b).
Proof.
  intros Ha Hc. induction a as [|x a IH]; cbn.
  - by rewrite Hc.
  - cbn in Ha. apply andb_true_iff in Ha as [Hx Ha].
    apply negb_true_iff in Hx. rewrite Hx, (IH Ha). done.
Qed.

Lemma splitFirst_none p a :
  allChars (fun x => negb (p x)) a = true → splitFirst p a = (a, None).
Proof.
  induction a as [|x a IH]; cbn; [done|].
  intros [Hx Ha]%andb_true_iff. apply negb_true_iff in Hx.
  by rewrite Hx, (IH Ha).
Qed.

(** Both parts of a split keep what holds of every character, and the
    first part is free of [p]. *)
Lemma splitFirst_allChars p q s :
  allChars q s = true →
  allChars q (splitFirst p s).1 = true
  ∧ allChars q (JS.orEmpty (splitFirst p s).2) = true.
Proof.
  induction s as [|x s IH]; cbn; [done|].
  intros [Hx Hs]%andb_true_iff. destruct (p x); cbn; [done|].
  destruct (IH Hs) as [H1 H2].
  destruct (splitFirst p s) as [a b]. cbn in *. by rewrite Hx, H1.
Qed.

Lemma splitFirst_prefix_free p s :
  allChars (fun x => negb (p x)) (splitFirst p s).1 = true.
Proof.
  induction s as [|x s IH]; cbn; [done|].
  destruct (p x) eqn:Hx; cbn; [done|].
  destruct (splitFirst p s) as [a b]. cbn in *. by rewrite Hx, IH.
Qed.

Lemma lowerUnit_idem c : Text.lowerUnit (Text.lowerUnit c) = Text.lowerUnit c.
Proof. destruct c as [[] [] [] [] [] [] [] []]; reflexivity. Qed.

Lemma toLowerCase_idem s : Text.toLowerCase (Text.toLowerCase s) = Text.toLowerCase s.
Proof. induction s as [|x s IH]; cbn; [done|]. by rewrite lowerUnit_idem, IH. Qed.

Lemma toLowerCase_app a b :
  Text.toLowerCase (a +:+ b) = Text.toLowerCase a +:+ Text.toLowerCase b.
Proof. induction a as [|x a IH]; cbn; [done|]. by rewrite IH. Qed.

Lemma allChars_toLowerCase p s :
  (∀ c, p c = true → p (Text.lowerUnit c) = true) →
  allChars p s = true → allChars p (Text.toLowerCase s) = true.
Proof.
  intros Hp. induction s as [|x s IH]; cbn; [done|].
  intros [Hx Hs]%andb_true_iff. by rewrite (Hp x Hx), (IH Hs).
Qed.

Lemma isSchemeChar_lower c :
  isSchemeChar c = true → isSchemeChar (Text.lowerUnit c) = true.
Proof. destruct c as [[] [] [] [] [] [] [] []]; cbn; done. Qed.

Lemma isAlpha_lower c : isAlpha c = true → isAlpha (Text.lowerUnit c) = true.
Proof. destruct c as [[] [] [] [] [] [] [] []]; cbn; done. Qed.

Lemma isHostChar_lower c :
  isHostChar c = true → isHostChar (Text.lowerUnit c) = true.
Proof. destruct c as [[] [] [] [] [] [] [] []]; cbn; done. Qed.

Lemma validScheme_lower s :
  validScheme s = true → validScheme (Text.toLowerCase s) = true.
Proof.
  destruct s as [|x s]; [done|]. unfold validScheme.
  intros [Hx Hs]%andb_true_iff. cbn [Text.toLowerCase].
  rewrite (isAlpha_lower x Hx).
  by apply (allChars_toLowerCase isSchemeChar (String x s) isSchemeChar_lower).
Qed.

Lemma validHost_lower s :
  validHost s = true → validHost (Text.toLowerCase s) = true.
Proof.
  unfold validHost. intros [Hne Hs]%andb_true_iff.
  rewrite (allChars_toLowerCase isHostChar s isHostChar_lower Hs), andb_true_r.
  destruct s; [done|]. done.
Qed.

End Strings.

(** *** Parsed URLs are well formed *)

Section WellFormed.
Import PlainUrl.

Definition noQF (c : ascii) : bool := negb (isCh "?" c || isCh "#" c).
Definition noF (c : ascii) : bool := negb (isCh "#" c).

(** What holds of every URL the parser returns. *)
Definition wf (r : URL) : Prop :=
  validScheme (scheme r) = true
  ∧ Text.toLowerCase (scheme r) = scheme r
  ∧ validHost (hostname r) = true
  ∧ Text.toLowerCase (hostname r) = hostname r
  ∧ allChars Text.isDigit (port r) = true
  ∧ (∃ p, pathname r = String "/" p ∧ allChars noQF p = true)
  ∧ allChars noF (JS.orEmpty (query r)) = true.

Lemma wf_mk sch h pt path q f :
  validScheme sch = true → Text.toLowerCase sch = sch →
  validHost h = true → Text.toLowerCase h = h →
  allChars Text.isDigit pt = true →
  (∃ p, path = String "/" p ∧ allChars noQF p = true) →
  allChars noF (JS.orEmpty q) = true →
  wf {| scheme := sch; hostname := h; port := pt; pathname := path;
        query := q; fragment := f |}.
Proof. intros. unfold wf. cbn [scheme hostname port pathname query]. done. Qed.

Lemma noQF_split c : noQF c = negb (isCh "?" c) && noF c.
Proof. unfold noQF, noF. by rewrite negb_orb. Qed.

Lemma allChars_noQF s :
  allChars (fun x => negb (isCh "?" x)) s = true → allChars noF s = true →
  allChars noQF s = true.
Proof.
  induction s as [|x s IH]; cbn; [done|].
  intros [H1 H2]%andb_true_iff [H3 H4]%andb_true_iff.
  by rewrite noQF_split, H1, H3, IH.
Qed.

Lemma parseAuthority_Some auth h pt :
  parseAuthority auth = Some (h, pt) →
  validHost h = true ∧ Text.toLowerCase h = h ∧ allChars Text.isDigit pt = true.
Proof.
  unfold parseAuthority. destruct (splitFirst (isCh ":") auth) as [h0 p0].
  destruct (validHost h0) eqn:Hh; [|done]. cbn [andb].
  destruct (allChars Text.isDigit (JS.orEmpty p0)) eqn:Hp; [|done].
  intros [= <- <-]. split; [by apply validHost_lower|].
  split; [apply toLowerCase_idem|done].
Qed.

Lemma parseAbsolute_wf s r : parseAbsolute s = Some r → wf r.
Proof.
  unfold parseAbsolute.
  pose proof (splitFirst_prefix_free (isCh "#") s) as Hs1.
  destruct (splitFirst (isCh "#") s) as [s1 frag]. cbn [fst] in Hs1.
  fold noF in Hs1.
  pose proof (splitFirst_prefix_free (isCh "?") s1) as Hs2.
  pose proof (splitFirst_allChars (isCh "?") noF s1 Hs1) as [Hs2' Hq].
  destruct (splitFirst (isCh "?") s1) as [s2 qry]. cbn [fst snd] in Hs2, Hs2', Hq.
  pose proof (allChars_noQF s2 Hs2 Hs2') as Hs2qf.
  pose proof (splitFirst_allChars (isCh ":") noQF s2 Hs2qf) as [_ Hrest].
  destruct (splitFirst (isCh ":") s2) as [sch rest]. cbn [snd] in Hrest.
  destruct rest as [[|c1 [|c2 r0]]|]; try done;
    destruct c1 as [[] [] [] [] [] [] [] []]; try done.
  destruct c2 as [[] [] [] [] [] [] [] []]; try done.
  cbn in Hrest.
  destruct (validScheme sch) eqn:Hsch; [|done].
  pose proof (splitFirst_allChars (isCh "/") noQF r0 Hrest) as [_ Hpath].
  destruct (splitFirst (isCh "/") r0) as [auth path]. cbn [snd] in Hpath.
  destruct (parseAuthority auth) as [[h pt]|] eqn:Hauth; [|done].
  apply parseAuthority_Some in Hauth as (Hh & Hhl & Hpt).
  intros [= <-]. unfold wf. cbn.
  split; [by apply validScheme_lower|]. split; [apply toLowerCase_idem|].
  split; [done|]. split; [done|]. split; [done|].
  split; [by eexists|done].
Qed.

Lemma dirname_allChars p path :
  allChars p path = true → allChars p (dirname path) = true.
Proof.
  induction path as [|c r IH]; cbn; [done|].
  intros [Hc Hr]%andb_true_iff.
  destruct (Text.includes "/" r); cbn; [by rewrite Hc, IH|].
  destruct (isCh "/" c); cbn; [by rewrite Hc|done].
Qed.

Lemma dirname_slash p : ∃ d, dirname (String "/" p) = String "/" d.
Proof. cbn. destruct (Text.includes "/" p); by eexists. Qed.

Lemma startsWith_slash c s : Text.startsWith "/" (String c s) = true → c = "/"%char.
Proof. by destruct c as [[] [] [] [] [] [] [] []]. Qed.

Lemma resolve_wf u b r : wf b → resolve u b = Some r → wf r.
Proof.
  intros Hb. unfold resolve.
  destruct (Text.startsWith "//" u); [apply parseAbsolute_wf|].
  pose proof (splitFirst_prefix_free (isCh "#") u) as Hs1.
  destruct (splitFirst (isCh "#") u) as [s1 frag]. cbn [fst] in Hs1.
  fold noF in Hs1.
  pose proof (splitFirst_prefix_free (isCh "?") s1) as Hp.
  pose proof (splitFirst_allChars (isCh "?") noF s1 Hs1) as [Hp' Hq].
  destruct (splitFirst (isCh "?") s1) as [path qry]. cbn [fst snd] in Hp, Hp', Hq.
  pose proof (allChars_noQF path Hp Hp') as Hpath.
  destruct Hb as (H1 & H2 & H3 & H4 & H5 & (p0 & Hp0 & Hp0') & H7).
  intros [= <-]. apply wf_mk; try done.
  - destruct (String.eqb_spec path "") as [_|Hne]; [by exists p0|].
    destruct path as [|c path']; [done|].
    match goal with
    | |- ∃ p, (if ?t then _ else _) = _ ∧ _ =>
        change t with (Text.startsWith "/" (String c path'))
    end.
    destruct (Text.startsWith "/" (String c path')) eqn:Hc.
    + exists path'. apply startsWith_slash in Hc as ->. cbn in Hpath. done.
    + rewrite Hp0. destruct (dirname_slash p0) as [d Hd].
      rewrite Hd. cbn. eexists. split; [reflexivity|].
      rewrite allChars_app, Hpath, andb_true_r.
      pose proof (dirname_allChars noQF (String "/" p0)) as Hdir.
      rewrite Hd in Hdir. cbn in Hdir. rewrite Hp0' in Hdir. by apply Hdir.
  - destruct (String.eqb path ""); [|done].
    destruct qry; [done|exact H7].
Qed.

Lemma parse_wf u base r : parse u base = Some r → wf r.
Proof.
  unfold parse. destruct base as [b|].
  - destruct (parseAbsolute b) as [pb|] eqn:Hb; [|done].
    destruct (hasScheme u); [apply parseAbsolute_wf|].
    apply resolve_wf. by eapply parseAbsolute_wf.
  - destruct (hasScheme u); [apply parseAbsolute_wf|done].
Qed.
End WellFormed.

(** *** Serializing and parsing again *)

Section RoundTrip.
Import PlainUrl.

Lemma schemeChar_noQF c : isSchemeChar c = true → noQF c = true.
Proof. destruct c as [[] [] [] [] [] [] [] []]; cbn; done. Qed.

Lemma schemeChar_noColon c : isSchemeChar c = true → negb (isCh ":" c) = true.
Proof. destruct c as [[] [] [] [] [] [] [] []]; cbn; done. Qed.

Lemma hostChar_noQF c : isHostChar c = true → noQF c = true.
Proof. destruct c as [[] [] [] [] [] [] [] []]; cbn; done. Qed.

Lemma hostChar_noColon c : isHostChar c = true → negb (isCh ":" c) = true.
Proof. destruct c as [[] [] [] [] [] [] [] []]; cbn; done. Qed.

Lemma hostChar_noSlash c : isHostChar c = true → negb (isCh "/" c) = true.
Proof. destruct c as [[] [] [] [] [] [] [] []]; cbn; done. Qed.

Lemma digit_noQF c : Text.isDigit c = true → noQF c = true.
Proof. destruct c as [[] [] [] [] [] [] [] []]; cbn; done. Qed.

Lemma digit_noSlash c : Text.isDigit c = true → negb (isCh "/" c) = true.
Proof. destruct c as [[] [] [] [] [] [] [] []]; cbn; done. Qed.

Lemma noQF_noF c : noQF c = true → noF c = true.
Proof. rewrite noQF_split. by intros [_ ?]%andb_true_iff. Qed.

Lemma noQF_noQ c : noQF c = true → negb (isCh "?" c) = true.
Proof. rewrite noQF_split. by intros [? _]%andb_true_iff. Qed.

(** [host[:port]] as [toString] writes it. *)
Definition authorityOf (r : URL) : string :=
  hostname r +:+ (if String.eqb (port r) "" then "" else ":" +:+ port r).

Lemma parseAuthority_authorityOf r :
  wf r → parseAuthority (authorityOf r) = Some (hostname r, port r).
Proof.
  intros (_ & _ & Hh & Hhl & Hp & _). unfold parseAuthority, authorityOf.
  assert (allChars (fun x => negb (isCh ":" x)) (hostname r) = true) as Hnc.
  { unfold validHost in Hh. apply andb_true_iff in Hh as [_ Hh].
    revert Hh. apply allChars_impl, hostChar_noColon. }
  destruct (String.eqb_spec (port r) "") as [E|Hne].
  - rewrite append_empty_r, (splitFirst_none _ _ Hnc). cbn [JS.orEmpty].
    rewrite Hh. cbn. by rewrite Hhl, E.
  - destruct (port r) as [|c pt] eqn:E; [done|].
    cbn [String.append]. rewrite (splitFirst_app _ _ ":" _ Hnc eq_refl).
    cbn [JS.orEmpty]. rewrite Hh, Hp. cbn. by rewrite Hhl.
Qed.

Lemma authorityOf_allChars p r :
  (∀ c, isHostChar c = true → p c = true) →
  (∀ c, Text.isDigit c = true → p c = true) →
  p ":"%char = true →
  wf r → allChars p (authorityOf r) = true.
Proof.
  intros Hhost Hdigit Hcolon (_ & _ & Hh & _ & Hp & _). unfold authorityOf.
  unfold validHost in Hh. apply andb_true_iff in Hh as [_ Hh].
  rewrite allChars_app, (allChars_impl _ _ _ Hhost Hh). cbn [andb].
  destruct (String.eqb (port r) ""); [done|].
  cbn. rewrite Hcolon. cbn. by apply (allChars_impl _ _ _ Hdigit Hp).
Qed.

Definition queryPart (r : URL) : string :=
  match query r with Some q => String "?" q | None => "" end.
Definition fragmentPart (r : URL) : string :=
  match fragment r with Some f => String "#" f | None => "" end.
Definition hierPart (r : URL) : string :=
  scheme r +:+ String ":" (String "/" (String "/" (authorityOf r +:+ pathname r))).

Lemma toString_shape r :
  toString r = (hierPart r +:+ queryPart r) +:+ fragmentPart r.
Proof.
  unfold toString, hierPart, queryPart, fragmentPart, authorityOf.
  change (match query r with Some q => "?" +:+ q | None => "" end)
    with (match query r with Some q => String "?" q | None => "" end).
  change (match fragment r with Some f => "#" +:+ f | None => "" end)
    with (match fragment r with Some f => String "#" f | None => "" end).
  rewrite !append_assoc. simpl. by rewrite !append_assoc.
Qed.

Lemma hierPart_noQF r : wf r → allChars noQF (hierPart r) = true.
Proof.
  intros Hwf. pose proof Hwf as (Hs & _ & _ & _ & _ & (p & Hp & Hp') & _).
  unfold hierPart. rewrite allChars_app. cbn.
  rewrite allChars_app, Hp. cbn. rewrite Hp'.
  rewrite (authorityOf_allChars noQF r hostChar_noQF digit_noQF eq_refl Hwf).
  unfold validScheme in Hs. destruct (scheme r) as [|c s]; [done|].
  apply andb_true_iff in Hs as [_ Hs].
  by rewrite (allChars_impl _ _ _ schemeChar_noQF Hs).
Qed.

Lemma splitFirst_optional p a c (o : option string) :
  allChars (fun x => negb (p x)) a = true → p c = true →
  splitFirst p (a +:+ match o with Some b => String c b | None => "" end) = (a, o).
Proof.
  intros Ha Hc. destruct o as [b|].
  - by apply splitFirst_app.
  - rewrite append_empty_r. by apply splitFirst_none.
Qed.

(** Parsing the serialization of a well-formed URL gives the URL back. *)
Lemma parseAbsolute_toString r : wf r → parseAbsolute (toString r) = Some r.
Proof.
  intros Hwf. pose proof Hwf as (Hs & Hsl & Hh & Hhl & Hpt & (p & Hp & Hp') & Hq).
  pose proof (hierPart_noQF r Hwf) as Hhier.
  unfold parseAbsolute. rewrite toString_shape.
  assert (allChars noF (hierPart r +:+ queryPart r) = true) as Hpre.
  { rewrite allChars_app, (allChars_impl _ _ _ noQF_noF Hhier). cbn [andb].
    unfold queryPart. destruct (query r); [|done]. cbn. exact Hq. }
  unfold fragmentPart.
  rewrite (splitFirst_optional (isCh "#") _ "#" (fragment r) Hpre eq_refl).
  unfold queryPart.
  rewrite (splitFirst_optional (isCh "?") _ "?" (query r)
             (allChars_impl _ _ _ noQF_noQ Hhier) eq_refl).
  unfold hierPart.
  assert (allChars (fun x => negb (isCh ":" x)) (scheme r) = true) as Hsc.
  { unfold validScheme in Hs. destruct (scheme r) as [|c s]; [done|].
    apply andb_true_iff in Hs as [_ Hs].
    by apply (allChars_impl _ _ _ schemeChar_noColon Hs). }
  rewrite (splitFirst_app (isCh ":") _ ":" _ Hsc eq_refl).
  rewrite Hs, Hp.
  rewrite (splitFirst_app (isCh "/") _ "/" p
             (authorityOf_allChars _ r hostChar_noSlash digit_noSlash eq_refl Hwf)
             eq_refl).
  rewrite (parseAuthority_authorityOf r Hwf). cbn [JS.orEmpty].
  rewrite Hsl, <- Hp. by destruct r.
Qed.

Lemma hasScheme_toString r : wf r → hasScheme (toString r) = true.
Proof.
  intros (Hs & _). unfold hasScheme, toString.
  assert (allChars (fun x => negb (negb (isSchemeChar x))) (scheme r) = true) as Hsc.
  { unfold validScheme in Hs. destruct (scheme r) as [|c s]; [done|].
    apply andb_true_iff in Hs as [_ Hs]. revert Hs. apply allChars_impl.
    intros x ->. done. }
  cbn [String.append]. rewrite (splitFirst_app _ _ ":" _ Hsc eq_refl).
  rewrite Hs. cbn [andb]. clear. induction (scheme r) as [|c s IH]; [done|exact IH].
Qed.

Lemma plain_parse_toString u base r0 r :
  parse u (Some base) = Some r0 → wf r → parse (toString r) (Some base) = Some r.
Proof.
  unfold parse. destruct (parseAbsolute base) as [pb|]; [|done].
  intros _ Hwf. rewrite (hasScheme_toString r Hwf).
  by apply parseAbsolute_toString.
Qed.
End RoundTrip.

(** *** The query as a list of pairs *)

Section Query.
Import PlainUrl.

Definition nameChar (c : ascii) : bool :=
  negb (isCh "&" c || isCh "=" c || isCh "#" c).
Definition valueChar (c : ascii) : bool := negb (isCh "&" c || isCh "#" c).

(** The pairs a query without [#] parses to. *)
Definition validPair (nv : string * string) : Prop :=
  allChars nameChar nv.1 = true ∧ allChars valueChar nv.2 = true.

Lemma splitOn_app p a c b :
  allChars (fun x => negb (p x)) a = true → p c = true →
  splitOn p (a +:+ String c b) = a :: splitOn p b.
Proof.
  intros Ha Hc. induction a as [|x a IH]; cbn.
  - by rewrite Hc.
  - cbn in Ha. apply andb_true_iff in Ha as [Hx Ha].
    apply negb_true_iff in Hx. by rewrite Hx, (IH Ha).
Qed.

Lemma splitOn_none p a :
  allChars (fun x => negb (p x)) a = true → splitOn p a = [a].
Proof.
  induction a as [|x a IH]; cbn; [done|].
  intros [Hx Ha]%andb_true_iff. apply negb_true_iff in Hx.
  by rewrite Hx, (IH Ha).
Qed.

Lemma splitOn_pieces p q s piece :
  allChars q s = true → piece ∈ splitOn p s →
  allChars q piece = true ∧ allChars (fun x => negb (p x)) piece = true.
Proof.
  revert piece. induction s as [|x s IH]; intros piece; cbn.
  - by intros _ ->%list_elem_of_singleton.
  - intros [Hx Hs]%andb_true_iff. destruct (p x) eqn:Hpx.
    + intros [->|Hin]%elem_of_cons; [done|]. by apply IH.
    + destruct (splitOn p s) as [|h t] eqn:E.
      * intros ->%list_elem_of_singleton. cbn. by rewrite Hx, Hpx.
      * intros [->|Hin]%elem_of_cons.
        -- destruct (IH h Hs) as [H1 H2]; [left|]. cbn. by rewrite Hx, Hpx, H1, H2.
        -- apply IH; [done|by right].
Qed.

Lemma parsePair_valid piece nv :
  allChars noF piece = true →
  allChars (fun x => negb (isCh "&" x)) piece = true →
  parsePair piece = Some nv → validPair nv.
Proof.
  intros Hf Ha. unfold parsePair. destruct (String.eqb piece ""); [done|].
  assert (allChars valueChar piece = true) as Hv.
  { clear -Hf Ha. induction piece as [|x s IH]; [done|]. cbn in *.
    apply andb_true_iff in Hf as [Hf1 Hf2]. apply andb_true_iff in Ha as [Ha1 Ha2].
    rewrite (IH Hf2 Ha2), andb_true_r. unfold valueChar, noF in *.
    rewrite negb_orb. by rewrite Ha1, Hf1. }
  pose proof (splitFirst_prefix_free (isCh "=") piece) as Hn.
  pose proof (splitFirst_allChars (isCh "=") valueChar piece Hv) as [Hn' Hv'].
  destruct (splitFirst (isCh "=") piece) as [n v]. cbn [fst snd] in *.
  intros [= <-]. split; cbn [fst snd]; [|done].
  clear -Hn Hn'. induction n as [|x s IH]; [done|]. cbn in *.
  apply andb_true_iff in Hn as [Hn1 Hn2]. apply andb_true_iff in Hn' as [Hv1 Hv2].
  rewrite (IH Hn2 Hv2), andb_true_r. unfold nameChar, valueChar in *.
  rewrite !negb_orb in *. apply andb_true_iff in Hv1 as [-> ->]. by rewrite Hn1.
Qed.

Lemma parseQuery_valid q :
  allChars noF q = true → Forall validPair (parseQuery q).
Proof.
  intros Hq. apply Forall_forall. intros nv Hin.
  unfold parseQuery in Hin. apply list_elem_of_omap in Hin as (piece & Hp & Hnv).
  destruct (splitOn_pieces (isCh "&") noF q piece Hq Hp) as [H1 H2].
  by eapply parsePair_valid.
Qed.

Lemma nameChar_noEq c : nameChar c = true → negb (isCh "=" c) = true.
Proof. destruct c as [[] [] [] [] [] [] [] []]; cbn; done. Qed.
Lemma nameChar_noAmp c : nameChar c = true → negb (isCh "&" c) = true.
Proof. destruct c as [[] [] [] [] [] [] [] []]; cbn; done. Qed.
Lemma valueChar_noAmp c : valueChar c = true → negb (isCh "&" c) = true.
Proof. destruct c as [[] [] [] [] [] [] [] []]; cbn; done. Qed.
Lemma nameChar_noF c : nameChar c = true → noF c = true.
Proof. destruct c as [[] [] [] [] [] [] [] []]; cbn; done. Qed.
Lemma valueChar_noF c : valueChar c = true → noF c = true.
Proof. destruct c as [[] [] [] [] [] [] [] []]; cbn; done. Qed.

Lemma parsePair_pair n v :
  allChars nameChar n = true → parsePair (n +:+ "=" +:+ v) = Some (n, v).
Proof.
  intros Hn. unfold parsePair.
  replace (String.eqb (n +:+ "=" +:+ v) "") with false by (by destruct n).
  cbn [String.append].
  by rewrite (splitFirst_app (isCh "=") n "=" v (allChars_impl _ _ _ nameChar_noEq Hn) eq_refl).
Qed.

Lemma pair_noAmp n v :
  validPair (n, v) →
  allChars (fun x => negb (isCh "&" x)) (n +:+ "=" +:+ v) = true.
Proof.
  intros [Hn Hv]. cbn [fst snd] in *. rewrite allChars_app. cbn.
  by rewrite (allChars_impl _ _ _ nameChar_noAmp Hn),
             (allChars_impl _ _ _ valueChar_noAmp Hv).
Qed.

Lemma serializeQuery_cons n v rest :
  serializeQuery ((n, v) :: rest)
  = (n +:+ "=" +:+ v) +:+ match rest with
                           | [] => ""
                           | _ => String "&" (serializeQuery rest)
                           end.
Proof.
  destruct rest as [|[n' v'] rest]; cbn [serializeQuery].
  - by rewrite append_empty_r.
  - by rewrite !append_assoc.
Qed.

(** Parsing a serialized list of valid pairs gives the list back. *)
Lemma parseQuery_serializeQuery l :
  Forall validPair l → parseQuery (serializeQuery l) = l.
Proof.
  induction 1 as [|[n v] rest Hnv Hrest IH]; [done|].
  rewrite serializeQuery_cons. unfold parseQuery in *.
  pose proof (pair_noAmp n v Hnv) as Hamp.
  destruct rest as [|nv' rest'].
  - rewrite append_empty_r, (splitOn_none _ _ Hamp). cbn [omap list_omap].
    by rewrite (parsePair_pair n v (proj1 Hnv)).
  - rewrite (splitOn_app _ _ "&" _ Hamp eq_refl). cbn [omap list_omap].
    by rewrite (parsePair_pair n v (proj1 Hnv)), IH.
Qed.

Lemma serializeQuery_empty l : serializeQuery l = "" → l = [].
Proof.
  destruct l as [|[n v] rest]; [done|]. rewrite serializeQuery_cons.
  by destruct n.
Qed.

Lemma serializeQuery_noF l :
  Forall validPair l → allChars noF (serializeQuery l) = true.
Proof.
  induction 1 as [|[n v] rest [Hn Hv] Hrest IH]; [done|].
  rewrite serializeQuery_cons, !allChars_app. cbn [fst snd] in *.
  rewrite (allChars_impl _ _ _ nameChar_noF Hn). cbn.
  rewrite (allChars_impl _ _ _ valueChar_noF Hv). cbn.
  destruct rest; [done|]. cbn. exact IH.
Qed.
End Query.

(** *** The laws *)

Section PlainLaws.
Import PlainUrl.

Definition normalQuery (l : list (string * string)) : option string :=
  match l with [] => None | _ => Some (serializeQuery l) end.

Lemma updateQuery_query l r :
  Forall validPair l → query (updateQuery l r) = normalQuery l.
Proof.
  intros Hl. unfold updateQuery. cbn [query].
  destruct (String.eqb_spec (serializeQuery l) "") as [E|Hne].
  - by rewrite (serializeQuery_empty l E).
  - destruct l; [done|done].
Qed.

Lemma parseQuery_normalQuery l :
  Forall validPair l → parseQuery (JS.orEmpty (normalQuery l)) = l.
Proof.
  intros Hl. destruct l as [|nv l]; [done|]. cbn [normalQuery JS.orEmpty].
  by apply parseQuery_serializeQuery.
Qed.

Lemma searchParams_valid r : wf r → Forall validPair (searchParams r).
Proof. intros (_ & _ & _ & _ & _ & _ & Hq). by apply parseQuery_valid. Qed.

Lemma filter_valid (P : string * string → Prop) `{!∀ x, Decision (P x)} l :
  Forall validPair l → Forall validPair (filter P l).
Proof.
  intros Hl. apply Forall_forall. intros nv [_ Hin]%list_elem_of_filter.
  by eapply Forall_forall in Hl.
Qed.

(** The pairs left after a deletion. *)
Lemma searchParams_delete k r :
  wf r →
  searchParams (searchParamsDelete k r) = filter (fun nv => nv.1 ≠ k) (searchParams r).
Proof.
  intros Hwf. unfold searchParamsDelete, searchParams at 1.
  rewrite updateQuery_query by (by apply filter_valid, searchParams_valid).
  apply parseQuery_normalQuery. by apply filter_valid, searchParams_valid.
Qed.

Lemma updateQuery_wf l r : Forall validPair l → wf r → wf (updateQuery l r).
Proof.
  intros Hl (H1 & H2 & H3 & H4 & H5 & H6 & H7). unfold wf.
  rewrite (updateQuery_query l r Hl).
  cbn [updateQuery scheme hostname port pathname].
  repeat (split; [done|]).
  destruct l as [|nv l]; [done|]. cbn [normalQuery JS.orEmpty].
  by apply serializeQuery_noF.
Qed.

Lemma setProtocol_wf v r : wf r → wf (setProtocol v r).
Proof.
  intros Hwf. unfold setProtocol.
  destruct (validScheme (splitFirst (isCh ":") v).1) eqn:Hs; [|done].
  destruct Hwf as (H1 & H2 & H3 & H4 & H5 & H6 & H7). apply wf_mk; try done.
  - by apply validScheme_lower.
  - apply toLowerCase_idem.
Qed.

Lemma setHostname_wf v r : wf r → wf (setHostname v r).
Proof.
  intros Hwf. unfold setHostname. destruct (validHost v) eqn:Hv; [|done].
  destruct Hwf as (H1 & H2 & H3 & H4 & H5 & H6 & H7). apply wf_mk; try done.
  - by apply validHost_lower.
  - apply toLowerCase_idem.
Qed.

(** Every URL object the engine can hold is well formed. *)
Lemma reach_wf (r : URL) : Url.Reach (U := api) r → wf r.
Proof.
  induction 1 as [u base r Hp|r _ IH|k r _ IH|r _ IH|v r _ IH|v r _ IH].
  - by eapply parse_wf.
  - destruct IH as (H1 & H2 & H3 & H4 & H5 & H6 & H7). by apply wf_mk.
  - apply updateQuery_wf; [|done]. by apply filter_valid, searchParams_valid.
  - destruct IH as (H1 & H2 & H3 & H4 & H5 & H6 & H7). by apply wf_mk.
  - by apply setProtocol_wf.
  - by apply setHostname_wf.
Qed.

Lemma plain_toString_nonempty r : toString r ≠ "".
Proof.
  unfold toString. destruct (scheme r); cbn; discriminate.
Qed.

Lemma setProtocol_same r :
  wf r → setProtocol (Text.toLowerCase (protocol r)) r = r.
Proof.
  intros (Hs & Hsl & _). unfold setProtocol, protocol.
  rewrite toLowerCase_app, Hsl. cbn [Text.toLowerCase].
  assert (allChars (fun x => negb (isCh ":" x)) (scheme r) = true) as Hsc.
  { unfold validScheme in Hs. destruct (scheme r) as [|c s]; [done|].
    apply andb_true_iff in Hs as [_ Hs].
    by apply (allChars_impl _ _ _ schemeChar_noColon Hs). }
  replace (Text.lowerUnit ":") with ":"%char by done.
  rewrite (splitFirst_app (isCh ":") _ ":" "" Hsc eq_refl). cbn [fst].
  rewrite Hs, Hsl. by destruct r.
Qed.

Lemma setHostname_same r :
  wf r → setHostname (Text.toLowerCase (hostname r)) r = r.
Proof.
  intros (_ & _ & Hh & Hhl & _). unfold setHostname.
  rewrite Hhl, Hh, Hhl. by destruct r.
Qed.

Lemma delete_twice j k r :
  wf r →
  searchParamsDelete j (searchParamsDelete k r)
  = updateQuery (filter (fun nv => nv.1 ≠ j ∧ nv.1 ≠ k) (searchParams r)) r.
Proof.
  intros Hwf. unfold searchParamsDelete at 1.
  rewrite (searchParams_delete k r Hwf), list_filter_filter.
  reflexivity.
Qed.

(** An absolute reference is parsed on its own, when the base is valid. *)
Lemma parse_absolute u base b :
  parse base None = Some b → hasScheme u = true →
  parse u (Some base) = parseAbsolute u.
Proof.
  unfold parse. destruct (hasScheme base); [|done].
  intros -> ->. done.
Qed.

Lemma plain_laws : Url.Laws api.
Proof.
  split; cbn [Url.URL Url.parse Url.toString Url.protocol Url.host Url.hostname
              Url.setHash Url.setSearch Url.setProtocol Url.setHostname
              Url.searchParamsDelete Url.searchParamsKeys api].
  - intros r _. apply plain_toString_nonempty.
  - intros u base r0 r Hp Hr. eapply plain_parse_toString; [exact Hp|by apply reach_wf].
  - intros r Hr. by apply setProtocol_same, reach_wf.
  - intros r Hr. rewrite (setHostname_same r) by (by apply reach_wf).
    by apply setHostname_same, reach_wf.
  - done.
  - done.
  - intros k r Hr%reach_wf. rewrite delete_twice by done.
    unfold searchParamsDelete. f_equal. apply list_filter_iff. intros nv. tauto.
  - done.
  - done.
  - intros v r _. unfold setHostname. by destruct (validHost v).
  - intros j k r Hr%reach_wf. rewrite !delete_twice by done.
    f_equal. apply list_filter_iff. intros nv. tauto.
  - done.
  - intros k v r _. unfold setHostname. by destruct (validHost v).
  - intros v r _. unfold setHostname. by destruct (validHost v).
  - done.
  - done.
  - done.
  - intros v r _. unfold setHostname. by destruct (validHost v).
Qed.
End PlainLaws.

(** ** C2: canonical URLs *)

Section Canonical.
Import Engine.
Context `{U : Url.Api} {L : Url.Laws U}.

(** The steps of [canonicalize]. *)
Definition deleteAll (ks : list string) (r : Url.URL) : Url.URL :=
  foldl (fun r k => Url.searchParamsDelete k r) r ks.

Definition dropEmptySearch (r : Url.URL) : Url.URL :=
  match Url.searchParamsKeys r with
  | [] => Url.setSearch "" r
  | _ => r
  end.

Definition lowerHost (r : Url.URL) : Url.URL :=
  Url.setHostname (Text.toLowerCase (Url.hostname r)) r.

Lemma Reach_deleteAll ks r : Url.Reach r → Url.Reach (deleteAll ks r).
Proof.
  revert r. induction ks as [|k ks IH]; intros r Hr; [done|].
  cbn [deleteAll foldl]. apply IH. by constructor.
Qed.

Lemma Reach_dropEmptySearch r : Url.Reach r → Url.Reach (dropEmptySearch r).
Proof.
  intros Hr. unfold dropEmptySearch.
  destruct (Url.searchParamsKeys r); [by constructor|done].
Qed.

Lemma Reach_lowerHost r : Url.Reach r → Url.Reach (lowerHost r).
Proof. intros Hr. by constructor. Qed.

(** The assignment to [protocol] changes nothing. *)
Lemma canonicalize_steps r :
  Url.Reach r →
  canonicalize r
  = lowerHost (dropEmptySearch (deleteAll remove (Url.setHash "" r))).
Proof.
  intros Hr. unfold canonicalize. cbv zeta.
  fold (deleteAll remove (Url.setHash "" r)).
  fold (dropEmptySearch (deleteAll remove (Url.setHash "" r))).
  rewrite Url.setProtocol_lower; [done|].
  apply Reach_dropEmptySearch, Reach_deleteAll. by constructor.
Qed.

Lemma Reach_canonicalize r : Url.Reach r → Url.Reach (canonicalize r).
Proof.
  intros Hr. rewrite canonicalize_steps by done.
  apply Reach_lowerHost, Reach_dropEmptySearch, Reach_deleteAll. by constructor.
Qed.

(** *** Deleting several parameters *)

Lemma setHash_deleteAll ks r :
  Url.Reach r →
  Url.setHash "" (deleteAll ks r) = deleteAll ks (Url.setHash "" r).
Proof.
  revert r. induction ks as [|k ks IH]; intros r Hr; [done|].
  cbn [deleteAll foldl]. fold (deleteAll ks (Url.searchParamsDelete k r)).
  fold (deleteAll ks (Url.searchParamsDelete k (Url.setHash "" r))).
  rewrite IH by (by constructor). by rewrite Url.setHash_delete.
Qed.

Lemma delete_deleteAll k ks r :
  Url.Reach r →
  Url.searchParamsDelete k (deleteAll ks r) = deleteAll ks (Url.searchParamsDelete k r).
Proof.
  revert r. induction ks as [|k' ks IH]; intros r Hr; [done|].
  cbn [deleteAll foldl]. fold (deleteAll ks (Url.searchParamsDelete k' r)).
  fold (deleteAll ks (Url.searchParamsDelete k' (Url.searchParamsDelete k r))).
  rewrite IH by (by constructor). by rewrite Url.delete_delete.
Qed.

(** A deleted parameter stays deleted. *)
Lemma deleteAll_fixed k ks r :
  Url.Reach r → k ∈ ks →
  Url.searchParamsDelete k (deleteAll ks r) = deleteAll ks r.
Proof.
  revert r. induction ks as [|k' ks IH]; intros r Hr Hk.
  - by apply elem_of_nil in Hk.
  - cbn [deleteAll foldl]. fold (deleteAll ks (Url.searchParamsDelete k' r)).
    destruct (decide (k = k')) as [->|Hne].
    + rewrite delete_deleteAll by (by constructor).
      by rewrite Url.delete_idem.
    + apply IH; [by constructor|].
      apply elem_of_cons in Hk as [?|?]; done.
Qed.

(** *** The host name step commutes with the others *)

Lemma setHash_lowerHost r :
  Url.Reach r → Url.setHash "" (lowerHost r) = lowerHost (Url.setHash "" r).
Proof.
  intros Hr. unfold lowerHost.
  by rewrite Url.setHash_setHostname, Url.hostname_setHash.
Qed.

Lemma delete_lowerHost k r :
  Url.Reach r →
  Url.searchParamsDelete k (lowerHost r) = lowerHost (Url.searchParamsDelete k r).
Proof.
  intros Hr. unfold lowerHost.
  by rewrite Url.delete_setHostname, Url.hostname_delete.
Qed.

Lemma setSearch_lowerHost r :
  Url.Reach r → Url.setSearch "" (lowerHost r) = lowerHost (Url.setSearch "" r).
Proof.
  intros Hr. unfold lowerHost.
  by rewrite Url.setSearch_setHostname, Url.hostname_setSearch.
Qed.

(** *** The canonical URL is a fixed point of every step *)

Lemma canonicalize_Canonical r : Url.Reach r → Canonical (canonicalize r).
Proof.
  intros Hr. rewrite canonicalize_steps by done.
  set (x := Url.setHash "" r).
  assert (Url.Reach x) as Hx by (by constructor).
  set (z := deleteAll remove x).
  assert (Url.Reach z) as Hz by (by apply Reach_deleteAll).
  assert (Url.setHash "" z = z) as Hfz.
  { unfold z. rewrite setHash_deleteAll by done. unfold x.
    by rewrite Url.setHash_idem. }
  assert (∀ k, k ∈ remove → Url.searchParamsDelete k z = z) as Hdz.
  { intros k Hk. by apply deleteAll_fixed. }
  set (y := dropEmptySearch z).
  assert (Url.Reach y) as Hy by (by apply Reach_dropEmptySearch).
  assert (Url.setHash "" y = y) as Hfy.
  { unfold y, dropEmptySearch. destruct (Url.searchParamsKeys z); [|done].
    by rewrite Url.setHash_setSearch, Hfz. }
  assert (∀ k, k ∈ remove → Url.searchParamsDelete k y = y) as Hdy.
  { intros k Hk. unfold y, dropEmptySearch.
    destruct (Url.searchParamsKeys z); [|by apply Hdz].
    by rewrite Url.delete_setSearch, Hdz. }
  assert (Url.searchParamsKeys y = [] → Url.setSearch "" y = y) as Hsy.
  { unfold y, dropEmptySearch.
    destruct (Url.searchParamsKeys z) eqn:Ez; [|by rewrite Ez].
    intros _. by apply Url.setSearch_idem. }
  split; [|split; [|split; [|split]]].
  - by rewrite setHash_lowerHost, Hfy.
  - intros k Hk. by rewrite delete_lowerHost, Hdy.
  - unfold lowerHost at 1. rewrite Url.searchParamsKeys_setHostname by done.
    intros Hk. by rewrite setSearch_lowerHost, Hsy.
  - apply Url.setProtocol_lower. by apply Reach_lowerHost.
  - by apply Url.setHostname_lower.
Qed.

Lemma Canonical_canonicalize c : Canonical c → canonicalize c = c.
Proof.
  intros (Hf & Hd & Hs & Hp & Hh). unfold canonicalize. cbv zeta.
  rewrite Hf.
  assert (foldl (fun r k => Url.searchParamsDelete k r) c remove = c) as ->.
  { assert (∀ ks, (∀ k, k ∈ ks → k ∈ remove) →
                  foldl (fun r k => Url.searchParamsDelete k r) c ks = c) as H.
    { induction ks as [|k ks IH]; intros Hks; [done|].
      cbn [foldl]. rewrite Hd by (apply Hks; left).
      apply IH. intros k' Hk'. apply Hks. by right. }
    by apply H. }
  assert (match Url.searchParamsKeys c with
          | [] => Url.setSearch "" c
          | _ => c
          end = c) as ->.
  { destruct (Url.searchParamsKeys c); [by apply Hs|done]. }
  by rewrite Hp, Hh.
Qed.

(** A canonical URL string is its own canonical form. *)
Lemma canonicalForDedupe_idem base u :
  canonicalForDedupe base (canonicalForDedupe base u) = canonicalForDedupe base u.
Proof.
  unfold canonicalForDedupe at 2 3.
  destruct (Url.parse u (Some base)) as [r|] eqn:Hp.
  - assert (Url.Reach r) as Hr by (by econstructor).
    unfold canonicalForDedupe.
    rewrite (Url.parse_toString u base r _ Hp (Reach_canonicalize r Hr)).
    by rewrite (Canonical_canonicalize _ (canonicalize_Canonical r Hr)).
  - unfold canonicalForDedupe. by rewrite Hp.
Qed.

Lemma canonical_nonempty base u : u ≠ "" → canonicalForDedupe base u ≠ "".
Proof.
  intros Hu. unfold canonicalForDedupe.
  destruct (Url.parse u (Some base)) as [r|] eqn:Hp; [|exact Hu].
  apply Url.toString_nonempty, Reach_canonicalize. by econstructor.
Qed.
End Canonical.

(** C2. URL canonicalization is idempotent, whatever URL class the
    platform provides as long as it meets [Url.Laws]: for every string [u]
    and every page URL it is resolved against, the canonical form of the
    canonical form is the canonical form. A string that the constructor
    rejects is its own canonical form. For a string that parses, the
    canonical form is the serialization of the URL after the steps of
    [canonicalize] (fragment emptied, tracking parameters deleted, query
    emptied when no parameter is left, protocol and host name set to their
    lower case); it parses again to that URL, on which each of these steps
    changes nothing. In particular, on the small URL class and with a valid
    page URL, [https://x.com/a?utm_source=y#frag] and [https://X.com/a]
    have the same canonical form, [https://x.com/a]. *)
Theorem canonical_idempotent (U : Url.Api) (L : Url.Laws U) (base u : string) :
  Engine.canonicalForDedupe base (Engine.canonicalForDedupe base u)
  = Engine.canonicalForDedupe base u
  ∧ (Url.parse u (Some base) = None → Engine.canonicalForDedupe base u = u)
  ∧ (∀ r, Url.parse u (Some base) = Some r →
       let c := Engine.canonicalize r in
       Engine.canonicalForDedupe base u = Url.toString c
       ∧ Url.parse (Engine.canonicalForDedupe base u) (Some base) = Some c
       ∧ Engine.Canonical c)
  ∧ (∀ page b,
       PlainUrl.parse page None = Some b →
       Engine.canonicalForDedupe (U := PlainUrl.api) page
         "https://x.com/a?utm_source=y#frag"
       = Engine.canonicalForDedupe (U := PlainUrl.api) page "https://X.com/a"
       ∧ Engine.canonicalForDedupe (U := PlainUrl.api) page "https://X.com/a"
         = "https://x.com/a").
Proof.
  split; [apply canonicalForDedupe_idem|].
  split; [|split].
  - intros Hp. unfold Engine.canonicalForDedupe. by rewrite Hp.
  - intros r Hp c.
    assert (Url.Reach r) as Hr by (by econstructor).
    assert (Engine.canonicalForDedupe base u = Url.toString c) as Hc.
    { unfold Engine.canonicalForDedupe. by rewrite Hp. }
    split; [exact Hc|]. rewrite Hc. split.
    + eapply Url.parse_toString; [exact Hp|]. by apply Reach_canonicalize.
    + by apply canonicalize_Canonical.
  - intros page b Hb. unfold Engine.canonicalForDedupe.
    cbn [Url.parse PlainUrl.api].
    rewrite !(parse_absolute _ page b Hb) by reflexivity.
    split; vm_compute; reflexivity.
Qed.

Lemma canonical_idempotent_witness :
  let page := "https://x.com/list" in
  let u := "/a/b?utm_medium=m&id=7&ref=z#top" in
  Engine.canonicalForDedupe (U := PlainUrl.api) page
    (Engine.canonicalForDedupe (U := PlainUrl.api) page u)
  = Engine.canonicalForDedupe (U := PlainUrl.api) page u
  ∧ Engine.canonicalForDedupe (U := PlainUrl.api) page u = "https://x.com/a/b?id=7".
Proof.
  intros page u.
  destruct (canonical_idempotent PlainUrl.api plain_laws page u) as (Hidem & _).
  split; [exact Hidem|]. vm_compute. reflexivity.
Defined.

(** ** C3: de-duplication *)

Section Dedupe.
Import Engine.
Context `{U : Url.Api}.

Lemma dedupeFilter_sublist base global seen rows :
  dedupeFilter base global seen rows `sublist_of` rows.
Proof.
  revert seen. induction rows as [|r rows IH]; intros seen; cbn; [done|].
  repeat case_match; try (by apply sublist_cons). by apply sublist_skip.
Qed.

Lemma dedupeFilter_keys base global seen rows :
  NoDup (dedupeKey base <$> dedupeFilter base global seen rows)
  ∧ ∀ r, r ∈ dedupeFilter base global seen rows → dedupeKey base r ∉ seen.
Proof.
  revert seen. induction rows as [|r rows IH]; intros seen; cbn [dedupeFilter].
  - split; [constructor|]. intros r. by intros ?%elem_of_nil.
  - destruct (String.eqb (dedupeKey base r) ""); [apply IH|].
    destruct (JS.truthy (href r) && _); [apply IH|].
    case_bool_decide as Hseen; [apply IH|].
    destruct (IH (dedupeKey base r :: seen)) as [Hnd Hfresh]. split.
    + rewrite fmap_cons. constructor; [|exact Hnd].
      intros (r' & Hk & Hin)%list_elem_of_fmap.
      apply (Hfresh r' Hin). rewrite <- Hk. left.
    + intros r0 [->|Hin]%elem_of_cons; [done|].
      intros Hs. apply (Hfresh r0 Hin). by right.
Qed.

Lemma dedupeFilter_global base global seen rows r :
  r ∈ dedupeFilter base global seen rows →
  JS.truthy (href r) = true →
  canonicalForDedupe base (JS.orEmpty (href r)) ∉ global.
Proof.
  revert seen. induction rows as [|r0 rows IH]; intros seen; cbn [dedupeFilter].
  - by intros ?%elem_of_nil.
  - destruct (String.eqb (dedupeKey base r0) ""); [apply IH|].
    destruct (JS.truthy (href r0)) eqn:Ht; cbn [andb].
    + case_bool_decide as Hg; [apply IH|].
      case_bool_decide as Hseen; [apply IH|].
      intros [->|Hin]%elem_of_cons; [done|]. by eapply IH.
    + case_bool_decide as Hseen; [apply IH|].
      intros [->|Hin]%elem_of_cons Hr; [congruence|]. by eapply IH.
Qed.

Lemma dropImage_key base bad r : dedupeKey base (dropImage bad r) = dedupeKey base r.
Proof. unfold dropImage. by case_bool_decide. Qed.

Lemma dropImage_href bad r : href (dropImage bad r) = href r.
Proof. unfold dropImage. by case_bool_decide. Qed.

Lemma removeCommonImages_keys base rows :
  dedupeKey base <$> removeCommonImages rows = dedupeKey base <$> rows.
Proof.
  unfold removeCommonImages. destruct (List.find _ _) as [[bad c]|]; [|done].
  rewrite <- list_fmap_compose. apply list_fmap_ext.
  intros i r _. apply dropImage_key.
Qed.

Lemma removeCommonImages_length rows :
  length (removeCommonImages rows) = length rows.
Proof.
  unfold removeCommonImages. destruct (List.find _ _) as [[bad c]|]; [|done].
  apply length_fmap.
Qed.

Lemma removeCommonImages_elem_of rows r :
  r ∈ removeCommonImages rows → ∃ r0, r0 ∈ rows ∧ href r = href r0.
Proof.
  unfold removeCommonImages. destruct (List.find _ _) as [[bad c]|].
  - intros (r0 & -> & Hin)%list_elem_of_fmap. exists r0.
    split; [done|apply dropImage_href].
  - intros Hin. by exists r.
Qed.

Lemma dedupeKey_nonempty base r : dedupeKey base r ≠ "".
Proof.
  unfold dedupeKey.
  destruct (String.eqb_spec
              (if JS.truthy (href r)
               then canonicalForDedupe base (JS.orEmpty (href r)) else "") "")
    as [_|Hne]; [|exact Hne].
  by destruct (titleText r).
Qed.

(** A row is dropped by the second filter only when its canonical href was
    extracted before or when an earlier row of the batch has its key. *)
Lemma dedupeFilter_cover base global seen rows r :
  r ∈ rows →
  dedupeKey base r ∉ seen →
  (JS.truthy (href r) = true →
   canonicalForDedupe base (JS.orEmpty (href r)) ∉ global) →
  ∃ r', r' ∈ dedupeFilter base global seen rows
        ∧ dedupeKey base r' = dedupeKey base r.
Proof.
  revert seen. induction rows as [|r0 rows IH]; intros seen Hin Hseen Hglobal.
  - by apply elem_of_nil in Hin.
  - cbn [dedupeFilter].
    destruct (String.eqb_spec (dedupeKey base r0) "") as [E|_].
    { by apply dedupeKey_nonempty in E. }
    apply elem_of_cons in Hin as [->|Hin].
    + destruct (JS.truthy (href r0)) eqn:Ht; cbn [andb].
      * rewrite bool_decide_eq_false_2 by (by apply Hglobal).
        rewrite bool_decide_eq_false_2 by done.
        exists r0. split; [left|done].
      * rewrite bool_decide_eq_false_2 by done.
        exists r0. split; [left|done].
    + destruct (JS.truthy (href r0) && _); [by apply IH|].
      case_bool_decide as Hs0; [by apply IH|].
      destruct (decide (dedupeKey base r = dedupeKey base r0)) as [E|E].
      * exists r0. split; [left|done].
      * destruct (IH (dedupeKey base r0 :: seen) Hin) as (r' & Hr' & Hk); [|done|].
        { intros [?|?]%elem_of_cons; done. }
        exists r'. split; [by right|done].
Qed.

Lemma truthy_nonempty o : JS.truthy o = true → JS.orEmpty o ≠ "".
Proof.
  destruct o as [s|]; cbn; [|done].
  destruct (String.eqb_spec s ""); [done|]. done.
Qed.

Context {L : Url.Laws U}.

Lemma existingGlobal_elem_of st x :
  x ∈ extractedItems st →
  JS.truthy (href (data x)) = true →
  canonicalForDedupe (currentUrl st) (JS.orEmpty (href (data x))) ∈ existingGlobal st.
Proof.
  intros Hin Ht. unfold existingGlobal. apply list_elem_of_filter. split.
  - by apply canonical_nonempty, truthy_nonempty.
  - apply list_elem_of_fmap. exists x. split; [|done].
    unfold hrefOrUrl. by rewrite Ht.
Qed.
End Dedupe.

(** C3, as the claim states it, fails: a record without an href is not
    compared with the records of earlier cycles. In the run [twoTurns] the
    schema tier extracts the row (Hello, World), which has no link, on the
    first page and again on the second; both end up in [extractedItems],
    with the same de-duplication key. *)
Lemma dedupe_across_cycles_counterexample :
  let r := Engine.run (U := PlainUrl.api) (Samples.settings None None) Samples.twoTurns in
  Engine.finished r = true
  ∧ Engine.data <$> Engine.extractedItems (Engine.final r)
    = [Samples.textRow; Samples.textRow]
  ∧ JS.truthy (Engine.href Samples.textRow) = false
  ∧ (Engine.schemaRows ∘ Engine.rootPage) <$> Samples.twoTurns
    = [Some [Samples.textRow]; Some [Samples.textRow]].
Proof. vm_compute. repeat split. Qed.

(** C3 (amended). In the batch [cleanAndDedupeResults] returns, whatever
    tier the rows come from, no two records have the same key, where the
    key of a record is its canonical href or, absent an href, the text
    [title|snippet]; and no record with an href has the canonical href of a
    record with an href extracted earlier in the run. The batch is cut from
    the rows that pass the filters, and a row without an href fails them
    only for a row of the same batch: whatever was extracted before, its key
    is the key of a row that passes. *)
Theorem dedupe_batch (U : Url.Api) (L : Url.Laws U) (st : Engine.ScrapingState)
    (results : list Engine.Row) (maxNeeded : Z) :
  let base := Engine.currentUrl st in
  let batch := Engine.cleanAndDedupeResults st results maxNeeded in
  NoDup (Engine.dedupeKey base <$> batch)
  ∧ (∀ r, r ∈ batch →
       Engine.dedupeKey base r
       = if JS.truthy (Engine.href r)
         then Engine.canonicalForDedupe base (JS.orEmpty (Engine.href r))
         else Engine.titleText r +:+ "|" +:+ JS.orEmpty (Engine.snippet r))
  ∧ (∀ x r, x ∈ Engine.extractedItems st → r ∈ batch →
       JS.truthy (Engine.href (Engine.data x)) = true →
       JS.truthy (Engine.href r) = true →
       Engine.canonicalForDedupe base (JS.orEmpty (Engine.href (Engine.data x)))
       ≠ Engine.canonicalForDedupe base (JS.orEmpty (Engine.href r)))
  ∧ Engine.dedupeKey base <$> batch
    = Engine.dedupeKey base <$> JS.slice0 maxNeeded (Engine.qualifying st results)
  ∧ (∀ r0, r0 ∈ results →
       let r := Engine.normalizeRow base r0 in
       Engine.hasContent r = true →
       JS.truthy (Engine.href r0) = false →
       JS.truthy (Engine.href r) = false
       ∧ ∃ r', r' ∈ Engine.qualifying st results
               ∧ Engine.dedupeKey base r' = Engine.dedupeKey base r).
Proof.
  intros base batch. split; [|split; [|split; [|split]]].
  - unfold batch, Engine.cleanAndDedupeResults.
    rewrite removeCommonImages_keys. unfold Engine.cleaned, Engine.qualifying.
    destruct (slice0_prefix maxNeeded
                (Engine.dedupeFilter (Engine.currentUrl st) (Engine.existingGlobal st) []
                   (filter (fun r => Engine.hasContent r = true)
                      (Engine.normalizeRow (Engine.currentUrl st) <$> results))))
      as [k Hk].
    pose proof (dedupeFilter_keys (Engine.currentUrl st) (Engine.existingGlobal st) []
                  (filter (fun r => Engine.hasContent r = true)
                     (Engine.normalizeRow (Engine.currentUrl st) <$> results)))
      as [Hnd _].
    rewrite Hk, fmap_app in Hnd. by apply NoDup_app in Hnd as [Hnd _].
  - intros r _. unfold Engine.dedupeKey.
    destruct (JS.truthy (Engine.href r)) eqn:Ht; [|reflexivity].
    destruct (String.eqb_spec
                (Engine.canonicalForDedupe base (JS.orEmpty (Engine.href r))) "")
      as [E|_]; [|reflexivity].
    exfalso. revert E. by apply canonical_nonempty, truthy_nonempty.
  - intros x r Hx Hr Htx Htr Heq.
    apply removeCommonImages_elem_of in Hr as (r0 & Hr0 & Hhref).
    rewrite Hhref in Htr, Heq.
    apply slice0_elem_of in Hr0. unfold Engine.qualifying in Hr0.
    apply (dedupeFilter_global _ _ _ _ _ Hr0 Htr).
    fold base. rewrite <- Heq. by apply existingGlobal_elem_of.
  - unfold batch, Engine.cleanAndDedupeResults.
    by rewrite removeCommonImages_keys.
  - intros r0 Hr0 r Hc Ht0.
    assert (JS.truthy (Engine.href r) = false) as Ht.
    { unfold r, Engine.normalizeRow. cbn [Engine.href]. by rewrite Ht0. }
    split; [exact Ht|]. unfold Engine.qualifying. fold base.
    apply dedupeFilter_cover.
    + apply list_elem_of_filter. split; [exact Hc|].
      apply list_elem_of_fmap. by exists r0.
    + by intros ?%elem_of_nil.
    + intros Ht'. congruence.
Qed.

Lemma dedupe_batch_witness :
  let st := Engine.pushItems [Samples.row 0 Samples.logo]
              (Samples.start (Samples.settings None None)) in
  Engine.canonicalForDedupe (U := PlainUrl.api) (Engine.currentUrl st)
    "https://x.com/item/0"
  ≠ Engine.canonicalForDedupe (U := PlainUrl.api) (Engine.currentUrl st)
      "https://x.com/item/1".
Proof.
  intros st.
  destruct (dedupe_batch PlainUrl.api plain_laws st
              [Samples.row 0 Samples.logo; Samples.row 1 Samples.logo] 10)
    as (_ & _ & Hglobal & _).
  apply (Hglobal {| Engine.data := Samples.row 0 Samples.logo;
                    Engine.itemUrl := "https://x.com/list" |}
                 (Samples.row 1 Samples.logo)).
  - apply list_elem_of_In. vm_compute. left. reflexivity.
  - apply list_elem_of_In. vm_compute. left. reflexivity.
  - reflexivity.
  - reflexivity.
Defined.

(** ** The scraping loop *)

Section Loop.
Import Engine.
Context `{U : Url.Api}.

(** The computation keeps a property of the state, whether it returns or
    throws. *)
Definition Keeps {A} (I : ScrapingState → Prop) (c : Eff A) : Prop :=
  ∀ st, I st → I (c st).1.

Lemma keeps_pure {A} I (a : A) : Keeps I (pure a).
Proof. by intros st H. Qed.

Lemma keeps_await {A} I (a : Answer A) : Keeps I (await a).
Proof. by intros st H. Qed.

Lemma keeps_get I : Keeps I get.
Proof. by intros st H. Qed.

Lemma keeps_modify I f : (∀ st, I st → I (f st)) → Keeps I (modify f).
Proof. intros Hf st H. by apply Hf. Qed.

Lemma keeps_andThen {A B} I (c : Eff A) (k : A → Eff B) :
  Keeps I c → (∀ a, Keeps I (k a)) → Keeps I (andThen c k).
Proof.
  intros Hc Hk st H. unfold andThen.
  specialize (Hc st H). destruct (c st) as [st1 [a|msg]]; cbn [fst] in *.
  - by apply Hk.
  - exact Hc.
Qed.

(** The same, when the continuation may rely on the state it reads. *)
Lemma keeps_get_then {B} I (k : ScrapingState → Eff B) :
  (∀ st, I st → I (k st st).1) → Keeps I (andThen get k).
Proof. intros Hk st H. unfold andThen, get. by apply Hk. Qed.

Lemma keeps_takeSnapshot I s p : Keeps I (takeSnapshot s p).
Proof.
  unfold takeSnapshot. apply keeps_andThen; [apply keeps_await|].
  intros page. apply keeps_pure.
Qed.

(** *** An extraction step *)

Lemma cleanAndDedupeResults_length st rows n :
  0 ≤ n → Z.of_nat (length (cleanAndDedupeResults st rows n)) ≤ n.
Proof.
  intros Hn. unfold cleanAndDedupeResults, cleaned.
  rewrite removeCommonImages_length. by apply slice0_length_le.
Qed.

(** An extraction step leaves the state as it is and returns at most
    [maxNeeded] rows. *)
Lemma extractItemsFromSnapshot_spec s p snap st :
  (extractItemsFromSnapshot s p snap st).1 = st
  ∧ ∀ rows, (extractItemsFromSnapshot s p snap st).2 = Returns rows →
            Z.of_nat (length rows) ≤ maxNeeded s st.
Proof.
  assert (0 ≤ maxNeeded s st) as Hpos by (unfold maxNeeded; lia).
  pose proof (fun rows => cleanAndDedupeResults_length st rows _ Hpos) as Hlen.
  unfold extractItemsFromSnapshot, andThen, get, pure.
  destruct (Z.leb_spec (maxNeeded s st) 0) as [Hz|Hz].
  { cbn. split; [done|]. intros rows [= <-]. cbn. lia. }
  unfold extractFromSchema, andThen, get, pure.
  destruct (schemaRows p) as [rows1|].
  - destruct (cleanAndDedupeResults st rows1 (maxNeeded s st)) as [|r1 t1] eqn:E1.
    + unfold extractFromSnapshot, extractFromPageAnchors, andThen, get, pure, await.
      destruct (Snap.lists (Snap.compact snap)) as [|lb lbs].
      * destruct (anchorRows p) as [rows3|msg]; cbn; [|by split].
        split; [done|]. intros rows [= <-]. apply Hlen.
      * destruct (String.eqb _ "").
        -- destruct (anchorRows p) as [rows3|msg]; cbn; [|by split].
           split; [done|]. intros rows [= <-]. apply Hlen.
        -- destruct (listRows p) as [rows2|msg]; cbn; [|by split].
           destruct (cleanAndDedupeResults st rows2 (maxNeeded s st)) as [|r2 t2] eqn:E2.
           ++ destruct (anchorRows p) as [rows3|msg]; cbn; [|by split].
              split; [done|]. intros rows [= <-]. apply Hlen.
           ++ cbn. split; [done|]. intros rows [= <-]. rewrite <- E2. apply Hlen.
    + cbn. split; [done|]. intros rows [= <-]. rewrite <- E1. apply Hlen.
  - unfold extractFromSnapshot, extractFromPageAnchors, andThen, get, pure, await.
    destruct (Snap.lists (Snap.compact snap)) as [|lb lbs].
    + destruct (anchorRows p) as [rows3|msg]; cbn; [|by split].
      split; [done|]. intros rows [= <-]. apply Hlen.
    + destruct (String.eqb _ "").
      * destruct (anchorRows p) as [rows3|msg]; cbn; [|by split].
        split; [done|]. intros rows [= <-]. apply Hlen.
      * destruct (listRows p) as [rows2|msg]; cbn; [|by split].
        destruct (cleanAndDedupeResults st rows2 (maxNeeded s st)) as [|r2 t2] eqn:E2.
        -- destruct (anchorRows p) as [rows3|msg]; cbn; [|by split].
           split; [done|]. intros rows [= <-]. apply Hlen.
        -- cbn. split; [done|]. intros rows [= <-]. rewrite <- E2. apply Hlen.
Qed.

(** With no capacity left the step returns at once: neither the page nor
    the snapshot is consulted, and nothing a tier does can make it throw. *)
Lemma extractItemsFromSnapshot_full s p snap st :
  maxNeeded s st = 0 →
  extractItemsFromSnapshot s p snap st = (st, Returns []).
Proof.
  intros Hz. unfold extractItemsFromSnapshot, andThen, get, pure.
  by rewrite Hz.
Qed.

Lemma extractAndPush_state s p snap st :
  (extractAndPush s p snap st).1 = st
  ∨ ∃ rows, Z.of_nat (length rows) ≤ maxNeeded s st
            ∧ (extractAndPush s p snap st).1 = pushItems rows st.
Proof.
  unfold extractAndPush, andThen.
  destruct (extractItemsFromSnapshot_spec s p snap st) as [Hst Hrows].
  destruct (extractItemsFromSnapshot s p snap st) as [st1 [rows|msg]];
    cbn [fst snd] in *; subst st1; [|by left].
  destruct rows as [|r rows]; [by left|].
  right. exists (r :: rows). split; [by apply Hrows|done].
Qed.

Lemma keeps_extractAndPush I s p snap :
  (∀ rows st, I st → I (pushItems rows st)) → Keeps I (extractAndPush s p snap).
Proof.
  intros Hpush st H.
  destruct (extractAndPush_state s p snap st) as [->|(rows & _ & ->)]; [done|].
  by apply Hpush.
Qed.

Section Cycle.
Context (I : ScrapingState → Prop) (s : Settings).
Hypothesis stable_url : ∀ u st, I st → I (setCurrentUrl u st).
Hypothesis stable_visited : ∀ u st, I st → I (markVisited u st).
Hypothesis stable_extract : ∀ p snap, Keeps I (extractAndPush s p snap).

Lemma keeps_followLinksFrom env links : Keeps I (followLinksFrom s env links).
Proof.
  induction links as [|h rest IH]; cbn [followLinksFrom]; [apply keeps_pure|].
  apply keeps_get_then. intros st H.
  destruct (negb (shouldContinue s st)); [done|].
  destruct (isVisited h st); [by apply IH|].
  revert st H.
  apply keeps_andThen; [apply keeps_await|]. intros _.
  apply keeps_andThen; [apply keeps_modify, stable_visited|]. intros _.
  apply keeps_andThen; [apply keeps_takeSnapshot|]. intros childSnap.
  apply keeps_andThen; [apply stable_extract|]. intros _. exact IH.
Qed.

(** Everything in a turn before the pagination step. *)
Lemma keeps_visit env snap :
  Keeps I
    (modify (setCurrentUrl (Snap.c_url (Snap.compact snap))) ;;
     extractAndPush s (rootPage env) snap ;;
     (if followLinks s then
        let! st := get in
        followLinksFrom s env (discoverLinksFromSnapshot st snap)
      else pure ())).
Proof.
  apply keeps_andThen; [apply keeps_modify, stable_url|]. intros _.
  apply keeps_andThen; [apply stable_extract|]. intros _.
  destruct (followLinks s); [|apply keeps_pure].
  apply keeps_get_then. intros st H. by apply keeps_followLinksFrom.
Qed.

Hypothesis stable_next : ∀ st, I st → I (nextPage st).

Lemma keeps_paginate env snap : Keeps I (paginate s env snap).
Proof.
  unfold paginate. apply keeps_get_then. intros st H.
  destruct (chooseNextPageHref st snap) as [h|].
  - revert st H.
    apply keeps_andThen; [apply keeps_await|]. intros _.
    apply keeps_andThen; [apply keeps_modify, stable_next|]. intros _.
    apply keeps_andThen; [apply keeps_modify, stable_visited|]. intros _.
    apply keeps_pure.
  - destruct (schemaPagination s); [|done].
    revert st H.
    apply keeps_andThen; [apply keeps_await|]. intros [|]; [|apply keeps_pure].
    apply keeps_andThen; [apply keeps_await|]. intros _.
    apply keeps_andThen; [apply keeps_modify, stable_next|]. intros _.
    apply keeps_pure.
Qed.

Lemma keeps_cycle env : Keeps I (cycle s env).
Proof.
  unfold cycle.
  apply keeps_andThen; [apply keeps_takeSnapshot|]. intros snap.
  apply keeps_andThen; [apply keeps_modify, stable_url|]. intros _.
  apply keeps_andThen; [apply stable_extract|]. intros _.
  apply keeps_andThen; [|intros _; apply keeps_paginate].
  destruct (followLinks s); [|apply keeps_pure].
  apply keeps_get_then. intros st H. by apply keeps_followLinksFrom.
Qed.

End Cycle.

(** *** The loop keeps what its turns keep *)

Lemma final_after evs r : final (after evs r) = final r.
Proof. done. Qed.

Lemma keeps_scrapingLoop (I : ScrapingState → Prop) s :
  (∀ env, Keeps I (cycle s env)) →
  (∀ msg st, I st → I (handleError msg st)) →
  ∀ envs st, I st → I (final (scrapingLoop s envs st)).
Proof.
  intros Hcycle Herr. induction envs as [|env rest IH]; intros st H;
    cbn [scrapingLoop]; destruct (shouldContinue s st); try done.
  specialize (Hcycle env st H).
  destruct (cycle s env st) as [st1 [[|]|msg]]; cbn [fst] in Hcycle.
  - rewrite final_after. by apply IH.
  - done.
  - destruct (attempts s <=? _); [by apply Herr|].
    rewrite final_after. by apply IH, Herr.
Qed.

(** *** C1: the item limit *)

Definition withinLimit (m : Z) (st : ScrapingState) : Prop :=
  Z.of_nat (length (extractedItems st)) ≤ m.

Lemma withinLimit_extractAndPush s m p snap :
  maxItems s = Some m → Keeps (withinLimit m) (extractAndPush s p snap).
Proof.
  intros Hm st H. unfold withinLimit in *.
  destruct (extractAndPush_state s p snap st) as [->|(rows & Hrows & ->)]; [done|].
  unfold maxNeeded in Hrows. rewrite Hm in Hrows. simpl in Hrows.
  cbn [pushItems extractedItems]. rewrite length_app, length_fmap. lia.
Qed.

Lemma withinLimit_run s m envs :
  maxItems s = Some m → 0 ≤ m → withinLimit m (final (run s envs)).
Proof.
  intros Hm Hpos. unfold run. apply keeps_scrapingLoop.
  - intros env. apply keeps_cycle; try done.
    intros p snap. by apply withinLimit_extractAndPush.
  - done.
  - unfold withinLimit. cbn. lia.
Qed.

(** *** Errors and the page counter across a turn *)

Lemma cycle_errors s env st : errors (cycle s env st).1 = errors st.
Proof.
  apply (keeps_cycle (fun st' => errors st' = errors st) s); try done.
  intros p snap. by apply keeps_extractAndPush.
Qed.

Lemma page_andThen {A} (c : Eff A) (k : A → Eff bool) :
  (∀ p, Keeps (fun st => currentPage st = p) c) →
  (∀ a st, currentPage (k a st).1 = currentPage st + pageStep (k a st).2) →
  ∀ st, currentPage (andThen c k st).1
        = currentPage st + pageStep (andThen c k st).2.
Proof.
  intros Hc Hk st. unfold andThen.
  specialize (Hc (currentPage st) st eq_refl).
  destruct (c st) as [st1 [a|msg]]; cbn [fst snd] in *.
  - by rewrite Hk, Hc.
  - cbn. lia.
Qed.

Lemma paginate_page s env snap st :
  currentPage (paginate s env snap st).1
  = currentPage st + pageStep (paginate s env snap st).2.
Proof.
  unfold paginate, andThen, get, await, modify, pure.
  destruct (chooseNextPageHref st snap) as [h|].
  - destruct (nextGoto env) as [[]|msg]; cbn; lia.
  - destruct (schemaPagination s); [|cbn; lia].
    destruct (flowHasNext env) as [[|]|msg]; [|cbn; lia|cbn; lia].
    destruct (flowGoto env) as [[]|msg]; cbn; lia.
Qed.

Lemma cycle_page s env st :
  currentPage (cycle s env st).1 = currentPage st + pageStep (cycle s env st).2.
Proof.
  unfold cycle.
  apply page_andThen; [intros p; apply keeps_takeSnapshot|]. intros snap.
  apply page_andThen; [intros p; by apply keeps_modify|]. intros _.
  apply page_andThen.
  { intros p. by apply keeps_extractAndPush. }
  intros _. apply page_andThen; [|intros _; apply paginate_page].
  intros p. destruct (followLinks s); [|apply keeps_pure].
  apply keeps_get_then. intros st' H.
  apply (keeps_followLinksFrom (fun st0 => currentPage st0 = p) s); try done.
  intros p' snap'. by apply keeps_extractAndPush.
Qed.

(** *** C8: the retry ceiling, seen on the trace *)

Lemma trace_begins s envs st k :
  Z.of_nat (length (errors st)) < attempts s →
  CycleBegins k ∈ trace (scrapingLoop s envs st) →
  Z.of_nat k < attempts s.
Proof.
  revert st. induction envs as [|env rest IH]; intros st Hlt;
    cbn [scrapingLoop]; destruct (shouldContinue s st);
    try (by intros ?%elem_of_nil).
  pose proof (cycle_errors s env st) as Herr.
  destruct (cycle s env st) as [st1 [[|]|msg]]; cbn [fst] in Herr.
  - cbn [after trace finished final]. intros [[= ->]|Hin]%elem_of_cons; [done|].
    apply (IH st1); [by rewrite Herr|exact Hin].
  - cbn [trace]. intros [= ->]%list_elem_of_singleton. done.
  - destruct (Z.leb_spec (attempts s) (Z.of_nat (length (errors (handleError msg st1)))))
      as [Hge|Hlt'].
    + cbn [trace]. intros [= ->]%list_elem_of_singleton. done.
    + cbn [after trace finished final].
      intros [[= ->]|[?|Hin]%elem_of_cons]%elem_of_cons; [done|done|].
      by apply (IH (handleError msg st1)).
Qed.

Lemma trace_waits s envs st d :
  Waits d ∈ trace (scrapingLoop s envs st) → d = delay s.
Proof.
  revert st. induction envs as [|env rest IH]; intros st;
    cbn [scrapingLoop]; destruct (shouldContinue s st);
    try (by intros ?%elem_of_nil).
  destruct (cycle s env st) as [st1 [[|]|msg]].
  - cbn [after trace finished final]. intros [?|Hin]%elem_of_cons; [done|].
    by apply (IH st1).
  - cbn [trace]. by intros ?%list_elem_of_singleton.
  - destruct (attempts s <=? _).
    + cbn [trace]. by intros ?%list_elem_of_singleton.
    + cbn [after trace finished final].
      intros [?|[[= ->]|Hin]%elem_of_cons]%elem_of_cons; [done|done|].
      by apply (IH (handleError msg st1)).
Qed.

(** *** C9: the page limit *)

Lemma trace_after evs r : trace (after evs r) = evs ++ trace r.
Proof. done. Qed.

Lemma errors_grow s envs st :
  (length (errors st) ≤ length (errors (final (scrapingLoop s envs st))))%nat.
Proof.
  apply (keeps_scrapingLoop
           (fun st' => (length (errors st) ≤ length (errors st'))%nat) s);
    [| |done].
  - intros env st' H. by rewrite cycle_errors.
  - intros msg st' H. cbn. rewrite length_app. cbn. lia.
Qed.

(** The turns of a loop under a page limit [N]: at most the pages left,
    and one more for each error recorded on the way. *)
Lemma cycles_bound s N envs st :
  maxPages s = Some N → 0 < N →
  let r := scrapingLoop s envs st in
  Z.of_nat (countCycles (trace r))
  ≤ Z.max (N - currentPage st) 0
    + (Z.of_nat (length (errors (final r))) - Z.of_nat (length (errors st))).
Proof.
  intros HN Hpos. revert st. induction envs as [|env rest IH]; intros st;
    cbn zeta; cbn [scrapingLoop].
  - destruct (shouldContinue s st); cbn; lia.
  - destruct (shouldContinue s st) eqn:Hcont; [|cbn; lia].
    assert (currentPage st < N) as Hpage.
    { unfold shouldContinue in Hcont. rewrite HN in Hcont. cbn [limitReached] in Hcont.
      destruct (Z.eqb_spec N 0); [lia|]. cbn [negb andb] in Hcont.
      destruct (Z.leb_spec N (currentPage st)); [done|lia]. }
    pose proof (cycle_errors s env st) as Herr.
    pose proof (cycle_page s env st) as Hpg.
    destruct (cycle s env st) as [st1 [[|]|msg]]; cbn [fst snd pageStep] in Herr, Hpg.
    + rewrite trace_after, final_after. cbn [app countCycles].
      specialize (IH st1). cbn zeta in IH. rewrite Herr, Hpg in IH. lia.
    + cbn [trace final countCycles]. rewrite Herr. lia.
    + destruct (attempts s <=? _).
      * cbn [trace final countCycles handleError errors].
        rewrite length_app, Herr. cbn. lia.
      * rewrite trace_after, final_after. cbn [app countCycles].
        specialize (IH (handleError msg st1)). cbn zeta in IH.
        cbn [handleError errors currentPage] in IH.
        rewrite length_app, Herr, Hpg in IH. cbn [length] in IH. lia.
Qed.
End Loop.

(** C1. In a run with a positive [maxItems = m] the result holds at most
    [m] records. An extraction step leaves the state alone and returns at
    most [m] minus the number of records already extracted. When that
    capacity is zero the step returns the empty list without asking any
    tier: whatever the page and the snapshot are, and even where the tiers
    would throw, it returns [[]]. A cleaned batch has as many rows as the
    capacity allows among the qualifying rows. With [maxItems = 5] and a
    page whose list yields ten qualifying rows the run ends with exactly 5
    records. *)
Theorem maxItems_respected (U : Url.Api) (s : Engine.Settings)
    (envs : list Engine.CycleEnv) (m : Z) :
  Engine.maxItems s = Some m →
  0 < m →
  Z.of_nat (length (Engine.resultData
                      (Engine.buildResult s (Engine.final (Engine.run s envs))))) ≤ m
  ∧ (∀ p snap st,
       let capacity := Z.max (m - Z.of_nat (length (Engine.extractedItems st))) 0 in
       (Engine.extractItemsFromSnapshot s p snap st).1 = st
       ∧ (∀ rows, (Engine.extractItemsFromSnapshot s p snap st).2 = Engine.Returns rows →
                  Z.of_nat (length rows) ≤ capacity ∧ (capacity = 0 → rows = []))
       ∧ (capacity = 0 →
          Engine.extractItemsFromSnapshot s p snap st = (st, Engine.Returns [])))
  ∧ (∀ st results,
       let capacity := Z.max (m - Z.of_nat (length (Engine.extractedItems st))) 0 in
       Z.of_nat (length (Engine.cleanAndDedupeResults st results capacity))
       = Z.min capacity (Z.of_nat (length (Engine.qualifying st results))))
  ∧ (let r := Engine.run (U := PlainUrl.api) (Samples.settings None (Some 5))
                Samples.oneListTurn in
     Engine.finished r = true
     ∧ length (Engine.qualifying (U := PlainUrl.api)
                 (Samples.start (Samples.settings None (Some 5))) Samples.tenRows)
       = 10%nat
     ∧ length (Engine.resultData
                 (Engine.buildResult (Samples.settings None (Some 5)) (Engine.final r)))
       = 5%nat).
Proof.
  intros Hm Hpos. split; [|split; [|split]].
  - unfold Engine.buildResult. cbn [Engine.resultData]. rewrite length_fmap.
    apply (withinLimit_run s m envs Hm). lia.
  - intros p snap st capacity.
    assert (Engine.maxNeeded s st = capacity) as Hcap.
    { unfold Engine.maxNeeded. by rewrite Hm. }
    destruct (extractItemsFromSnapshot_spec s p snap st) as [Hst Hrows].
    split; [exact Hst|]. split.
    + intros rows Hr. specialize (Hrows rows Hr). rewrite Hcap in Hrows.
      split; [exact Hrows|].
      intros Hz. destruct rows; [done|]. cbn [length] in Hrows. lia.
    + intros Hz. apply extractItemsFromSnapshot_full. by rewrite Hcap.
  - intros st results capacity.
    unfold Engine.cleanAndDedupeResults, Engine.cleaned.
    rewrite removeCommonImages_length. apply slice0_length. unfold capacity. lia.
  - vm_compute. repeat split.
Qed.

(** The run of the claim, and a step without capacity on a page whose
    list tier and anchor tier throw. *)
Lemma maxItems_respected_witness :
  let s := Samples.settings None (Some 5) in
  Z.of_nat (length (Engine.resultData
                      (Engine.buildResult s
                         (Engine.final (Engine.run (U := PlainUrl.api) s
                                          Samples.oneListTurn))))) ≤ 5
  ∧ ∀ snap,
      Engine.extractItemsFromSnapshot (U := PlainUrl.api) s Samples.throwingPage snap
        (Samples.fiveDone s)
      = (Samples.fiveDone s, Engine.Returns []).
Proof.
  intros s.
  destruct (maxItems_respected PlainUrl.api s Samples.oneListTurn 5 eq_refl eq_refl)
    as (Hle & Hstep & _).
  split; [exact Hle|]. intros snap.
  destruct (Hstep Samples.throwingPage snap (Samples.fiveDone s)) as (_ & _ & Hfull).
  apply Hfull. reflexivity.
Defined.

(** C8. With a positive retry ceiling, every turn of the loop begins while
    fewer errors than the ceiling (3 by default) are recorded, and every
    wait lasts the configured delay (1000 ms by default), always the same.
    When a turn throws, the error is appended to [errors]; the loop then
    ends at once if the ceiling is reached, and otherwise waits the delay
    and takes the next turn. *)
Theorem retry_ceiling (U : Url.Api) (s : Engine.Settings)
    (envs : list Engine.CycleEnv) :
  0 < Engine.attempts s →
  (∀ k, Engine.CycleBegins k ∈ Engine.trace (Engine.run s envs) →
        Z.of_nat k < Engine.attempts s)
  ∧ (∀ d, Engine.Waits d ∈ Engine.trace (Engine.run s envs) → d = Engine.delay s)
  ∧ (∀ env rest st st' msg,
       Engine.shouldContinue s st = true →
       Engine.cycle s env st = (st', Engine.Throws msg) →
       let st'' := Engine.handleError msg st' in
       Engine.errors st''
       = Engine.errors st
           ++ [{| Engine.message := msg; Engine.errorUrl := Engine.currentUrl st' |}]
       ∧ Engine.scrapingLoop s (env :: rest) st
         = if Engine.attempts s <=? Z.of_nat (length (Engine.errors st''))
           then {| Engine.finished := true; Engine.final := st'';
                   Engine.trace := [Engine.CycleBegins (length (Engine.errors st))] |}
           else Engine.after
                  [Engine.CycleBegins (length (Engine.errors st));
                   Engine.Waits (Engine.delay s)]
                  (Engine.scrapingLoop s rest st'')).
Proof.
  intros Hpos. split; [|split].
  - intros k. apply trace_begins. cbn. lia.
  - intros d. apply trace_waits.
  - intros env rest st st' msg Hcont Hcycle st''. split.
    + pose proof (cycle_errors s env st) as Herr. rewrite Hcycle in Herr.
      cbn [fst] in Herr. unfold st''. cbn [Engine.handleError Engine.errors].
      by rewrite Herr.
    + cbn [Engine.scrapingLoop]. rewrite Hcont, Hcycle. reflexivity.
Qed.

Lemma retry_ceiling_witness :
  let r := Engine.run (U := PlainUrl.api) (Samples.settings None None)
             (Samples.failingTurns 5) in
  Engine.trace r
  = [Engine.CycleBegins 0; Engine.Waits 1000; Engine.CycleBegins 1;
     Engine.Waits 1000; Engine.CycleBegins 2]
  ∧ ∀ k, Engine.CycleBegins k ∈ Engine.trace r → Z.of_nat k < 3.
Proof.
  split; [vm_compute; reflexivity|].
  apply (retry_ceiling PlainUrl.api (Samples.settings None None)
           (Samples.failingTurns 5)).
  vm_compute. reflexivity.
Defined.

(** C9, as the claim states it, fails: a turn that throws is taken again on
    the same page. With [maxPages = 2], a first turn whose navigation to the
    next page fails and a second turn that succeeds, the loop takes two
    snapshot and extract turns, not at most one. *)
Lemma maxPages_cycles_counterexample :
  let s := Samples.settings (Some 2) None in
  let r := Engine.run (U := PlainUrl.api) s Samples.retriedTurns in
  Engine.maxPages s = Some 2
  ∧ Engine.finished r = true
  ∧ Engine.countCycles (Engine.trace r) = 2%nat
  ∧ length (Engine.errors (Engine.final r)) = 1%nat.
Proof. vm_compute. repeat split. Qed.

(** C9 (amended). [currentPage] starts at 1 and [shouldContinue] is false
    as soon as [currentPage >= maxPages], so a run with [maxPages = N > 0]
    takes at most [N - 1] turns plus one turn for each error it records (at
    most [N - 1] turns when no turn throws); with [maxPages = 1] the loop
    body never runs and the result has no data; with [maxPages = 0] the page
    count never stops the loop, and with [maxItems = 0] the item count never
    stops it, because the checks require a truthy limit. *)
Theorem maxPages_cycles (U : Url.Api) (s : Engine.Settings)
    (envs : list Engine.CycleEnv) (N : Z) :
  Engine.maxPages s = Some N →
  let r := Engine.run s envs in
  (0 < N →
   Z.of_nat (Engine.countCycles (Engine.trace r))
   ≤ (N - 1) + Z.of_nat (length (Engine.errors (Engine.final r))))
  ∧ (N = 1 →
     Engine.finished r = true ∧ Engine.trace r = []
     ∧ Engine.resultData (Engine.buildResult s (Engine.final r)) = [])
  ∧ (N = 0 →
     ∀ st, Engine.shouldContinue s st
           = negb (Engine.limitReached (Engine.maxItems s)
                     (Z.of_nat (length (Engine.extractedItems st)))))
  ∧ (Engine.maxItems s = Some 0 →
     ∀ st, Engine.shouldContinue s st
           = negb (Engine.limitReached (Engine.maxPages s) (Engine.currentPage st))).
Proof.
  intros HN r. split; [|split; [|split]].
  - intros Hpos. pose proof (cycles_bound s N envs
                  (Engine.setCurrentUrl (Engine.buildStartUrl s) (Engine.initializeState s))
                  HN Hpos) as H.
    cbn zeta in H. fold (Engine.run s envs) in H. fold r in H.
    cbn [Engine.setCurrentUrl Engine.initializeState Engine.currentPage
         Engine.errors length] in H. lia.
  - intros ->. unfold r, Engine.run.
    assert (Engine.shouldContinue s
              (Engine.setCurrentUrl (Engine.buildStartUrl s) (Engine.initializeState s))
            = false) as Hstop.
    { unfold Engine.shouldContinue. rewrite HN. reflexivity. }
    destruct envs; cbn [Engine.scrapingLoop]; rewrite Hstop; done.
  - intros -> st. unfold Engine.shouldContinue. rewrite HN. cbn [Engine.limitReached].
    cbn. by destruct (Engine.limitReached _ _).
  - intros Hitems st. unfold Engine.shouldContinue. rewrite Hitems.
    cbn [Engine.limitReached]. cbn. by destruct (Engine.limitReached _ _).
Qed.

Lemma maxPages_cycles_witness :
  let r := Engine.run (U := PlainUrl.api) (Samples.settings (Some 2) None)
             Samples.retriedTurns in
  Z.of_nat (Engine.countCycles (Engine.trace r))
  ≤ (2 - 1) + Z.of_nat (length (Engine.errors (Engine.final r))).
Proof.
  intros r.
  destruct (maxPages_cycles PlainUrl.api (Samples.settings (Some 2) None)
              Samples.retriedTurns 2 eq_refl) as (Hbound & _).
  apply Hbound. lia.
Defined.

(** * Further properties of the engine and of the snapshot builder *)

(** ** URL utilities of the engine *)

(** X1. [toAbsoluteUrl] is idempotent, and making a reference absolute
    first does not change its canonical key, on every URL class that meets
    [Url.Laws]. *)
Theorem toAbsoluteUrl_stable (U : Url.Api) (L : Url.Laws U) (base u : string) :
  Engine.toAbsoluteUrl base (Engine.toAbsoluteUrl base u) = Engine.toAbsoluteUrl base u
  ∧ Engine.canonicalForDedupe base (Engine.toAbsoluteUrl base u)
    = Engine.canonicalForDedupe base u.
Proof.
  unfold Engine.toAbsoluteUrl, Engine.canonicalForDedupe.
  destruct (Url.parse u (Some base)) as [r|] eqn:Hp.
  - assert (Url.Reach r) as Hr by (by econstructor).
    by rewrite (Url.parse_toString u base r r Hp Hr).
  - by rewrite Hp.
Qed.

Lemma toAbsoluteUrl_stable_witness :
  Engine.toAbsoluteUrl (U := PlainUrl.api) "https://x.com/list" "item/3?ref=home"
  = "https://x.com/item/3?ref=home"
  ∧ Engine.canonicalForDedupe (U := PlainUrl.api) "https://x.com/list"
      "https://x.com/item/3?ref=home"
    = Engine.canonicalForDedupe (U := PlainUrl.api) "https://x.com/list"
        "item/3?ref=home".
Proof.
  split; [vm_compute; reflexivity|].
  destruct (toAbsoluteUrl_stable PlainUrl.api plain_laws "https://x.com/list"
              "item/3?ref=home") as [_ Hkey].
  exact Hkey.
Defined.
(** ** Rows of a cleaned batch *)

Section CleanRows.
Import Engine.
Context `{U : Url.Api}.

Lemma cleanImageUrl_Some raw pageUrl u :
  cleanImageUrl raw pageUrl = Some u → Text.isHttpUrl u = true.
Proof.
  unfold cleanImageUrl. destruct (JS.truthy raw); [|done].
  destruct (String.eqb _ ""); [done|].
  destruct (Text.isDataUrl _ || Text.isSvgUrl _); [done|].
  destruct (String.eqb _ ""); cbn [orb]; [done|].
  destruct (Text.isHttpUrl _) eqn:E; cbn [negb]; [|done].
  by intros [= <-].
Qed.

Lemma promoteFromTags_go_Some tags pageUrl u :
  promoteFromTags_go tags pageUrl = Some u → Text.isHttpUrl u = true.
Proof.
  induction tags as [|t tags IH]; cbn [promoteFromTags_go]; [done|].
  destruct (cleanImageUrl (Some t) pageUrl) eqn:E; [|exact IH].
  intros [= <-]. by eapply cleanImageUrl_Some.
Qed.

Lemma normalizeRow_image base r u :
  image (normalizeRow base r) = Some u → Text.isHttpUrl u = true.
Proof.
  unfold normalizeRow. cbn [image].
  destruct (cleanImageUrl (image r) base) eqn:E.
  - intros [= <-]. by eapply cleanImageUrl_Some.
  - destruct (tags r) as [ts|]; cbn [promoteFromTags]; [|done].
    apply promoteFromTags_go_Some.
Qed.

Lemma removeCommonImages_row rows r :
  r ∈ removeCommonImages rows →
  ∃ r0, r0 ∈ rows ∧ href r = href r0 ∧ title r = title r0
        ∧ snippet r = snippet r0 ∧ (image r = image r0 ∨ image r = None).
Proof.
  unfold removeCommonImages. destruct (List.find _ _) as [[bad c]|].
  - intros (r0 & -> & Hin)%list_elem_of_fmap. exists r0.
    unfold dropImage. case_bool_decide; cbn; tauto.
  - intros Hin. exists r. tauto.
Qed.

End CleanRows.

(** X2. Every row of the batch [cleanAndDedupeResults] returns comes from
    an input row, has a title, an href or a snippet, carries no image or an
    http(s) image URL, and has an href that is absent or the absolute form
    of the input row's href. *)
Theorem cleanAndDedupeResults_rows (U : Url.Api) (st : Engine.ScrapingState)
    (results : list Engine.Row) (n : Z) (r : Engine.Row) :
  r ∈ Engine.cleanAndDedupeResults st results n →
  Engine.hasContent r = true
  ∧ (∀ u, Engine.image r = Some u → Text.isHttpUrl u = true)
  ∧ ∃ r0, r0 ∈ results
          ∧ Engine.href r
            = (if JS.truthy (Engine.href r0)
               then Some (Engine.toAbsoluteUrl (Engine.currentUrl st)
                            (JS.orEmpty (Engine.href r0)))
               else None)
          ∧ Engine.snippet r = Engine.snippet r0.
Proof.
  intros Hin. unfold Engine.cleanAndDedupeResults in Hin.
  apply removeCommonImages_row in Hin as (r1 & Hr1 & Hh & Ht & Hs & Hi).
  unfold Engine.cleaned, Engine.qualifying in Hr1. apply slice0_elem_of in Hr1.
  pose proof (dedupeFilter_sublist (Engine.currentUrl st) (Engine.existingGlobal st) []
                (filter (fun r => Engine.hasContent r = true)
                   (Engine.normalizeRow (Engine.currentUrl st) <$> results))) as Hsub.
  apply (fun H => elem_of_sublist _ _ _ H Hsub) in Hr1.
  apply list_elem_of_filter in Hr1 as [Hc Hr1].
  apply list_elem_of_fmap in Hr1 as (r0 & -> & Hr0).
  split; [|split].
  - unfold Engine.hasContent in *. by rewrite Hh, Ht, Hs.
  - intros u Hu. destruct Hi as [Hi|Hi]; [|congruence].
    rewrite Hi in Hu. by eapply normalizeRow_image.
  - exists r0. split; [done|]. by rewrite Hh, Hs.
Qed.

Lemma cleanAndDedupeResults_rows_witness :
  Engine.hasContent (Samples.row 0 Samples.logo) = true
  ∧ ∀ u, Engine.image (Samples.row 0 Samples.logo) = Some u → Text.isHttpUrl u = true.
Proof.
  destruct (cleanAndDedupeResults_rows PlainUrl.api
              (Samples.start (Samples.settings None None))
              [Samples.row 0 Samples.logo] 10 (Samples.row 0 Samples.logo))
    as (Hc & Hi & _).
  - apply list_elem_of_In. vm_compute. left. reflexivity.
  - split; [exact Hc|exact Hi].
Defined.

(** ** Counting images *)

Section CommonImages.
Import Engine.







End CommonImages.


(** ** What the loop keeps and what it bounds *)

Section LoopBounds.
Import Engine.
Context `{U : Url.Api}.

Definition Grown (st0 st : ScrapingState) : Prop :=
  extractedItems st0 `prefix_of` extractedItems st
  ∧ errors st0 `prefix_of` errors st
  ∧ visitedUrls st0 ⊆ visitedUrls st
  ∧ currentPage st0 ≤ currentPage st.

Lemma Grown_cycle st0 s env : Keeps (Grown st0) (cycle s env).
Proof.
  apply keeps_cycle.
  - intros u st H. exact H.
  - intros u st (H1 & H2 & H3 & H4). repeat split; try done.
    cbn [markVisited visitedUrls]. set_solver.
  - intros p snap. apply keeps_extractAndPush.
    intros rows st (H1 & H2 & H3 & H4). repeat split; try done.
    cbn [pushItems extractedItems]. by apply prefix_app_r.
  - intros st (H1 & H2 & H3 & H4). repeat split; try done.
    cbn [nextPage currentPage]. lia.
Qed.

(** X4. The loop only adds: the records, the errors and the visited URLs
    it starts with are still there at the end, in the same order, and the
    page counter never goes down. *)
Theorem scrapingLoop_grows (s : Settings) (envs : list CycleEnv) (st : ScrapingState) :
  let st' := final (scrapingLoop s envs st) in
  extractedItems st `prefix_of` extractedItems st'
  ∧ errors st `prefix_of` errors st'
  ∧ visitedUrls st ⊆ visitedUrls st'
  ∧ currentPage st ≤ currentPage st'.
Proof.
  apply (keeps_scrapingLoop (Grown st) s).
  - intros env. apply Grown_cycle.
  - intros msg st' (H1 & H2 & H3 & H4). repeat split; try done.
    cbn [handleError errors]. by apply prefix_app_r.
  - repeat split; done.
Qed.

Lemma page_bound s N envs st :
  maxPages s = Some N → 0 < N → currentPage st ≤ N →
  currentPage (final (scrapingLoop s envs st)) ≤ N.
Proof.
  intros HN Hpos. revert st. induction envs as [|env rest IH]; intros st Hle;
    cbn [scrapingLoop].
  - by destruct (shouldContinue s st).
  - destruct (shouldContinue s st) eqn:Hcont; [|done].
    assert (currentPage st < N) as Hpage.
    { unfold shouldContinue in Hcont. rewrite HN in Hcont. cbn [limitReached] in Hcont.
      destruct (Z.eqb_spec N 0); [lia|]. cbn [negb andb] in Hcont.
      destruct (Z.leb_spec N (currentPage st)); [done|lia]. }
    pose proof (cycle_page s env st) as Hpg.
    destruct (cycle s env st) as [st1 [[|]|msg]]; cbn [fst snd pageStep] in Hpg.
    + rewrite final_after. apply IH. lia.
    + cbn [final]. lia.
    + destruct (attempts s <=? _); [cbn; lia|].
      rewrite final_after. apply IH. cbn [handleError currentPage]. lia.
Qed.

(** X5. With a page limit [N >= 1], the page count reported in the result
    lies between 1 and [N]. *)
Theorem pageCount_bounded (s : Settings) (envs : list CycleEnv) (N : Z) :
  maxPages s = Some N → 1 ≤ N →
  1 ≤ pageCount (buildResult s (final (run s envs))) ≤ N.
Proof.
  intros HN Hpos. cbn [buildResult pageCount]. split.
  - pose proof (scrapingLoop_grows s envs
                  (setCurrentUrl (buildStartUrl s) (initializeState s)))
      as (_ & _ & _ & H).
    exact H.
  - apply (page_bound s N); [done|lia|]. cbn. lia.
Qed.

Lemma errors_bound s envs st :
  Z.of_nat (length (errors st)) < Z.max (attempts s) 1 →
  Z.of_nat (length (errors (final (scrapingLoop s envs st)))) ≤ Z.max (attempts s) 1.
Proof.
  revert st. induction envs as [|env rest IH]; intros st Hlt; cbn [scrapingLoop].
  - destruct (shouldContinue s st); cbn [final]; lia.
  - destruct (shouldContinue s st); [|cbn [final]; lia].
    pose proof (cycle_errors s env st) as Herr.
    destruct (cycle s env st) as [st1 [[|]|msg]]; cbn [fst] in Herr.
    + rewrite final_after. apply IH. by rewrite Herr.
    + cbn [final]. rewrite Herr. lia.
    + destruct (Z.leb_spec (attempts s)
                  (Z.of_nat (length (errors (handleError msg st1))))) as [Hge|Hlt'].
      * cbn [final handleError errors]. rewrite length_app, Herr. cbn [length]. lia.
      * rewrite final_after. apply IH. lia.
Qed.

(** X6. A run records at most as many errors as the retry ceiling allows
    (3 by default), and at most one when the ceiling is zero or negative. *)
Theorem errors_bounded (s : Settings) (envs : list CycleEnv) :
  Z.of_nat (length (resultErrors (buildResult s (final (run s envs)))))
  ≤ Z.max (attempts s) 1.
Proof.
  cbn [buildResult resultErrors]. apply errors_bound. cbn. lia.
Qed.

End LoopBounds.

Lemma pageCount_bounded_witness :
  1 ≤ Engine.pageCount
        (Engine.buildResult (Samples.settings (Some 2) None)
           (Engine.final (Engine.run (U := PlainUrl.api) (Samples.settings (Some 2) None)
                            Samples.retriedTurns)))
    ≤ 2.
Proof.
  apply (pageCount_bounded (U := PlainUrl.api) (Samples.settings (Some 2) None)
           Samples.retriedTurns 2 eq_refl).
  lia.
Defined.
(** ** De-duplicated lists: headings and discovered links *)

Section Deduped.
Import Snap PageSnapshot.
Context `{U : Url.Api}.

Lemma dedupe_spec seen l :
  NoDup (JS.dedupe seen l)
  ∧ (∀ x, x ∈ JS.dedupe seen l ↔ x ∈ l ∧ x ∉ seen)
  ∧ JS.dedupe seen l `sublist_of` l.
Proof.
  revert seen. induction l as [|a l IH]; intros seen; cbn [JS.dedupe].
  - split; [constructor|]. split; [|done]. intros x. rewrite elem_of_nil. tauto.
  - case_bool_decide as Hseen.
    + destruct (IH seen) as (Hnd & Hiff & Hsub). split; [done|]. split.
      * intros x. rewrite Hiff, elem_of_cons. split; [tauto|].
        intros [[->|?] ?]; [done|tauto].
      * by apply sublist_cons.
    + destruct (IH (a :: seen)) as (Hnd & Hiff & Hsub). split; [|split].
      * constructor; [|done]. rewrite Hiff. intros [_ Hn]. apply Hn. left.
      * intros x. rewrite !elem_of_cons, Hiff, not_elem_of_cons.
        destruct (decide (x = a)) as [->|Hne]; [tauto|tauto].
      * by apply sublist_skip.
Qed.


Lemma addFrame_headings limits acc ff m :
  a_headings (addFrame limits acc ff m).1 = a_headings acc ++ evalHeadings ff.1.
Proof.
  destruct ff as [f fid]. unfold addFrame, bind, ret.
  destruct (mapReg (addRef fid) (evalClickables f _) m) as [cs m1].
  destruct (mapReg (addList fid) _ m1) as [ls m2].
  destruct (mapReg (addRef fid) (getPaginationCandidates f) m2) as [ps m3].
  by destruct (mapReg (addForm fid) _ m3) as [fs m4].
Qed.

Lemma addFrames_headings limits fs acc m :
  a_headings (addFrames limits acc fs m).1
  = a_headings acc ++ (fs ≫= fun ff => evalHeadings ff.1).
Proof.
  revert acc m. induction fs as [|ff fs IH]; intros acc m.
  - cbn. by rewrite app_nil_r.
  - cbn [addFrames]. unfold bind.
    pose proof (addFrame_headings limits acc ff m) as H1.
    destruct (addFrame limits acc ff m) as [acc1 m1]. cbn [fst] in H1.
    rewrite IH, H1, bind_cons. by rewrite <- app_assoc.
Qed.

(** X7. The headings of a snapshot are the first six distinct headings of
    the collected frames, in the order the frames give them: no heading
    occurs twice, and each is a heading of some collected frame. *)
Theorem build_headings (limits : Limits) (iframes : bool) (p : Page) :
  let all := collectFrames iframes p ≫= (fun ff => evalHeadings ff.1) in
  let hs := headings (compact (build limits iframes p)) in
  hs = take 6 (JS.dedupe [] all)
  ∧ NoDup hs
  ∧ hs `sublist_of` all
  ∧ ((length (JS.dedupe [] all) ≤ 6)%nat → ∀ h, h ∈ all → h ∈ hs).
Proof.
  intros all hs.
  assert (hs = take 6 (JS.dedupe [] all)) as Hhs.
  { unfold hs, build.
    pose proof (addFrames_headings limits (collectFrames iframes p) emptyAcc ∅) as H.
    destruct (addFrames limits emptyAcc (collectFrames iframes p) ∅) as [acc m].
    cbn [fst] in H. cbn [compact headings]. rewrite H. by apply slice0_take. }
  destruct (dedupe_spec [] all) as (Hnd & Hiff & Hsub).
  split; [done|]. rewrite Hhs. split; [|split].
  - eapply sublist_NoDup; [done|apply sublist_take].
  - etrans; [apply sublist_take|done].
  - intros Hlen h Hh. rewrite take_ge by lia. apply Hiff. split; [done|].
    by intros ?%elem_of_nil.
Qed.


End Deduped.

(** ** Ranking in the snapshot builder *)

Section Ranking.
Import Dom Snap PageSnapshot.

Lemma rankPagination_go_id seen cands :
  NoDup (paginationKey <$> cands) →
  (∀ c, c ∈ cands → paginationKey c ∉ seen) →
  rankPagination_go seen cands = cands.
Proof.
  revert seen. induction cands as [|c cands IH]; intros seen Hnd Hfresh; [done|].
  cbn [rankPagination_go]. rewrite fmap_cons in Hnd.
  apply NoDup_cons in Hnd as [Hc Hnd].
  rewrite bool_decide_eq_false_2 by (apply Hfresh; left).
  f_equal. apply IH; [done|].
  intros c' Hc' [E|Hs]%elem_of_cons.
  - apply Hc. apply list_elem_of_fmap. by exists c'.
  - apply (Hfresh c'); [by right|done].
Qed.

(** X9. [rankPagination] is idempotent, and it leaves a list without two
    candidates of the same key as it is. *)
Theorem rankPagination_idempotent (cands : list NodeRef) :
  rankPagination (rankPagination cands) = rankPagination cands
  ∧ (NoDup (paginationKey <$> cands) → rankPagination cands = cands).
Proof.
  assert (∀ l, NoDup (paginationKey <$> l) → rankPagination l = l) as Hid.
  { intros l Hnd. apply rankPagination_go_id; [done|].
    intros c _. by intros ?%elem_of_nil. }
  split; [|apply Hid].
  apply Hid. by destruct (rankPagination_go_keys [] cands) as (Hnd & _).
Qed.

Lemma rankPagination_idempotent_witness :
  let cands := allCandidates true Samples.orderedPage in
  rankPagination cands = cands.
Proof.
  intros cands.
  destruct (rankPagination_idempotent cands) as [_ Hid].
  apply Hid. apply (@bool_decide_unpack _ (NoDup_dec _)). vm_compute. exact I.
Defined.

(** X10. The list blocks of a frame are the head of the detected blocks
    sorted by descending item count: they are in that order, every block
    left out counts no more items than any block kept, and with a
    non-negative [maxLists] there are as many as [maxLists] allows. *)
Theorem getListBlocks_ranked (f : Frame) (maxLists : Z) :
  ∃ rest,
    getListBlocks f maxLists ++ rest ≡ₚ listResults (document f)
    ∧ StronglySorted (fun a b => itemCount b ≤ itemCount a)
        (getListBlocks f maxLists ++ rest)
    ∧ (∀ a b, a ∈ getListBlocks f maxLists → b ∈ rest → itemCount b ≤ itemCount a)
    ∧ (0 ≤ maxLists →
       Z.of_nat (length (getListBlocks f maxLists))
       = Z.min maxLists (Z.of_nat (length (listResults (document f))))).
Proof.
  unfold getListBlocks.
  set (sorted := JS.sortDesc itemCount (listResults (document f))).
  destruct (slice0_prefix maxLists sorted) as [rest Hrest].
  pose proof (sortDesc_sorted itemCount (listResults (document f))) as Hs.
  fold sorted in Hs.
  exists rest. rewrite <- Hrest. split; [apply sortDesc_perm|]. split; [done|]. split.
  - intros a b Ha Hb. rewrite Hrest in Hs.
    apply StronglySorted_app in Hs as (Hcross & _ & _). by apply Hcross.
  - intros Hn. rewrite slice0_length by done. unfold sorted.
    by rewrite (Permutation_length (sortDesc_perm itemCount _)).
Qed.

Lemma getListBlocks_ranked_witness :
  Z.of_nat (length (getListBlocks (Samples.busyFrame "m") 2)) = 1.
Proof.
  destruct (getListBlocks_ranked (Samples.busyFrame "m") 2) as (rest & _ & _ & _ & Hlen).
  rewrite Hlen by lia. vm_compute. reflexivity.
Defined.

Lemma score_range vh a : qualifies a = true → 2 ≤ score vh a ≤ 8.
Proof.
  unfold qualifies, score.
  destruct (relNext a), (nextText a), (pageParam a), (nearBottom vh a);
    cbn; intros; try done; lia.
Qed.

(** X11. A frame yields at most four pagination candidates. Each is made
    from an anchor of the document that has [rel=next], next-like text or a
    page parameter, is a link marked visible with the anchor's resolved
    href, and scores between 2 and 8. *)
Theorem getPaginationCandidates_spec (f : Frame) :
  (length (getPaginationCandidates f) ≤ 4)%nat
  ∧ ∀ c, c ∈ getPaginationCandidates f →
         ∃ a, a ∈ allElements (document f)
              ∧ tagName a = "A"
              ∧ qualifies a = true
              ∧ 2 ≤ score (innerHeight f) a ≤ 8
              ∧ c = candidateRef a
              ∧ role c = Some "link" ∧ visible c = Some true
              ∧ href c = Some (hrefProp a) ∧ selector c = cssPath a.
Proof.
  unfold getPaginationCandidates. split.
  - rewrite length_fmap. apply Nat2Z.inj_le.
    unfold rankedAnchors. by apply slice0_length_le.
  - intros c (a & -> & Ha)%list_elem_of_fmap.
    unfold rankedAnchors in Ha.
    apply slice0_elem_of, sortDesc_elem_of in Ha. unfold scanned in Ha.
    apply list_elem_of_filter in Ha as [Hq Ha].
    apply list_elem_of_filter in Ha as [Hanchor Ha].
    exists a. split; [done|]. split.
    { unfold isAnchor in Hanchor. by apply String.eqb_eq in Hanchor. }
    split; [done|]. split; [by apply score_range|]. done.
Qed.

Lemma getPaginationCandidates_spec_witness :
  ∃ a, a ∈ allElements (document (mainFrame Samples.orderedPage))
       ∧ candidateRef Samples.relLink = candidateRef a.
Proof.
  destruct (getPaginationCandidates_spec (mainFrame Samples.orderedPage)) as [_ H].
  destruct (H (candidateRef Samples.relLink)) as (a & Ha & _ & _ & _ & Hc & _).
  - apply list_elem_of_In. vm_compute. left. reflexivity.
  - exists a. done.
Defined.

End Ranking.

(** ** Grouping children by signature *)

(** X12. [groupsOf] partitions the children of a container by signature:
    no signature has two groups, and a group is exactly the non-empty list of
    the children of one signature, in document order. Hence the item count
    of every block the list detector emits is the number of children of a
    candidate container that have the signature of the block's root. *)
Theorem groupsOf_partition (kids : list Dom.Element) :
  NoDup (PageSnapshot.groupsOf kids).*1
  ∧ (∀ s arr, (s, arr) ∈ PageSnapshot.groupsOf kids ↔
              arr ≠ [] ∧ arr = filter (fun k => PageSnapshot.signature k = s) kids)
  ∧ (∀ f maxLists lb, lb ∈ PageSnapshot.getListBlocks f maxLists →
       ∃ c first, c ∈ PageSnapshot.containers (Snap.document f)
                  ∧ first ∈ Dom.children c
                  ∧ Snap.selector (Snap.root lb) = Dom.cssPath first
                  ∧ Snap.itemCount lb
                    = Z.of_nat (length (filter
                                  (fun k => PageSnapshot.signature k
                                            = PageSnapshot.signature first)
                                  (Dom.children c)))).
Proof.
  destruct (groupsOf_Grouped kids) as (Hnd & _ & _).
  split; [done|]. split; [apply groupsOf_elem_of|].
  intros f maxLists lb Hlb.
  apply getListBlocks_elem_of in Hlb as (c & [s arr] & Hc & Hg & Hb).
  apply blockOfGroup_Some in Hb as (first & rest & Harr & _ & Hcount & Hsel & _).
  cbn [snd] in Harr. subst arr.
  apply groupsOf_elem_of in Hg as [_ Hfilter].
  assert (first ∈ filter (fun k => PageSnapshot.signature k = s) (Dom.children c))
    as Hfirst by (rewrite <- Hfilter; left).
  apply list_elem_of_filter in Hfirst as [<- Hfirst].
  exists c, first. repeat split; try done. by rewrite Hcount, Hfilter at 1.
Qed.
